(** * CSS Shadow Parts scoping of ShadyCSS (packages/shadycss/src/shadow-parts.js)

    A shallow embedding of the part-scoping module and the properties proved
    about it.

    - JavaScript strings are sequences of UTF-16 code units, modelled as
      [list N]; [lit] turns a Rocq string literal into such a sequence.
    - The three regular expressions of the module are written in a small
      regular-expression syntax and run by a backtracking matcher that follows
      the ECMAScript matching rules for the constructs the module uses.
    - The DOM is a tree of elements; an element is addressed by the chain of
      shadow trees around it, so that [getRootNode] and [root.host] are
      computed from the address.
    - A plain object used as a map from part names is a finite map
      ([gmap]) of its own properties together with the property names every
      object inherits from [Object.prototype]: reading an inherited name
      gives a value that is not [undefined] and is neither an array nor
      iterable.
    - [rescopeRecursive] and its two callers take a bound on the depth of
      the recursion; the bound is shown not to matter once it reaches the
      height of the tree.
    - [onStyleElement] defers its work to an animation frame and is not
      modelled. *)

From Stdlib Require Import NArith Ascii String DecimalN.
From stdpp Require Import gmap list option.

Set Warnings "-register-all".

Open Scope N_scope.
Open Scope list_scope.

(** ** Strings *)

Abbreviation str := (list N).

(** The code units of a literal. *)
Definition lit (s : string) : str :=
  map N_of_ascii (list_ascii_of_string s).

(** [\s] of a regular expression, and the code units [String.prototype.trim]
    strips: WhiteSpace and LineTerminator of ECMAScript. *)
Definition is_space (c : N) : bool :=
  (c =? 9) || (c =? 10) || (c =? 11) || (c =? 12) || (c =? 13) || (c =? 32)
  || (c =? 160) || (c =? 5760) || ((8192 <=? c) && (c <=? 8202))
  || (c =? 8232) || (c =? 8233) || (c =? 8239) || (c =? 8287)
  || (c =? 12288) || (c =? 65279).

(** [.] matches any code unit but a line terminator. *)
Definition is_dot (c : N) : bool :=
  negb ((c =? 10) || (c =? 13) || (c =? 8232) || (c =? 8233)).

(** [[a-z]] *)
Definition is_lower (c : N) : bool := (97 <=? c) && (c <=? 122).

(** [\w] is [[A-Za-z0-9_]]. *)
Definition is_word (c : N) : bool :=
  is_lower c || ((65 <=? c) && (c <=? 90)) || ((48 <=? c) && (c <=? 57))
  || (c =? 95).

(** [[^\s]] *)
Definition is_nonspace (c : N) : bool := negb (is_space c).

Fixpoint drop_while (cls : N -> bool) (s : str) : str :=
  match s with
  | c :: s' => if cls c then drop_while cls s' else s
  | [] => []
  end.

Definition trimStart (s : str) : str := drop_while is_space s.

Definition trimEnd (s : str) : str := rev (trimStart (rev s)).

(** [String.prototype.trim] *)
Definition trim (s : str) : str := trimEnd (trimStart s).

(** [Array.prototype.join] on an array of strings. *)
Fixpoint join (sep : str) (l : list str) : str :=
  match l with
  | [] => []
  | [x] => x
  | x :: l' => x ++ sep ++ join sep l'
  end.

Definition digit_char (d : N) : N := 48 + d.

Fixpoint uint_chars (u : Decimal.uint) : str :=
  match u with
  | Decimal.Nil => []
  | Decimal.D0 u' => digit_char 0 :: uint_chars u'
  | Decimal.D1 u' => digit_char 1 :: uint_chars u'
  | Decimal.D2 u' => digit_char 2 :: uint_chars u'
  | Decimal.D3 u' => digit_char 3 :: uint_chars u'
  | Decimal.D4 u' => digit_char 4 :: uint_chars u'
  | Decimal.D5 u' => digit_char 5 :: uint_chars u'
  | Decimal.D6 u' => digit_char 6 :: uint_chars u'
  | Decimal.D7 u' => digit_char 7 :: uint_chars u'
  | Decimal.D8 u' => digit_char 8 :: uint_chars u'
  | Decimal.D9 u' => digit_char 9 :: uint_chars u'
  end.

(** [String(n)] for a counter [n]: its decimal digits. *)
Definition String_of_number (n : N) : str := uint_chars (N.to_uint n).

(** ** Regular expressions

    The constructs the module's three regular expressions are made of.
    Every quantified atom of the module is a character class, so [Star] and
    [Plus] take a class. *)
Module Regex.

Inductive regex : Type :=
| Lit (s : str)                          (* a literal sequence *)
| Star (greedy : bool) (cls : N -> bool) (* [c*] and [c*?] *)
| Plus (greedy : bool) (cls : N -> bool) (* [c+] and [c+?] *)
| Seq (r1 r2 : regex)
| Group (i : nat) (r : regex)            (* the [i]-th capturing group *)
| Opt (r : regex).                       (* [r?], greedy *)

(** Captures: [caps !! i] is group [i+1]; [None] is [undefined]. *)
Abbreviation captures := (list (option str)).

Section Matcher.
Context {A : Type}.

Fixpoint lit_match (p s : str) (k : str -> option A) : option A :=
  match p with
  | [] => k s
  | c :: p' =>
    match s with
    | d :: s' => if c =? d then lit_match p' s' k else None
    | [] => None
    end
  end.

(** Greedy: the longest run first, then shorter ones. *)
Fixpoint star_greedy (cls : N -> bool) (k : str -> option A) (s : str)
  : option A :=
  match s with
  | c :: s' =>
    if cls c then
      match star_greedy cls k s' with
      | Some r => Some r
      | None => k s
      end
    else k s
  | [] => k []
  end.

(** Lazy: the shortest run first, then longer ones. *)
Fixpoint star_lazy (cls : N -> bool) (k : str -> option A) (s : str)
  : option A :=
  match k s with
  | Some r => Some r
  | None =>
    match s with
    | c :: s' => if cls c then star_lazy cls k s' else None
    | [] => None
    end
  end.

Definition star (greedy : bool) := if greedy then star_greedy else star_lazy.

Definition plus (greedy : bool) (cls : N -> bool) (k : str -> option A)
  (s : str) : option A :=
  match s with
  | c :: s' => if cls c then star greedy cls k s' else None
  | [] => None
  end.
End Matcher.

(** The backtracking matcher, in continuation-passing style: [run r s caps k]
    matches [r] at the head of [s] and hands what is left, with the captures,
    to [k]; when [k] fails the next alternative of [r] is tried. *)
Fixpoint run {A : Type} (r : regex) (s : str) (caps : captures)
  (k : str -> captures -> option A) : option A :=
  match r with
  | Lit p => lit_match p s (fun s' => k s' caps)
  | Star g cls => star g cls (fun s' => k s' caps) s
  | Plus g cls => plus g cls (fun s' => k s' caps) s
  | Seq r1 r2 => run r1 s caps (fun s' caps' => run r2 s' caps' k)
  | Group i r' =>
    run r' s caps (fun s' caps' =>
      k s' (<[i := Some (take (length s - length s') s)]> caps'))
  | Opt r' =>
    (* an iteration that consumes nothing is rejected (RepeatMatcher) *)
    match run r' s caps (fun s' caps' =>
            if (length s' =? length s)%nat then None else k s' caps') with
    | Some x => Some x
    | None => k s caps
    end
  end.

(** Anchored match: the length of the match at the head of [s]. *)
Definition match_length (r : regex) (s : str) : option nat :=
  run r s [] (fun s' _ => Some (length s - length s')%nat).

(** [RegExp.prototype.exec] without the global flag: the leftmost start at
    which the expression matches, with the captures of [n] groups. *)
Fixpoint exec_from (r : regex) (n : nat) (s : str) : option captures :=
  match run r s (replicate n None) (fun _ caps => Some caps) with
  | Some caps => Some caps
  | None =>
    match s with
    | _ :: s' => exec_from r n s'
    | [] => None
    end
  end.

End Regex.

(** ** [String.prototype.split] with a regular expression

    [matchAt rest] is the length of the separator's match when it is tried at
    the head of [rest] (SplitMatcher).  The loop is the one of the language
    definition: [piece] holds, reversed, the code units from the start [p] of
    the current piece to the position [q] of the head of [rest]; [skip]
    counts the code units of a matched separator still to step over. *)
Section Split.
Variable matchAt : str -> option nat.

Fixpoint split_loop (skip : nat) (piece : str) (rest : str) : list str :=
  match rest with
  | [] => [rev piece]
  | c :: rest' =>
    match skip with
    | S k => split_loop k piece rest'
    | O =>
      match matchAt rest with
      | None => split_loop O (c :: piece) rest'
      | Some O =>
        (* an empty match: at [q = p] it is skipped; at [q > p] the piece
           is pushed and the next round skips it *)
        match piece with
        | [] => split_loop O [c] rest'
        | _ => rev piece :: split_loop O [c] rest'
        end
      | Some (S k) => rev piece :: split_loop k [] rest'
      end
    end
  end.

Definition split (s : str) : list str :=
  match s with
  | [] => match matchAt [] with Some _ => [] | None => [[]] end
  | _ => split_loop O [] s
  end.
End Split.

(** [/\s+/] *)
Definition RE_SPACES : Regex.regex := Regex.Plus true is_space.

(** [/\s*,\s*/] *)
Definition RE_COMMA : Regex.regex :=
  Regex.Seq (Regex.Star true is_space)
    (Regex.Seq (Regex.Lit (lit ",")) (Regex.Star true is_space)).

(** [/\s*:\s*/] *)
Definition RE_COLON : Regex.regex :=
  Regex.Seq (Regex.Star true is_space)
    (Regex.Seq (Regex.Lit (lit ":")) (Regex.Star true is_space)).

Definition split_re (r : Regex.regex) : str -> list str :=
  split (Regex.match_length r).

(** ** Attribute grammar *)

(** [!attr]: [null] and the empty string are falsy. *)
Definition falsy (attr : option str) : bool :=
  match attr with
  | None => true
  | Some [] => true
  | Some _ => false
  end.

Definition parsePartAttribute (attr : option str) : list str :=
  match attr with
  | None => []
  | Some [] => []
  | Some s => split_re RE_SPACES (trim s)
  end.

Record exportPart : Type := ExportPart { inner : str; outer : str }.

(** The body of the loop of [parseExportPartsAttribute] for one token. *)
Definition exportPartOfToken (part : str) : list exportPart :=
  match split_re RE_COLON part with
  | [x] => [ExportPart x x]
  | [x; y] => [ExportPart x y]
  | _ => []
  end.

Definition parseExportPartsAttribute (attr : option str) : list exportPart :=
  match attr with
  | None => []
  | Some [] => []
  | Some s => flat_map exportPartOfToken (split_re RE_COMMA s)
  end.

(** ** Selectors *)

(** The expression [PART_REGEX] of the module: a lazy run of [.] (group 1),
    then [[a-z]+-\w+] (group 2), a lazy run of [[^\s]] (group 3), the literal
    [::part], an opening parenthesis, an optional greedy run of [.] (group 4)
    and a closing parenthesis. *)
Definition PART_REGEX : Regex.regex :=
  Regex.Seq (Regex.Group 0 (Regex.Star false is_dot))
  (Regex.Seq (Regex.Group 1
     (Regex.Seq (Regex.Plus true is_lower)
        (Regex.Seq (Regex.Lit (lit "-")) (Regex.Plus true is_word))))
  (Regex.Seq (Regex.Group 2 (Regex.Star false is_nonspace))
  (Regex.Seq (Regex.Lit (lit "::part("))
  (Regex.Seq (Regex.Opt (Regex.Group 3 (Regex.Star true is_dot)))
     (Regex.Lit (lit ")")))))).

(** The object [parsePartSelector] returns.  [partList] is [undefined]
    ([None]) when the fourth group did not take part in the match. *)
Record partSelector : Type := PartSelector {
  pre : str;
  ce : str;
  post : str;
  partList : option str
}.

Definition parsePartSelector (selector : str) : option partSelector :=
  match Regex.exec_from PART_REGEX 4 selector with
  | Some [Some pre; Some ce; Some post; partList] =>
    Some (PartSelector pre ce post partList)
  | _ => None
  end.

Definition formatPartSpecifier (partName scope hostScope : str) : str :=
  hostScope ++ lit "_" ++ scope ++ lit "_" ++ partName.

Definition formatPartSelector (parts scope hostScope : str) : str :=
  join []
    (map (fun part =>
            lit "[shady-part~=" ++ formatPartSpecifier part scope hostScope
            ++ lit "]")
       (parsePartAttribute (Some parts))).

(** ** The DOM

    An element carries its local name, its attributes, its light-DOM children
    and, when it is a shadow host, the children of its shadow root.  Nodes
    that are not elements play no role in the module and are left out. *)
Inductive node : Type :=
| Element (localName : str) (attributes : gmap str str)
    (childNodes : list node) (shadowRoot : option (list node)).

Definition node_localName (n : node) : str :=
  match n with Element l _ _ _ => l end.
Definition node_attributes (n : node) : gmap str str :=
  match n with Element _ a _ _ => a end.
Definition node_childNodes (n : node) : list node :=
  match n with Element _ _ c _ => c end.
Definition node_shadowRoot (n : node) : option (list node) :=
  match n with Element _ _ _ s => s end.

Definition with_attributes (f : gmap str str -> gmap str str) (n : node)
  : node :=
  match n with Element l a c s => Element l (f a) c s end.

(** A tree is either the one of the global [document] or a tree that is not
    connected to it, whose root is then its topmost element. *)
Inductive DOM : Type :=
| Document (childNodes : list node)
| Detached (top : node).

(** The position of an element below a root node: the index of a child of
    the root, then indices of light-DOM children. *)
Abbreviation path := (nat * list nat)%type.

(** An element is named by its position in its own tree scope and, inside a
    shadow tree, by the host of that shadow tree.  The topmost element of a
    detached tree is [InRoot (0, [])]. *)
Inductive ref : Type :=
| InRoot (p : path)
| InShadow (host : ref) (p : path).

#[global] Instance ref_eq_dec : EqDecision ref.
Proof. solve_decision. Defined.

(** One step down the tree: to a light-DOM child, or to a child of the
    shadow root. *)
Inductive step : Type :=
| Light (i : nat)
| Shadow (i : nat).

#[global] Instance step_eq_dec : EqDecision step.
Proof. solve_decision. Defined.

Definition steps_of_path (first : nat -> step) (p : path) : list step :=
  first p.1 :: map Light p.2.

(** The steps from the root node of the tree to the element. *)
Fixpoint steps (r : ref) : list step :=
  match r with
  | InRoot p => steps_of_path Light p
  | InShadow host p => steps host ++ steps_of_path Shadow p
  end.

Fixpoint descend (n : node) (q : list step) : option node :=
  match q with
  | [] => Some n
  | Light i :: q' =>
    match node_childNodes n !! i with
    | Some c => descend c q'
    | None => None
    end
  | Shadow i :: q' =>
    match node_shadowRoot n with
    | Some sh =>
      match sh !! i with
      | Some c => descend c q'
      | None => None
      end
    | None => None
    end
  end.

(** [alter_at f q n] applies [f] to the node [q] leads to from [n]. *)
Fixpoint alter_at (f : node -> node) (q : list step) (n : node) : node :=
  match q with
  | [] => f n
  | Light i :: q' =>
    match n with
    | Element l a c s => Element l a (alter (alter_at f q') i c) s
    end
  | Shadow i :: q' =>
    match n with
    | Element l a c s => Element l a c (alter (alter_at f q') i <$> s)
    end
  end.

(** The root node seen as the parent of the topmost elements. *)
Definition root_node (d : DOM) : node :=
  match d with
  | Document c => Element [] ∅ c None
  | Detached t => Element [] ∅ [t] None
  end.

Definition with_root_node (d : DOM) (n : node) : DOM :=
  match d with
  | Document _ => Document (node_childNodes n)
  | Detached t => Detached (hd t (node_childNodes n))
  end.

Definition get (d : DOM) (r : ref) : option node :=
  descend (root_node d) (steps r).

Definition alter_element (f : node -> node) (r : ref) (d : DOM) : DOM :=
  with_root_node d (alter_at f (steps r) (root_node d)).

(** *** DOM primitives

    An address that names no element of the tree reads as an element without
    name, attributes or shadow root, and writing to it changes nothing; the
    module is only ever handed elements of the tree. *)

Definition localName (d : DOM) (r : ref) : str :=
  from_option node_localName [] (get d r).

Definition getAttribute (d : DOM) (r : ref) (name : str) : option str :=
  get d r ≫= fun n => node_attributes n !! name.

Definition setAttribute (r : ref) (name value : str) (d : DOM) : DOM :=
  alter_element (with_attributes <[name := value]>) r d.

Definition removeAttribute (r : ref) (name : str) (d : DOM) : DOM :=
  alter_element (with_attributes (delete name)) r d.

(** [element.shadowRoot] *)
Definition shadowRoot (d : DOM) (r : ref) : option (list node) :=
  get d r ≫= node_shadowRoot.

(** What [getRootNode] returns. *)
Inductive rootNode : Type :=
| RootDocument                (* the global [document] *)
| RootElement (top : ref)     (* the topmost element of a detached tree *)
| RootShadow (host : ref).    (* the shadow root of [host] *)

Definition getRootNode (d : DOM) (r : ref) : rootNode :=
  match r with
  | InRoot _ =>
    match d with
    | Document _ => RootDocument
    | Detached _ => RootElement (InRoot (0%nat, []))
    end
  | InShadow host _ => RootShadow host
  end.

(** [root.host]: only a shadow root has one. *)
Definition root_host (root : rootNode) : option ref :=
  match root with
  | RootShadow host => Some host
  | _ => None
  end.

(** The elements of a subtree in tree order, each with its position. *)
Section TreeOrder.
Variable below : node -> list (list nat * node).

Fixpoint number_from (i : nat) (l : list node) : list (path * node) :=
  match l with
  | [] => []
  | c :: l' =>
    map (fun qn : list nat * node => ((i, qn.1), qn.2)) (below c)
    ++ number_from (S i) l'
  end.
End TreeOrder.

(** [n] itself, at the empty position, then its light-DOM descendants. *)
Fixpoint elements_in (n : node) : list (list nat * node) :=
  match n with
  | Element _ _ c _ =>
    ([], n)
    :: map (fun pn : path * node => (pn.1.1 :: pn.1.2, pn.2))
         (number_from elements_in 0 c)
  end.

(** The elements below a root node whose children are [l]. *)
Definition elements_below (l : list node) : list (path * node) :=
  number_from elements_in 0 l.

Definition hasAttribute (name : str) (n : node) : bool :=
  bool_decide (is_Some (node_attributes n !! name)).

(** [host.shadowRoot.querySelectorAll('[name]')] on a shadow root whose
    children are [sh]: the elements of the shadow tree that carry the
    attribute, in tree order. *)
Definition querySelectorAll_attr (host : ref) (sh : list node) (name : str)
  : list ref :=
  map (fun pn : path * node => InShadow host pn.1)
    (filter (fun pn : path * node => hasAttribute name pn.2)
       (elements_below sh)).

(** ** Completions

    A call either returns or throws; the only exception the module can raise
    is the [TypeError] of reading a property of [undefined] or [null]. *)
Inductive error : Type := TypeError.

Inductive completion (A : Type) : Type :=
| Normal (a : A)
| Throw (e : error).
Arguments Normal {A} a.
Arguments Throw {A} e.

(** ** Specifiers on elements *)

Definition SHADY_PART : str := lit "shady-part".

Definition addPartSpecifier (element : ref) (specifier : str) (d : DOM)
  : DOM :=
  match getAttribute d element SHADY_PART with
  | None => setAttribute element SHADY_PART specifier d
  | Some existing =>
    setAttribute element SHADY_PART (existing ++ lit " " ++ specifier) d
  end.

Definition removeAllPartSpecifiers (element : ref) (d : DOM) : DOM :=
  removeAttribute element SHADY_PART d.

(** [undefined] is [None]. *)
Definition scopeForRoot (d : DOM) (root : rootNode) : option str :=
  match root with
  | RootDocument => Some (lit "document")
  | RootShadow host => Some (localName d host)
  | RootElement _ => None
  end.

(** ** Export-parts resolver *)

Record partData : Type := PartData {
  hostScope : str;
  scope : str;
  partName : str
}.

(** The export map is a plain object.  What [map[name]] reads is an own
    property, or a property inherited from [Object.prototype] (a function,
    or the prototype itself for [__proto__]), or [undefined].  The own
    properties are the finite map; the inherited names are those of
    [Object.prototype] in ECMAScript, Annex B included. *)
Definition Object_prototype : list str :=
  map lit
    ["constructor"; "__defineGetter__"; "__defineSetter__"; "hasOwnProperty";
     "__lookupGetter__"; "__lookupSetter__"; "isPrototypeOf";
     "propertyIsEnumerable"; "toString"; "valueOf"; "__proto__";
     "toLocaleString"]%string.

Definition inherited (name : str) : bool :=
  existsb (fun n => bool_decide (n = name)) Object_prototype.

Inductive property (A : Type) : Type :=
| Undefined
| Own (a : A)
| Inherited.
Arguments Undefined {A}.
Arguments Own {A} a.
Arguments Inherited {A}.

Definition object_get {A : Type} (o : gmap str A) (name : str) : property A :=
  match o !! name with
  | Some a => Own a
  | None => if inherited name then Inherited else Undefined
  end.

(** The body of the loop over the parsed [exportparts] attribute.  An
    inherited value of [map[inner]] has no [push], and an inherited value of
    [superExports[outer]] cannot be iterated: both throw. *)
Definition exportPartsStep (hostScope scope : str)
  (superExports : gmap str (list partData))
  (map : gmap str (list partData)) (e : exportPart)
  : completion (gmap str (list partData)) :=
  match object_get map (inner e) with
  | Inherited => Throw TypeError
  | got =>
    let arr := match got with Own arr => arr | _ => [] end in
    let arr := arr ++ [PartData hostScope scope (outer e)] in
    match object_get superExports (outer e) with
    | Inherited => Throw TypeError
    | Own superParts => Normal (<[inner e := arr ++ superParts]> map)
    | Undefined => Normal (<[inner e := arr]> map)
    end
  end.

(** The loop itself; an exception ends it. *)
Fixpoint exportPartsLoop (hostScope scope : str)
  (superExports : gmap str (list partData)) (pairs : list exportPart)
  (map : gmap str (list partData))
  : completion (gmap str (list partData)) :=
  match pairs with
  | [] => Normal map
  | e :: pairs' =>
    match exportPartsStep hostScope scope superExports map e with
    | Throw x => Throw x
    | Normal map' =>
      exportPartsLoop hostScope scope superExports pairs' map'
    end
  end.

(** The super host is the host of the shadow root [host] lives in, so the
    recursion follows the address of [host].  When the root of [host] is
    neither the document nor a shadow root, [root.host] is [undefined] and
    reading its [localName] throws. *)
Fixpoint getExportPartsMap (d : DOM) (host : ref)
  : completion (gmap str (list partData)) :=
  match getAttribute d host (lit "exportparts") with
  | None => Normal ∅
  | Some attr =>
    match getRootNode d host, host with
    | RootDocument, _ => Normal ∅
    | _, InRoot _ => Throw TypeError
    | _, InShadow superHost _ =>
      let scope := localName d superHost in
      let superRoot := getRootNode d superHost in
      match scopeForRoot d superRoot with
      | None => Normal ∅
      | Some hostScope =>
        match getExportPartsMap d superHost with
        | Throw e => Throw e
        | Normal superExports =>
          exportPartsLoop hostScope scope superExports
            (parseExportPartsAttribute (Some attr)) ∅
        end
      end
    end
  end.

(** ** Style rules and the module's registries *)

(** A rule of a parsed style sheet, as far as the module reads it. *)
Record rule : Type := Rule { selector : str; cssText : str }.

(** The resolved custom properties of a scope. *)
Abbreviation properties := (gmap str str).

Record styleInfo : Type := StyleInfo {
  styleProperties : properties;
  ownStylePropertyNames : list str
}.

(** Modelled from the spec: the fingerprinted cache of [style-cache.js],
    which is not among the sources.  An entry is stored under a key with the
    custom-property values of the scope and holds the id; a lookup hits the
    most recent entry under the key whose stored values agree with the live
    values on every property name visible to the scope.  Entries are never
    invalidated. *)
Record cacheEntry : Type := CacheEntry {
  entry_properties : properties;
  scopeSelector : str
}.

Definition validate (props : properties) (ownPropertyNames : list str)
  (e : cacheEntry) : bool :=
  forallb (fun pn => bool_decide (entry_properties e !! pn = props !! pn))
    ownPropertyNames.

Definition cache_fetch (c : gmap str (list cacheEntry)) (key : str)
  (props : properties) (ownPropertyNames : list str) : option cacheEntry :=
  match c !! key with
  | None => None
  | Some entries => find (validate props ownPropertyNames) entries
  end.

Definition cache_store (c : gmap str (list cacheEntry)) (key : str)
  (props : properties) (id : str) : gmap str (list cacheEntry) :=
  <[key := CacheEntry props id :: default [] (c !! key)]> c.

(** The state the module reads and writes: the tree, the rule objects of the
    prepared style sheets (a rule object is named by its index, so that a
    rule registered under two keys is one object), the module-level
    [partRuleCustomProperties], [partCache] and [partNumber], the style text
    handed to [applyCss] and the rules written to the console. *)
Record state : Type := State {
  tree : DOM;
  ruleObjects : list rule;
  partRuleCustomProperties : gmap str (list nat);
  partCache : gmap str (list cacheEntry);
  partNumber : N;
  appliedCss : list str;
  console : list rule
}.

Definition with_tree (f : DOM -> DOM) (st : state) : state :=
  State (f (tree st)) (ruleObjects st) (partRuleCustomProperties st)
    (partCache st) (partNumber st) (appliedCss st) (console st).

(** The module as first loaded, over a given tree and rule objects. *)
Definition initial (d : DOM) (rules : list rule) : state :=
  State d rules ∅ ∅ 0 [] [].

(** A computation on the state that returns or throws. *)
Definition M (A : Type) : Type := state -> completion A * state.

Definition ret {A : Type} (a : A) : M A := fun st => (Normal a, st).

Definition bind {A B : Type} (m : M A) (k : A -> M B) : M B :=
  fun st =>
    match m st with
    | (Normal a, st') => k a st'
    | (Throw e, st') => (Throw e, st')
    end.

Notation "'let*' x ':=' m 'in' k" := (bind m (fun x => k))
  (at level 10, x name, m at level 100, k at level 200).
Notation "m ';;' k" := (bind m (fun _ => k))
  (at level 100, k at level 200, right associativity).

Definition throw {A : Type} (e : error) : M A := fun st => (Throw e, st).

Definition lift {A : Type} (c : completion A) : M A := fun st => (c, st).

(** Reading and updating the tree. *)
Definition read {A : Type} (f : DOM -> A) : M A :=
  fun st => (Normal (f (tree st)), st).

Definition update (f : DOM -> DOM) : M unit :=
  fun st => (Normal tt, with_tree f st).

(** [for (const x of l) body]. *)
Fixpoint for_of {A : Type} (l : list A) (body : A -> M unit) : M unit :=
  match l with
  | [] => ret tt
  | x :: l' => body x ;; for_of l' body
  end.

(** [String.prototype.includes] *)
Fixpoint starts_with (p s : str) : bool :=
  match p, s with
  | [], _ => true
  | c :: p', d :: s' => (c =? d) && starts_with p' s'
  | _ :: _, [] => false
  end.

Fixpoint includes (p s : str) : bool :=
  starts_with p s ||
  match s with
  | [] => false
  | _ :: s' => includes p s'
  end.

(** [s.replace(c, by)] for a one-character pattern [c] and a replacement
    without [$]: the first occurrence is replaced. *)
Fixpoint replace_first (c : N) (by_ : str) (s : str) : str :=
  match s with
  | [] => []
  | x :: s' => if x =? c then by_ ++ s' else x :: replace_first c by_ s'
  end.

(** ** The module over its collaborators

    The custom-property engine is outside the module.  What the module needs
    from it is taken as given: the names of the custom properties a
    declaration block consumes, the style information of a host, and the
    rule [applyProperties] leaves behind when it rewrites a rule object in
    place. *)
Section Module.
Variable collectPropertiesInCssText : str -> list str.
Variable StyleInfo_get : ref -> styleInfo.
Variable applyProperties : rule -> properties -> rule.

(** One turn of the loop of [prepareTemplate] over [styleAst.rules]; a
    rule object is given by its index among [ruleObjects]. *)
Definition prepareRule (elementName : str) (id : nat) : M unit :=
  fun st =>
    match ruleObjects st !! id with
    | None => (Normal tt, st)
    | Some rule =>
      if includes (lit "::part") (selector rule) then
        let consumedProperties :=
          collectPropertiesInCssText (cssText rule) in
        if (0 <? length consumedProperties)%nat then
          match parsePartSelector (selector rule) with
          | None => (Throw TypeError, st) (* destructuring [null] *)
          | Some parsed =>
            (* [join] writes [undefined] as the empty string *)
            let key :=
              join (lit ":")
                [elementName; ce parsed; default [] (partList parsed)] in
            let rules :=
              default [] (partRuleCustomProperties st !! key) in
            (Normal tt,
             State (tree st) (ruleObjects st)
               (<[key := rules ++ [id]]> (partRuleCustomProperties st))
               (partCache st) (partNumber st) (appliedCss st)
               (console st))
          end
        else (Normal tt, st)
      else (Normal tt, st)
    end.

Definition prepareTemplate (elementName : str) (styleAst : list nat)
  : M unit :=
  for_of styleAst (prepareRule elementName).

Definition customPropertyRulesForPart (st : state)
  (parentScope childScope partName : str) : list nat :=
  let key := join (lit ":") [parentScope; childScope; partName] in
  default [] (partRuleCustomProperties st !! key).

Definition getPartId (partName parentScope childScope : str)
  (styleInfo : styleInfo) : M str :=
  fun st =>
    let key := partName ++ lit ":" ++ parentScope ++ lit ":" ++ childScope in
    match cache_fetch (partCache st) key (styleProperties styleInfo)
            (ownStylePropertyNames styleInfo) with
    | Some entry => (Normal (scopeSelector entry), st)
    | None =>
      let id := String_of_number (partNumber st) in
      (Normal id,
       State (tree st) (ruleObjects st) (partRuleCustomProperties st)
         (cache_store (partCache st) key (styleProperties styleInfo) id)
         (partNumber st + 1) (appliedCss st) (console st))
    end.

(** The body of the loop over the custom-property rules of a part. *)
Definition styleRule (styleInfo : styleInfo) (partId : str) (id : nat)
  : M unit :=
  fun st =>
    match ruleObjects st !! id with
    | None => (Normal tt, st)
    | Some rule0 =>
      let rule := applyProperties rule0 (styleProperties styleInfo) in
      let s :=
        replace_first 93 (lit "_" ++ partId ++ lit "]") (selector rule) in
      let css := s ++ lit " { " ++ cssText rule ++ lit " }" in
      (Normal tt,
       State (tree st) (<[id := rule]> (ruleObjects st))
         (partRuleCustomProperties st) (partCache st) (partNumber st)
         (appliedCss st ++ [css]) (console st ++ [rule]))
    end.

(** The specifiers a part name forwards to.  For a part name inherited from
    [Object.prototype] the value read from the export map is not
    [undefined], and the loop over it throws. *)
Definition addExportedSpecifiers (element : ref)
  (exportPartsMap : gmap str (list partData)) (partName : str) : M unit :=
  match object_get exportPartsMap partName with
  | Undefined => ret tt
  | Inherited => throw TypeError
  | Own exportParts =>
    for_of exportParts (fun e =>
      match e with
      | PartData hostScope scope partName =>
        update (addPartSpecifier element
                  (formatPartSpecifier partName scope hostScope))
      end)
  end.

(** The body of the loop over the part names of a part node. *)
Definition scopePartName (host partNode : ref) (hostScope scope : str)
  (exportPartsMap : gmap str (list partData)) (partName : str) : M unit :=
  fun st =>
    let customPropertyRules :=
      customPropertyRulesForPart st hostScope scope partName in
    ((if (0 <? length customPropertyRules)%nat then
        let styleInfo := StyleInfo_get host in
        let* partId := getPartId partName hostScope scope styleInfo in
        for_of customPropertyRules (styleRule styleInfo partId) ;;
        update (addPartSpecifier partNode
                  (formatPartSpecifier (partName ++ lit "_" ++ partId)
                     scope hostScope))
      else
        update (addPartSpecifier partNode
                  (formatPartSpecifier partName scope hostScope))) ;;
     addExportedSpecifiers partNode exportPartsMap partName) st.

(** The body of the loop over the part nodes. *)
Definition scopePartNode (host : ref) (hostScope scope : str)
  (exportPartsMap : gmap str (list partData)) (partNode : ref) : M unit :=
  update (removeAllPartSpecifiers partNode) ;;
  let* partAttr := read (fun d => getAttribute d partNode (lit "part")) in
  for_of (parsePartAttribute partAttr)
    (scopePartName host partNode hostScope scope exportPartsMap).

Definition scopeAllHostParts (host : ref) : M unit :=
  fun st =>
    match shadowRoot (tree st) host with
    | None => (Normal tt, st)
    | Some sh =>
      let partNodes := querySelectorAll_attr host sh (lit "part") in
      if (length partNodes =? 0)%nat then (Normal tt, st)
      else
        let root := getRootNode (tree st) host in
        match scopeForRoot (tree st) root with
        | None => (Normal tt, st)
        | Some hostScope =>
          let scope := localName (tree st) host in
          (let* exportPartsMap := lift (getExportPartsMap (tree st) host) in
           for_of partNodes
             (scopePartNode host hostScope scope exportPartsMap)) st
        end
    end.

(** The body of the loop of [addPartSpecifiersToElement]. *)
Definition addSpecifiersFor (element : ref) (scope superScope : str)
  (exportPartsMap : gmap str (list partData)) (partName : str) : M unit :=
  update (addPartSpecifier element
            (formatPartSpecifier partName scope superScope)) ;;
  addExportedSpecifiers element exportPartsMap partName.

Definition addPartSpecifiersToElement (element : ref)
  (partNames : list str) : M unit :=
  fun st =>
    let d := tree st in
    match getRootNode d element with
    | RootDocument => (Normal tt, st)
    | RootElement top =>
      if bool_decide (top = element) then (Normal tt, st)
      else (Throw TypeError, st)   (* [root.host] is [undefined] *)
    | RootShadow host =>
      let scope := localName d host in
      let superRoot := getRootNode d host in
      let superScope :=
        match superRoot with
        | RootDocument => Normal (lit "document")
        | RootShadow superHost => Normal (localName d superHost)
        | RootElement _ => Throw TypeError (* [superRoot.host.localName] *)
        end in
      (let* superScope := lift superScope in
       let* exportPartsMap := lift (getExportPartsMap d host) in
       for_of partNames
         (addSpecifiersFor element scope superScope exportPartsMap)) st
    end.

Definition onPartAttributeChanged (element : ref)
  (oldValue newValue : option str) : M unit :=
  if falsy newValue then update (removeAllPartSpecifiers element)
  else addPartSpecifiersToElement element (parsePartAttribute newValue).

(** A loop whose body may fail to finish: [None] is a run that did not
    finish, and an exception ends the loop. *)
Fixpoint for_of_bounded (body : ref -> state -> option (completion unit * state))
  (l : list ref) (st : state) : option (completion unit * state) :=
  match l with
  | [] => Some (Normal tt, st)
  | x :: l' =>
    match body x st with
    | None => None
    | Some (Throw e, st') => Some (Throw e, st')
    | Some (Normal _, st') => for_of_bounded body l' st'
    end
  end.

(** [rescopeRecursive] calls itself on the elements with an [exportparts]
    attribute in the shadow tree of the element, and so on downwards.
    [fuel] bounds the depth of these calls; [None] is a run that did not
    finish within the bound. *)
Fixpoint rescopeRecursive (fuel : nat) (element : ref) (st : state)
  : option (completion unit * state) :=
  match fuel with
  | O => None
  | S fuel' =>
    match shadowRoot (tree st) element with
    | None => Some (Normal tt, st)
    | Some _ =>
      match scopeAllHostParts element st with
      | (Throw e, st1) => Some (Throw e, st1)
      | (Normal _, st1) =>
        let exports :=
          match shadowRoot (tree st1) element with
          | Some sh => querySelectorAll_attr element sh (lit "exportparts")
          | None => []
          end in
        for_of_bounded (rescopeRecursive fuel') exports st1
      end
    end
  end.

Definition onInsertBefore (fuel : nat) (parentNode newNode : ref)
  (referenceNode : option ref) (st : state)
  : option (completion unit * state) :=
  match root_host (getRootNode (tree st) newNode) with
  | Some host => rescopeRecursive fuel host st
  | None => Some (Normal tt, st)
  end.

Definition onExportPartsAttributeChanged (fuel : nat) (element : ref)
  (oldValue newValue : option str) (st : state)
  : option (completion unit * state) :=
  rescopeRecursive fuel element st.
End Module.

(** The height of a subtree, counting light-DOM children and children of
    shadow roots alike. *)
Fixpoint height (n : node) : nat :=
  match n with
  | Element _ _ c s =>
    S (Nat.max (list_max (map height c))
         (match s with
          | Some sh => list_max (map height sh)
          | None => 0%nat
          end))
  end.

Definition tree_height (d : DOM) : nat := height (root_node d).

(** ** Reference definitions for the attribute grammar

    What the specification's words describe, written without regular
    expressions, to compare the parsers with. *)

(** The maximal runs of code units that are not white space. *)
Fixpoint words_from (cur : str) (s : str) : list str :=
  match s with
  | [] => match cur with [] => [] | _ => [rev cur] end
  | c :: s' =>
    if is_space c then
      match cur with
      | [] => words_from [] s'
      | _ => rev cur :: words_from [] s'
      end
    else words_from (c :: cur) s'
  end.

Definition words (s : str) : list str := words_from [] s.

(** The fields between the occurrences of one code unit. *)
Fixpoint fields_from (c : N) (cur : str) (s : str) : list str :=
  match s with
  | [] => [rev cur]
  | x :: s' =>
    if x =? c then rev cur :: fields_from c [] s'
    else fields_from c (x :: cur) s'
  end.

Definition fields (c : N) (s : str) : list str := fields_from c [] s.

(** How often a code unit occurs. *)
Definition count_char (c : N) (s : str) : nat := count_occ N.eq_dec s c.

(** A string with its white space deleted. *)
Fixpoint squash (s : str) : str :=
  match s with
  | [] => []
  | c :: s' => if is_space c then squash s' else c :: squash s'
  end.

(** ** The worked example of the module's header

    [#document > x-a > #shadow-root > (div part=a1, x-b exportparts=...)],
    and so on down to [x-c]. *)
Module Example.

Definition element (name : string) (attrs : list (string * string))
  (children : list node) (shadow : option (list node)) : node :=
  Element (lit name)
    (list_to_map (map (fun kv : string * string => (lit kv.1, lit kv.2)) attrs))
    children shadow.

Definition document : DOM :=
  Document
    [element "x-a" [] []
       (Some
          [element "div" [("part", "a1")] [] None;
           element "x-b" [("exportparts", "b1:a2,b2:a3")] []
             (Some
                [element "div" [("part", "b1")] [] None;
                 element "x-c" [("exportparts", "c1:b2")] []
                   (Some [element "div" [("part", "c1")] [] None])])])]%string.

Definition x_a : ref := InRoot (0%nat, []).
Definition a1 : ref := InShadow x_a (0%nat, []).
Definition x_b : ref := InShadow x_a (1%nat, []).
Definition b1 : ref := InShadow x_b (0%nat, []).
Definition x_c : ref := InShadow x_b (1%nat, []).
Definition c1 : ref := InShadow x_c (0%nat, []).

(** A host without custom properties, and a cascade that leaves rules as
    they are. *)
Definition no_styleInfo (host : ref) : styleInfo := StyleInfo ∅ [].
Definition keep_rule (r : rule) (props : properties) : rule := r.
Definition no_properties (cssText : str) : list str := [].

(** The three hosts scoped bottom-up, from the module as first loaded. *)
Definition scoped_bottom_up (StyleInfo_get : ref -> styleInfo)
  (applyProperties : rule -> properties -> rule) : completion unit * state :=
  (scopeAllHostParts StyleInfo_get applyProperties x_c ;;
   scopeAllHostParts StyleInfo_get applyProperties x_b ;;
   scopeAllHostParts StyleInfo_get applyProperties x_a)
    (initial document []).

End Example.

(** A host that is not connected to the document: [x-a] with a part in its
    shadow tree that already carries a specifier, and below it [x-b] with an
    [exportparts] attribute. *)
Module Loose.

Definition tree : DOM :=
  Detached
    (Example.element "x-a" [] []
       (Some
          [Example.element "div" [("part", "p"); ("shady-part", "old")] []
             None;
           Example.element "x-b" [("exportparts", "p")] []
             (Some [Example.element "div" [("part", "p")] [] None])]))%string.

Definition x_a : ref := InRoot (0%nat, []).
Definition p : ref := InShadow x_a (0%nat, []).
Definition x_b : ref := InShadow x_a (1%nat, []).

End Loose.

(** A host in the document whose shadow tree holds three parts, the second
    one named [constructor], and the host [x-b] that exports a part under
    the name [toString]. *)
Module Proto.

Definition tree : DOM :=
  Document
    [Example.element "x-a" [] []
       (Some
          [Example.element "div" [("part", "ok")] [] None;
           Example.element "div" [("part", "constructor")] [] None;
           Example.element "div" [("part", "late")] [] None;
           Example.element "x-b" [("exportparts", "p:toString")] []
             (Some [Example.element "div" [("part", "p")] [] None])])]%string.

Definition x_a : ref := InRoot (0%nat, []).
Definition ok : ref := InShadow x_a (0%nat, []).
Definition ctor : ref := InShadow x_a (1%nat, []).
Definition late : ref := InShadow x_a (2%nat, []).
Definition x_b : ref := InShadow x_a (3%nat, []).
Definition p : ref := InShadow x_b (0%nat, []).

End Proto.

Definition EXPORTPARTS : str := lit "exportparts".

(** What an [exportparts] pair contributes to the entry of its inner name:
    the outer name in the scope of the super host, then what the super host
    forwards that outer name to. *)
Definition forwarded (hostScope scope : str)
  (superExports : gmap str (list partData)) (e : exportPart)
  : list partData :=
  PartData hostScope scope (outer e) :: default [] (superExports !! outer e).


(** The map after one more pair, when neither of its names is inherited. *)
Definition export_pair (hostScope scope : str)
  (superExports : gmap str (list partData))
  (m : gmap str (list partData)) (e : exportPart)
  : gmap str (list partData) :=
  <[inner e := default [] (m !! inner e)
               ++ forwarded hostScope scope superExports e]> m.

(** An [exportparts] attribute that declares, as inner or as outer name, a
    name every object inherits. *)
Definition declares_inherited (pairs : list exportPart) : bool :=
  existsb (fun e => inherited (inner e) || inherited (outer e)) pairs.

(** No own property of the object has an inherited name. *)
Definition own_names_only {A : Type} (o : gmap str A) : Prop :=
  forall name, inherited name = true -> o !! name = None.

(** ** Calls of [getPartId] *)







(** Style rules to prepare: one whose selector names no custom element,
    one for the part [a1] of [x-a]; both consume the custom property
    [--c]. *)
Module Rules.

Definition bare : rule := Rule (lit "::part(foo)") (lit "color: var(--c)").
Definition a1 : rule := Rule (lit "x-a::part(a1)") (lit "color: var(--c)").
Definition consumes_c (cssText : str) : list str := [lit "--c"].

End Rules.

(** Calls for the part [a1] of [x-a] in the document, with the custom
    property [--c] resolved to [red] and to [blue]; with [--d] resolved and
    visible as well; with [--c] resolved to [blue] and no property visible;
    and a call for the part [a2]. *)
Module Calls.


End Calls.

(** The specifiers an element carries: the words of its [shady-part]
    attribute. *)
Definition specifiers (d : DOM) (element : ref) : list str :=
  match getAttribute d element SHADY_PART with
  | None => []
  | Some v => words v
  end.

(** ** The tree up to specifiers

    [erase] deletes the [shady-part] attribute of every element of a subtree:
    what is left is all the module reads from the tree apart from the
    specifiers themselves. *)
Fixpoint erase (n : node) : node :=
  match n with
  | Element l a c s =>
    Element l (delete SHADY_PART a) (map erase c) (option_map (map erase) s)
  end.

Definition eraseDOM (d : DOM) : DOM :=
  match d with
  | Document c => Document (map erase c)
  | Detached t => Detached (erase t)
  end.

(** ** What the tree scoper writes

    The specifiers of a part node, given the id [ids name] that
    [getPartId] answers for each part name: a description of the loop of
    [scopeAllHostParts] as a function of the tree alone. *)
Definition PART : str := lit "part".

Section Specifiers.
Variable si : styleInfo.
Variable hostScope' scope' : str.
Variable registry : gmap str (list nat).
Variable exportPartsMap : gmap str (list partData).

(** The key of a part name in the cache, and the id a cache holds for it
    under the fingerprint of [si]. *)
Definition part_key (name : str) : str :=
  name ++ lit ":" ++ hostScope' ++ lit ":" ++ scope'.

Definition answer (cache : gmap str (list cacheEntry)) (name : str)
  : option str :=
  scopeSelector
  <$> cache_fetch cache (part_key name) (styleProperties si)
        (ownStylePropertyNames si).

Definition has_rules (name : str) : bool :=
  (0 <? length (default []
                  (registry !! join (lit ":") [hostScope'; scope'; name])))%nat.

Definition own_specifier (ids : str -> str) (name : str) : str :=
  if has_rules name
  then formatPartSpecifier (name ++ lit "_" ++ ids name) scope' hostScope'
  else formatPartSpecifier name scope' hostScope'.

Definition exported_specifiers (name : str) : list str :=
  map (fun e : partData =>
         formatPartSpecifier (partName e) (scope e) (hostScope e))
    (default [] (exportPartsMap !! name)).

Definition specifiers_of_name (ids : str -> str) (name : str) : list str :=
  own_specifier ids name :: exported_specifiers name.

Definition specifiers_of_part (ids : str -> str) (partAttr : option str)
  : list str :=
  flat_map (specifiers_of_name ids) (parsePartAttribute partAttr).

(** A part name at which the loop over the export map throws. *)
Definition throws_at (name : str) : bool :=
  match object_get exportPartsMap name with
  | Inherited => true
  | _ => false
  end.

(** The specifiers written for a list of part names: the loop ends with the
    own specifier of the first name at which it throws. *)
Fixpoint specifiers_until (ids : str -> str) (names : list str) : list str :=
  match names with
  | [] => []
  | name :: names' =>
    if throws_at name then [own_specifier ids name]
    else specifiers_of_name ids name ++ specifiers_until ids names'
  end.
End Specifiers.

Definition addPartSpecifiers (element : ref) (specs : list str) (d : DOM)
  : DOM :=
  fold_left (fun d' s => addPartSpecifier element s d') specs d.

(** The value of a [shady-part] attribute that holds the given specifiers:
    absent when there is none, else the specifiers separated by one space. *)
Definition shady_value (specs : list str) : option str :=
  match specs with
  | [] => None
  | _ => Some (join (lit " ") specs)
  end.

Definition write_attribute (element : ref) (name : str) (v : option str)
  (d : DOM) : DOM :=
  match v with
  | None => removeAttribute element name d
  | Some value => setAttribute element name value d
  end.

(** The tree after the part nodes of a host are rescoped one after the
    other.  The loop over the part nodes ends at the first part node with a
    part name at which it throws: [reached] are the part nodes it gets to. *)
Section Rescoped.
Variable hostScope' scope' : str.
Variable registry : gmap str (list nat).
Variable exportPartsMap : gmap str (list partData).
Variable ids : str -> str.

Definition rescoped (d : DOM) (partNode : ref) : DOM :=
  write_attribute partNode SHADY_PART
    (shady_value
       (specifiers_until hostScope' scope' registry exportPartsMap ids
          (parsePartAttribute (getAttribute d partNode PART)))) d.

Definition rescoped_all (partNodes : list ref) (d : DOM) : DOM :=
  fold_left rescoped partNodes d.

Definition node_throws (d : DOM) (partNode : ref) : bool :=
  existsb (throws_at exportPartsMap)
    (parsePartAttribute (getAttribute d partNode PART)).

Fixpoint reached (d : DOM) (partNodes : list ref) : list ref :=
  match partNodes with
  | [] => []
  | x :: l => x :: if node_throws d x then [] else reached d l
  end.
End Rescoped.

(** Computations on the tree alone, to describe runs with. *)
Abbreviation run := (DOM -> completion unit * DOM).

Definition completion_of (throws : bool) : completion unit :=
  if throws then Throw TypeError else Normal tt.

Definition then_run (T1 T2 : run) : run :=
  fun d =>
    match T1 d with
    | (Normal _, d') => T2 d'
    | (Throw e, d') => (Throw e, d')
    end.

Fixpoint for_run {A : Type} (l : list A) (T : A -> run) : run :=
  match l with
  | [] => fun d => (Normal tt, d)
  | x :: l' => then_run (T x) (for_run l' T)
  end.

(** ** Runs of the scoper

    [follows m T]: from a state whose registry is [registry], the
    computation [m] leaves the registry alone, keeps every answer of the
    cache, and completes and leaves the tree as [T ids] does from the tree it
    starts with, for every assignment [ids] of ids to part names that agrees
    with the cache it leaves. *)
Section Runs.
Variable si : styleInfo.
Variable hostScope' scope' : str.
Variable registry : gmap str (list nat).

Definition answers_kept (c c' : gmap str (list cacheEntry)) : Prop :=
  forall name id,
    answer si hostScope' scope' c name = Some id ->
    answer si hostScope' scope' c' name = Some id.

Definition answers_below (ids : str -> str)
  (c : gmap str (list cacheEntry)) : Prop :=
  forall name id, answer si hostScope' scope' c name = Some id -> ids name = id.

Definition follows (m : M unit) (T : (str -> str) -> run) : Prop :=
  forall st,
    partRuleCustomProperties st = registry ->
    partRuleCustomProperties (m st).2 = registry
    /\ answers_kept (partCache st) (partCache (m st).2)
    /\ forall ids,
         answers_below ids (partCache (m st).2) ->
         ((m st).1, tree (m st).2) = T ids (tree st).
End Runs.

(** A computation that leaves the tree as it was up to specifiers. *)
Definition keeps_tree {A : Type} (m : M A) : Prop :=
  forall st, eraseDOM (tree (m st).2) = eraseDOM (tree st).

(** ** Shadow-including descendants

    [inside host r]: the element [r] lies in the shadow tree of [host], or
    in the shadow tree of a host that does. [depth r] counts the shadow
    roots above [r]. *)
Fixpoint inside (host r : ref) : bool :=
  match r with
  | InRoot _ => false
  | InShadow h _ => bool_decide (h = host) || inside host h
  end.

Fixpoint depth (r : ref) : nat :=
  match r with
  | InRoot _ => 0%nat
  | InShadow h _ => S (depth h)
  end.

(** * Properties *)

(** ** The regular expressions of the separators *)

Section RegexFacts.
Context {A : Type}.

(** A greedy run whose continuation refuses every member of the class stops
    exactly at the end of the run. *)
Lemma star_greedy_skip (cls : N -> bool) (k : str -> option A) (s : str) :
  (forall c s', cls c = true -> k (c :: s') = None) ->
  Regex.star_greedy cls k s = k (drop_while cls s).
Proof.
  intros Hk. induction s as [|c s IH]; simpl; [done|].
  destruct (cls c) eqn:E; [|done].
  rewrite IH. destruct (k (drop_while cls s)) eqn:E2; [done|].
  by apply Hk.
Qed.

(** A greedy run takes the whole run when the continuation accepts there. *)
Lemma star_greedy_first (cls : N -> bool) (k : str -> option A) (s : str) :
  is_Some (k (drop_while cls s)) ->
  Regex.star_greedy cls k s = k (drop_while cls s).
Proof.
  induction s as [|c s IH]; simpl; intros H; [done|].
  destruct (cls c); [|done].
  rewrite (IH H). by destruct H as [x ->].
Qed.

End RegexFacts.

Lemma drop_while_suffix (cls : N -> bool) (s : str) :
  suffix (drop_while cls s) s.
Proof.
  induction s as [|c s IH]; simpl; [done|].
  destruct (cls c); [by apply suffix_cons_r | done].
Qed.

Lemma suffix_drop_length (t l : str) :
  suffix t l -> drop (length l - length t) l = t.
Proof.
  intros [k ->]. rewrite length_app.
  replace (length k + length t - length t)%nat with (length k) by lia.
  by rewrite drop_app_length.
Qed.

(** The separator [\s*c\s*] for a code unit [c] that is not white space. *)
Definition RE_SEP (c : N) : Regex.regex :=
  Regex.Seq (Regex.Star true is_space)
    (Regex.Seq (Regex.Lit [c]) (Regex.Star true is_space)).

Lemma RE_COMMA_sep : RE_COMMA = RE_SEP 44.
Proof. reflexivity. Qed.

Lemma RE_COLON_sep : RE_COLON = RE_SEP 58.
Proof. reflexivity. Qed.

(** Where the separator matches, and how far. *)
Lemma match_length_sep (c : N) (s : str) :
  is_space c = false ->
  Regex.match_length (RE_SEP c) s =
  match trimStart s with
  | x :: r =>
    if c =? x then Some (length s - length (trimStart r))%nat else None
  | [] => None
  end.
Proof.
  intros Hc. unfold Regex.match_length, RE_SEP. simpl. unfold Regex.star.
  rewrite star_greedy_skip.
  - fold (trimStart s). destruct (trimStart s) as [|x r]; simpl; [done|].
    destruct (c =? x); [|done].
    rewrite star_greedy_first; [done | by eexists].
  - intros x s' Hx. simpl.
    destruct (N.eqb_spec c x) as [->|]; [congruence | done].
Qed.

(** ** Splitting *)

Lemma split_loop_skip (m : str -> option nat) (k : nat) (piece rest : str) :
  split_loop m k piece rest = split_loop m 0 piece (drop k rest).
Proof.
  revert k. induction rest as [|c r IH]; intros [|k]; try done.
  simpl. apply IH.
Qed.

Lemma split_loop_cons (m : str -> option nat) (piece : str) (x : N)
  (r : str) :
  split_loop m 0 piece (x :: r) =
  match m (x :: r) with
  | None => split_loop m 0 (x :: piece) r
  | Some O =>
    match piece with
    | [] => split_loop m 0 [x] r
    | _ => rev piece :: split_loop m 0 [x] r
    end
  | Some (S k) => rev piece :: split_loop m 0 [] (drop k r)
  end.
Proof.
  simpl. destruct (m (x :: r)) as [[|k]|]; try done.
  by rewrite split_loop_skip.
Qed.

Lemma squash_app (s t : str) : squash (s ++ t) = squash s ++ squash t.
Proof.
  induction s as [|c s IH]; simpl; [done|].
  destruct (is_space c); simpl; by rewrite IH.
Qed.

Lemma squash_rev (s : str) : squash (rev s) = rev (squash s).
Proof.
  induction s as [|c s IH]; simpl; [done|].
  rewrite squash_app, IH. simpl.
  destruct (is_space c); simpl; [by rewrite app_nil_r | done].
Qed.

Lemma squash_trimStart (s : str) : squash (trimStart s) = squash s.
Proof.
  unfold trimStart. induction s as [|c s IH]; simpl; [done|].
  destruct (is_space c) eqn:E; [done|]. simpl. by rewrite E.
Qed.

Lemma trimStart_length (s : str) : (length (trimStart s) <= length s)%nat.
Proof. apply suffix_length, drop_while_suffix. Qed.

Lemma trimStart_cons_length (s r : str) (x : N) :
  trimStart s = x :: r -> (length r < length s)%nat.
Proof.
  intros H. pose proof (trimStart_length s) as Hl.
  rewrite H in Hl. simpl in Hl. lia.
Qed.

(** Splitting on [\\s*c\\s*] and deleting the white space of the pieces is
    deleting the white space and cutting at every [c]. *)
Lemma split_loop_fields (c : N) :
  is_space c = false ->
  forall (n : nat) (rest piece : str),
    (length rest <= n)%nat ->
    map squash (split_loop (Regex.match_length (RE_SEP c)) 0 piece rest)
    = fields_from c (squash piece) (squash rest).
Proof.
  intros Hc. induction n as [|n IH]; intros rest piece Hn.
  - destruct rest; [|simpl in Hn; lia]. simpl. by rewrite squash_rev.
  - destruct rest as [|x r]; [simpl; by rewrite squash_rev|].
    simpl in Hn. rewrite split_loop_cons, (match_length_sep c _ Hc).
    unfold trimStart at 1. simpl drop_while.
    destruct (is_space x) eqn:Ex.
    + fold (trimStart r). simpl squash at 2. rewrite Ex.
      destruct (trimStart r) as [|y r2] eqn:Et.
      * rewrite IH by lia. simpl. by rewrite Ex.
      * pose proof (trimStart_cons_length _ _ _ Et) as Hr2.
        pose proof (trimStart_length r2) as Ht2.
        destruct (N.eqb_spec c y) as [<-|Hne].
        -- replace (length (x :: r) - length (trimStart r2))%nat
             with (S (length r - length (trimStart r2))) by (simpl; lia).
           rewrite suffix_drop_length.
           2:{ etrans; [apply drop_while_suffix|].
               apply suffix_cons_l with (x := c). rewrite <- Et.
               apply drop_while_suffix. }
           simpl map. rewrite IH by lia.
           rewrite <- (squash_trimStart r), Et. simpl squash. rewrite Hc.
           simpl. rewrite N.eqb_refl.
           by rewrite squash_rev, squash_trimStart.
        -- rewrite IH by lia. simpl. by rewrite Ex.
    + destruct (N.eqb_spec c x) as [<-|Hne].
      * pose proof (trimStart_length r) as Ht.
        replace (length (c :: r) - length (trimStart r))%nat
          with (S (length r - length (trimStart r))) by (simpl; lia).
        rewrite suffix_drop_length by apply drop_while_suffix.
        simpl map. rewrite IH by lia.
        simpl squash. rewrite Hc. simpl. rewrite N.eqb_refl.
        by rewrite squash_rev, squash_trimStart.
      * rewrite IH by lia. simpl. rewrite Ex. simpl.
        destruct (N.eqb_spec x c) as [->|]; [done|done].
Qed.

Lemma split_re_fields (c : N) (s : str) :
  is_space c = false ->
  map squash (split_re (RE_SEP c) s) = fields c (squash s).
Proof.
  intros Hc. destruct s as [|x r].
  - unfold split_re, split. by rewrite (match_length_sep c _ Hc).
  - unfold split_re, split. by apply (split_loop_fields c Hc (length (x :: r))).
Qed.

Lemma fields_from_length (c : N) (cur s : str) :
  length (fields_from c cur s) = S (count_char c s).
Proof.
  unfold count_char.
  revert cur. induction s as [|x s IH]; intros cur; simpl; [done|].
  destruct (N.eqb_spec x c) as [->|Hne].
  - simpl. rewrite IH. by destruct (N.eq_dec c c).
  - rewrite IH. by destruct (N.eq_dec x c).
Qed.

Lemma count_occ_squash (c : N) (s : str) :
  is_space c = false ->
  count_char c (squash s) = count_char c s.
Proof.
  unfold count_char. intros Hc. induction s as [|x s IH]; simpl; [done|].
  destruct (is_space x) eqn:Ex; simpl; destruct (N.eq_dec x c); try lia.
  congruence.
Qed.

(** A token is cut into one more piece than it has colons. *)
Lemma split_colon_length (tok : str) :
  length (split_re RE_COLON tok) = S (count_char 58 tok).
Proof.
  rewrite <- (length_map squash), RE_COLON_sep, split_re_fields by done.
  unfold fields. by rewrite fields_from_length, count_occ_squash.
Qed.

Lemma exportPartOfToken_colons (tok : str) :
  (2 <= count_char 58 tok)%nat -> exportPartOfToken tok = [].
Proof.
  intros H. unfold exportPartOfToken.
  pose proof (split_colon_length tok) as Hl.
  destruct (split_re RE_COLON tok) as [|x [|y [|z l]]]; simpl in Hl; try lia.
  done.
Qed.

Lemma squash_nonempty (s : str) : squash s <> [] -> s <> [].
Proof. by destruct s. Qed.

Lemma exportPartOfToken_nonempty (tok : str) (e : exportPart) :
  (forall f, In f (fields 58 (squash tok)) -> f <> []) ->
  In e (exportPartOfToken tok) -> inner e <> [] /\ outer e <> [].
Proof.
  intros Hf. unfold exportPartOfToken.
  pose proof (split_re_fields 58 tok eq_refl) as Hs.
  rewrite <- RE_COLON_sep in Hs. rewrite <- Hs in Hf.
  destruct (split_re RE_COLON tok) as [|x [|y [|z l]]]; simpl in *;
    intros He; try done.
  - destruct He as [<-|[]]. simpl.
    split; apply squash_nonempty, Hf; auto.
  - destruct He as [<-|[]]. simpl.
    split; apply squash_nonempty, Hf; auto.
Qed.

(** C3 (defect of the code): for the one-space string the parser returns a
    single token that is empty, where splitting on runs of white space
    leaves no token at all. *)
Theorem parsePartAttribute_blank :
  parsePartAttribute (Some (lit " ")) = [[]]
  /\ words (lit " ") = [].
Proof. split; reflexivity. Qed.

(** C4, as stated, fails: the empty token of ["a,,b"] becomes an entry whose
    names are both empty. *)
Lemma parseExportPartsAttribute_empty_token :
  parseExportPartsAttribute (Some (lit "a,,b"))
  = [ExportPart (lit "a") (lit "a"); ExportPart [] [];
     ExportPart (lit "b") (lit "b")].
Proof. reflexivity. Qed.

(** C4 (amended): when, white space apart, no comma-separated token of [s]
    is empty or has an empty side of a colon, every entry has a non-empty
    [inner] and [outer]; ["a,b:c"] gives [{a,a}] and [{b,c}]; and a token
    with more than one colon is left out while the tokens around it are
    processed. *)
Theorem parseExportPartsAttribute_entries :
  (forall (s : str) (e : exportPart),
     (forall tok, In tok (fields 44 (squash s)) ->
        forall f, In f (fields 58 tok) -> f <> []) ->
     In e (parseExportPartsAttribute (Some s)) ->
     inner e <> [] /\ outer e <> [])
  /\ parseExportPartsAttribute (Some (lit "a,b:c"))
     = [ExportPart (lit "a") (lit "a"); ExportPart (lit "b") (lit "c")]
  /\ (forall (s tok : str) (before after : list str),
        s <> [] ->
        split_re RE_COMMA s = before ++ tok :: after ->
        (2 <= count_char 58 tok)%nat ->
        parseExportPartsAttribute (Some s)
        = flat_map exportPartOfToken (before ++ after)).
Proof.
  split; [|split; [reflexivity|]].
  - intros s e Hf He. destruct s as [|x r]; [done|].
    unfold parseExportPartsAttribute in He.
    apply in_flat_map in He as (tok & Htok & He).
    apply (exportPartOfToken_nonempty tok e); [|done].
    apply Hf. rewrite <- split_re_fields, <- RE_COMMA_sep by done.
    by apply in_map.
  - intros s tok before after Hs Hsplit Hcolons.
    destruct s as [|x r]; [done|].
    unfold parseExportPartsAttribute. rewrite Hsplit.
    rewrite !flat_map_app. simpl.
    by rewrite (exportPartOfToken_colons tok Hcolons).
Qed.

(** The amended C4 at ["p : q , a:b:c"]: both names of the one entry are
    non-empty, and the token with two colons is left out. *)
Lemma parseExportPartsAttribute_entries_witness :
  (inner (ExportPart (lit "p") (lit "q")) <> []
   /\ outer (ExportPart (lit "p") (lit "q")) <> [])
  /\ parseExportPartsAttribute (Some (lit "p : q , a:b:c"))
     = flat_map exportPartOfToken ([lit "p : q"] ++ []).
Proof.
  split.
  - apply (proj1 parseExportPartsAttribute_entries (lit "p : q")).
    + vm_compute. intros tok [<-|[]] f [<-|[<-|[]]]; discriminate.
    + vm_compute. by left.
  - apply (proj2 (proj2 parseExportPartsAttribute_entries)
             (lit "p : q , a:b:c") (lit "a:b:c") [lit "p : q"] []).
    + discriminate.
    + reflexivity.
    + vm_compute. lia.
Defined.

(** ** The worked example *)

(** C1, as stated, fails: the specifiers the code attaches carry no [part_]
    prefix. *)
Lemma scoped_c1_no_part_prefix :
  bool_decide
    (specifiers
       (tree (Example.scoped_bottom_up Example.no_styleInfo
                Example.keep_rule).2) Example.c1
     = [lit "part_x-b_x-c_c1"; lit "part_x-a_x-b_b2";
        lit "part_document_x-a_a3"]) = false.
Proof. vm_compute. reflexivity. Qed.

(** C1 (amended): after [scopeAllHostParts] on [x-c], [x-b] and [x-a] the
    element with [part="c1"] carries exactly the three specifiers
    [x-b_x-c_c1], [x-a_x-b_b2] and [document_x-a_a3], in that order, and no
    call throws. *)
Theorem scoped_c1_specifiers (StyleInfo_get : ref -> styleInfo)
  (applyProperties : rule -> properties -> rule) :
  (Example.scoped_bottom_up StyleInfo_get applyProperties).1 = Normal tt
  /\ getAttribute
       (tree (Example.scoped_bottom_up StyleInfo_get applyProperties).2)
       Example.c1 SHADY_PART
     = Some (lit "x-b_x-c_c1 x-a_x-b_b2 document_x-a_a3")
  /\ specifiers
       (tree (Example.scoped_bottom_up StyleInfo_get applyProperties).2)
       Example.c1
     = [lit "x-b_x-c_c1"; lit "x-a_x-b_b2"; lit "document_x-a_a3"].
Proof. vm_compute. repeat split; reflexivity. Qed.

(** ** Selectors *)

(** C5 (defect of the code): a class selector with a hyphen and no element
    name is taken for a custom-element name, so the selector is matched
    where none was to be returned.  The two matches the claim lists, and the
    bare [::part(foo)], are as the claim says. *)
Theorem parsePartSelector_hyphenated_class :
  parsePartSelector (lit ".foo-bar::part(x)")
  = Some (PartSelector (lit ".") (lit "foo-bar") [] (Some (lit "x")))
  /\ parsePartSelector (lit "x-a::part(foo)")
     = Some (PartSelector [] (lit "x-a") [] (Some (lit "foo")))
  /\ parsePartSelector (lit ".cls x-a::part(foo)")
     = Some (PartSelector (lit ".cls ") (lit "x-a") [] (Some (lit "foo")))
  /\ parsePartSelector (lit "::part(foo)") = None
  /\ parsePartSelector (lit ".bar::part(foo)") = None.
Proof. repeat split; reflexivity. Qed.

(** ** Export-parts resolver *)

Lemma object_get_inherited {A : Type} (o : gmap str A) (name : str) :
  own_names_only o -> inherited name = true -> object_get o name = Inherited.
Proof. intros Ho Hn. unfold object_get. by rewrite (Ho name Hn), Hn. Qed.

Lemma object_get_own {A : Type} (o : gmap str A) (name : str) :
  inherited name = false ->
  object_get o name
  = match o !! name with Some a => Own a | None => Undefined end.
Proof. intros Hn. unfold object_get. by rewrite Hn. Qed.

Lemma object_get_Inherited {A : Type} (o : gmap str A) (name : str) :
  own_names_only o ->
  object_get o name = Inherited <-> inherited name = true.
Proof.
  intros Ho. split; [|by apply object_get_inherited].
  unfold object_get. destruct (o !! name); [done|].
  by destruct (inherited name).
Qed.

Lemma own_names_only_empty {A : Type} : own_names_only (∅ : gmap str A).
Proof. by intros name _. Qed.

Lemma own_names_only_insert {A : Type} (o : gmap str A) (name : str) (a : A) :
  inherited name = false -> own_names_only o ->
  own_names_only (<[name := a]> o).
Proof.
  intros Hn Ho k Hk. rewrite lookup_insert_ne; [by apply Ho|]. congruence.
Qed.

Lemma exportPartsStep_returns (hostScope scope : str)
  (superExports m0 : gmap str (list partData)) (e : exportPart) :
  inherited (inner e) = false -> inherited (outer e) = false ->
  exportPartsStep hostScope scope superExports m0 e
  = Normal (export_pair hostScope scope superExports m0 e).
Proof.
  intros Hi Ho. unfold exportPartsStep, export_pair, forwarded.
  rewrite (object_get_own m0 _ Hi), (object_get_own superExports _ Ho).
  destruct (m0 !! inner e), (superExports !! outer e); simpl;
    by rewrite <- ?app_assoc, ?app_nil_r.
Qed.

Lemma exportPartsStep_throws (hostScope scope : str)
  (superExports m0 : gmap str (list partData)) (e : exportPart) :
  own_names_only m0 -> own_names_only superExports ->
  inherited (inner e) || inherited (outer e) = true ->
  exportPartsStep hostScope scope superExports m0 e = Throw TypeError.
Proof.
  intros Hm Hs H. unfold exportPartsStep.
  destruct (inherited (inner e)) eqn:Hi.
  - by rewrite (object_get_inherited m0 _ Hm Hi).
  - simpl in H. rewrite (object_get_own m0 _ Hi),
      (object_get_inherited superExports _ Hs H).
    by destruct (m0 !! inner e).
Qed.

Lemma export_pair_own (hostScope scope : str)
  (superExports m0 : gmap str (list partData)) (e : exportPart) :
  inherited (inner e) = false -> own_names_only m0 ->
  own_names_only (export_pair hostScope scope superExports m0 e).
Proof. intros Hi Hm. by apply own_names_only_insert. Qed.

(** Without an inherited name among the pairs the loop adds one pair after
    the other; with one, it throws. *)
Lemma exportPartsLoop_returns (hostScope scope : str)
  (superExports : gmap str (list partData)) (pairs : list exportPart)
  (m0 : gmap str (list partData)) :
  declares_inherited pairs = false ->
  exportPartsLoop hostScope scope superExports pairs m0
  = Normal (fold_left (export_pair hostScope scope superExports) pairs m0).
Proof.
  revert m0. induction pairs as [|e pairs IH]; intros m0 H; [done|].
  simpl in H. apply orb_false_iff in H as [He H].
  apply orb_false_iff in He as [Hi Ho].
  simpl. rewrite exportPartsStep_returns by done. by apply IH.
Qed.

Lemma exportPartsLoop_throws (hostScope scope : str)
  (superExports : gmap str (list partData)) (pairs : list exportPart)
  (m0 : gmap str (list partData)) :
  own_names_only m0 -> own_names_only superExports ->
  declares_inherited pairs = true ->
  exportPartsLoop hostScope scope superExports pairs m0 = Throw TypeError.
Proof.
  intros Hm Hs. revert m0 Hm.
  induction pairs as [|e pairs IH]; intros m0 Hm H; [done|].
  simpl in H. simpl.
  destruct (inherited (inner e) || inherited (outer e)) eqn:He.
  - by rewrite exportPartsStep_throws.
  - apply orb_false_iff in He as [Hi Ho].
    rewrite exportPartsStep_returns by done.
    apply IH; [by apply export_pair_own|done].
Qed.

Lemma export_pairs_own (hostScope scope : str)
  (superExports : gmap str (list partData)) (pairs : list exportPart)
  (m0 : gmap str (list partData)) :
  declares_inherited pairs = false -> own_names_only m0 ->
  own_names_only
    (fold_left (export_pair hostScope scope superExports) pairs m0).
Proof.
  revert m0. induction pairs as [|e pairs IH]; intros m0 H Hm; [done|].
  simpl in H. apply orb_false_iff in H as [He H].
  apply orb_false_iff in He as [Hi Ho].
  simpl. apply IH; [done|]. by apply export_pair_own.
Qed.

Lemma exportPartsLoop_cases (hostScope scope : str)
  (superExports : gmap str (list partData)) (pairs : list exportPart) :
  own_names_only superExports ->
  exportPartsLoop hostScope scope superExports pairs ∅
  = if declares_inherited pairs then Throw TypeError
    else Normal (fold_left (export_pair hostScope scope superExports) pairs ∅).
Proof.
  intros Hs. destruct (declares_inherited pairs) eqn:H.
  - apply exportPartsLoop_throws; [apply own_names_only_empty|done|done].
  - by apply exportPartsLoop_returns.
Qed.

(** The map the resolver returns has no own property with an inherited
    name. *)
Lemma getExportPartsMap_own (d : DOM) (host : ref)
  (m : gmap str (list partData)) :
  getExportPartsMap d host = Normal m -> own_names_only m.
Proof.
  revert m. induction host as [q|h IH q]; intros m; simpl.
  - destruct (getAttribute d (InRoot q) _);
      [|intros [= <-]; apply own_names_only_empty].
    destruct d; [|done]. intros [= <-]. apply own_names_only_empty.
  - destruct (getAttribute d (InShadow h q) _) as [attr|];
      [|intros [= <-]; apply own_names_only_empty].
    destruct (scopeForRoot d (getRootNode d h)) as [hs|];
      [|intros [= <-]; apply own_names_only_empty].
    destruct (getExportPartsMap d h) as [superExports|]; [|done].
    rewrite exportPartsLoop_cases by (by apply IH).
    destruct (declares_inherited _) eqn:Hd; [done|]. intros [= <-].
    apply export_pairs_own; [done|apply own_names_only_empty].
Qed.






(** ** The tree scoper *)

(** C9: when the scope of the root of the host cannot be determined,
    [scopeAllHostParts] returns and leaves the whole state, and so every
    [shady-part] attribute, as it was. *)
Theorem scopeAllHostParts_no_root_scope (StyleInfo_get : ref -> styleInfo)
  (applyProperties : rule -> properties -> rule) (host : ref) (st : state) :
  scopeForRoot (tree st) (getRootNode (tree st) host) = None ->
  scopeAllHostParts StyleInfo_get applyProperties host st = (Normal tt, st).
Proof.
  intros H. unfold scopeAllHostParts.
  destruct (shadowRoot (tree st) host); [|done].
  destruct (_ =? _)%nat; [done|]. by rewrite H.
Qed.

(** C9 at the detached host [x-a]: its shadow tree holds a part that
    carries a specifier, and the call changes nothing. *)
Lemma scopeAllHostParts_no_root_scope_witness :
  getAttribute Loose.tree Loose.p SHADY_PART = Some (lit "old")
  /\ scopeAllHostParts Example.no_styleInfo Example.keep_rule Loose.x_a
       (initial Loose.tree [])
     = (Normal tt, initial Loose.tree []).
Proof.
  split; [reflexivity|].
  apply scopeAllHostParts_no_root_scope. reflexivity.
Defined.

(** ** Mutation handlers *)

(** C6 (defect of the code): on a part that already carries the specifier of
    its old name, [onPartAttributeChanged] with the new value ["z"] appends
    the new specifier to the old one instead of replacing it.  The tree
    scoper, run on the same element once its [part] attribute reads ["z"],
    clears the old specifier first. *)
Theorem onPartAttributeChanged_appends (StyleInfo_get : ref -> styleInfo)
  (applyProperties : rule -> properties -> rule) :
  let st := (Example.scoped_bottom_up StyleInfo_get applyProperties).2 in
  getAttribute (tree st) Example.a1 SHADY_PART = Some (lit "document_x-a_a1")
  /\ getAttribute
       (tree (onPartAttributeChanged Example.a1 (Some (lit "a1"))
                (Some (lit "z")) st).2) Example.a1 SHADY_PART
     = Some (lit "document_x-a_a1 document_x-a_z")
  /\ getAttribute
       (tree (scopeAllHostParts StyleInfo_get applyProperties Example.x_a
                (with_tree (setAttribute Example.a1 (lit "part") (lit "z"))
                   st)).2) Example.a1 SHADY_PART
     = Some (lit "document_x-a_z").
Proof. vm_compute. repeat split; reflexivity. Qed.

(** ** Scope identity cache *)

















(** ** The DOM *)

Lemma steps_nonempty (r : ref) : exists s q, steps r = s :: q.
Proof.
  induction r as [[i p]|h IH [i p]]; simpl.
  - by eexists _, _.
  - destruct IH as (s & q & ->). by eexists _, _.
Qed.

Lemma root_node_alter_element (f : node -> node) (r : ref) (d : DOM) :
  root_node (alter_element f r d) = alter_at f (steps r) (root_node d).
Proof.
  unfold alter_element. destruct (steps_nonempty r) as (s & q & ->).
  destruct d as [c|t], s as [i|i]; simpl; try done.
  by destruct i.
Qed.

Lemma get_alter_element (f : node -> node) (r r' : ref) (d : DOM) :
  get (alter_element f r d) r'
  = descend (alter_at f (steps r) (root_node d)) (steps r').
Proof. unfold get. by rewrite root_node_alter_element. Qed.

Lemma list_alter_fixed {A : Type} (f : A -> A) (i : nat) (l : list A) :
  (forall x, l !! i = Some x -> f x = x) -> alter f i l = l.
Proof.
  intros H. rewrite <- (list_alter_id id l i) at 2 by done.
  by apply list_alter_ext.
Qed.

(** Altering an element into itself, or where there is no element, changes
    nothing. *)
Lemma alter_at_fixed (f : node -> node) (q : list step) (n : node) :
  (forall x, descend n q = Some x -> f x = x) -> alter_at f q n = n.
Proof.
  revert n. induction q as [|[i|i] q IH]; intros [l a c s]; simpl.
  - intros H. by apply H.
  - intros H. f_equal. apply list_alter_fixed. intros x Hx.
    apply IH. by rewrite Hx in H.
  - intros H. f_equal. destruct s as [sh|]; [|done]. simpl. f_equal.
    apply list_alter_fixed. intros x Hx. apply IH. by rewrite Hx in H.
Qed.

Lemma with_root_node_root_node (d : DOM) : with_root_node d (root_node d) = d.
Proof. by destruct d. Qed.

Lemma alter_element_fixed (f : node -> node) (r : ref) (d : DOM) :
  (forall x, get d r = Some x -> f x = x) -> alter_element f r d = d.
Proof.
  intros H. unfold alter_element. rewrite alter_at_fixed by done.
  apply with_root_node_root_node.
Qed.

Lemma alter_at_compose (f g : node -> node) (q : list step) (n : node) :
  alter_at f q (alter_at g q n) = alter_at (fun x => f (g x)) q n.
Proof.
  revert n. induction q as [|[i|i] q IH]; intros [l a c s]; simpl; [done| |].
  - f_equal. rewrite list_alter_alter_eq. apply list_alter_ext; [|done].
    intros x _. apply IH.
  - f_equal. destruct s as [sh|]; [|done]. simpl. f_equal.
    rewrite list_alter_alter_eq. apply list_alter_ext; [|done].
    intros x _. apply IH.
Qed.

Lemma alter_element_compose (f g : node -> node) (r : ref) (d : DOM) :
  alter_element f r (alter_element g r d)
  = alter_element (fun x => f (g x)) r d.
Proof.
  unfold alter_element at 1. rewrite root_node_alter_element, alter_at_compose.
  unfold alter_element. destruct (steps_nonempty r) as (s0 & q & ->).
  destruct d as [c|t], s0 as [i|i]; simpl; try done.
  by destruct i.
Qed.

Lemma alter_at_ext (f g : node -> node) (q : list step) (n : node) :
  (forall x, descend n q = Some x -> f x = g x) ->
  alter_at f q n = alter_at g q n.
Proof.
  revert n. induction q as [|[i|i] q IH]; intros [l a c s]; simpl.
  - intros H. by apply H.
  - intros H. f_equal. apply list_alter_ext; [|done]. intros x Hx.
    apply IH. by rewrite Hx in H.
  - intros H. f_equal. destruct s as [sh|]; [|done]. simpl. f_equal.
    apply list_alter_ext; [|done]. intros x Hx. apply IH.
    by rewrite Hx in H.
Qed.

Lemma alter_element_ext (f g : node -> node) (r : ref) (d : DOM) :
  (forall x, get d r = Some x -> f x = g x) ->
  alter_element f r d = alter_element g r d.
Proof. intros H. unfold alter_element. by rewrite (alter_at_ext f g). Qed.

(** The attributes of the elements after the attributes of one of them are
    rewritten. *)
Lemma descend_alter_attributes (g : gmap str str -> gmap str str)
  (q q' : list step) (n : node) :
  node_attributes <$> descend (alter_at (with_attributes g) q n) q'
  = (if decide (q = q') then g else id)
    <$> (node_attributes <$> descend n q').
Proof.
  revert n q'. induction q as [|[i|i] q IH]; intros [l a c s] q'.
  - destruct q' as [|[j|j] q']; [done| |];
      rewrite decide_False by done; by rewrite option_fmap_id.
  - destruct q' as [|[j|j] q'].
    + by rewrite decide_False.
    + destruct (decide (i = j)) as [<-|Hne].
      * simpl descend. rewrite list_lookup_alter_eq.
        destruct (c !! i) as [x|]; simpl; [|done].
        rewrite IH. destruct (decide (q = q')) as [<-|Hq].
        -- by rewrite decide_True.
        -- by rewrite decide_False by congruence.
      * simpl descend. rewrite list_lookup_alter_ne by done.
        rewrite decide_False by congruence. by rewrite option_fmap_id.
    + rewrite decide_False by done. by rewrite option_fmap_id.
  - destruct q' as [|[j|j] q'].
    + by rewrite decide_False.
    + rewrite decide_False by done. by rewrite option_fmap_id.
    + destruct s as [sh|]; [|simpl; done].
      destruct (decide (i = j)) as [<-|Hne].
      * simpl descend. rewrite list_lookup_alter_eq.
        destruct (sh !! i) as [x|]; simpl; [|done].
        rewrite IH. destruct (decide (q = q')) as [<-|Hq].
        -- by rewrite decide_True.
        -- by rewrite decide_False by congruence.
      * simpl descend. rewrite list_lookup_alter_ne by done.
        rewrite decide_False by congruence. by rewrite option_fmap_id.
Qed.

Lemma descend_alter_localName (g : gmap str str -> gmap str str)
  (q q' : list step) (n : node) :
  node_localName <$> descend (alter_at (with_attributes g) q n) q'
  = node_localName <$> descend n q'.
Proof.
  revert n q'. induction q as [|[i|i] q IH]; intros [l a c s] q'.
  - simpl. by destruct q' as [|[j|j] q'].
  - simpl. destruct q' as [|[j|j] q']; simpl; [done| |done].
    destruct (decide (i = j)) as [<-|Hne].
    + rewrite list_lookup_alter_eq. destruct (c !! i) as [x|]; simpl; [|done].
      apply IH.
    + by rewrite list_lookup_alter_ne.
  - simpl. destruct q' as [|[j|j] q']; simpl; [done|done|].
    destruct s as [sh|]; simpl; [|done].
    destruct (decide (i = j)) as [<-|Hne].
    + rewrite list_lookup_alter_eq. destruct (sh !! i) as [x|]; simpl; [|done].
      apply IH.
    + by rewrite list_lookup_alter_ne.
Qed.

(** An address is determined by its steps. *)
Lemma lights_shadow_inj (a b : list nat) (i j : nat) (x y : list step) :
  map Light a ++ Shadow i :: x = map Light b ++ Shadow j :: y ->
  a = b /\ i = j /\ x = y.
Proof.
  revert b. induction a as [|u a IH]; intros [|v b] H; simpl in H;
    try discriminate.
  - by injection H as -> ->.
  - injection H as -> H. by destruct (IH _ H) as (-> & -> & ->).
Qed.

Lemma steps_shadow_inj (l1 l2 : list step) (p1 p2 : path) :
  l1 ++ steps_of_path Shadow p1 = l2 ++ steps_of_path Shadow p2 ->
  l1 = l2 /\ p1 = p2.
Proof.
  destruct p1 as [i1 q1], p2 as [i2 q2]. unfold steps_of_path. simpl.
  intros H. apply (f_equal (@rev step)) in H.
  rewrite !rev_app_distr in H. simpl in H.
  rewrite <- !app_assoc, <- !map_rev in H. simpl in H.
  apply lights_shadow_inj in H as (Hq & -> & Hl).
  apply (f_equal (@rev nat)) in Hq. apply (f_equal (@rev step)) in Hl.
  rewrite !rev_involutive in Hq, Hl. by subst.
Qed.

Lemma steps_inj (r r' : ref) : steps r = steps r' -> r = r'.
Proof.
  revert r'. induction r as [[i p]|h IH [i p]]; intros [[i' p']|h' [i' p']] H.
  - simpl in H. unfold steps_of_path in H. simpl in H. injection H as -> H.
    f_equal. f_equal. revert p' H. induction p as [|x p IHp]; intros [|y p'] H;
      simpl in H; try discriminate; [done|].
    injection H as -> H. f_equal. by apply IHp.
  - exfalso.
    assert (In (Shadow i') (steps (InRoot (i, p)))) as Hin.
    { rewrite H. simpl. apply in_or_app. right. by left. }
    simpl in Hin. destruct Hin as [Hin|Hin]; [done|].
    apply in_map_iff in Hin as (? & ? & _). done.
  - exfalso.
    assert (In (Shadow i) (steps (InRoot (i', p')))) as Hin.
    { rewrite <- H. simpl. apply in_or_app. right. by left. }
    simpl in Hin. destruct Hin as [Hin|Hin]; [done|].
    apply in_map_iff in Hin as (? & ? & _). done.
  - simpl in H. apply steps_shadow_inj in H as [Hh Hp].
    injection Hp as -> ->. f_equal. by apply IH.
Qed.

(** *** Attributes after a write *)

Lemma getAttribute_alter (g : gmap str str -> gmap str str) (r r' : ref)
  (d : DOM) (name : str) :
  getAttribute (alter_element (with_attributes g) r d) r' name
  = if decide (r = r')
    then get d r' ≫= fun n => g (node_attributes n) !! name
    else getAttribute d r' name.
Proof.
  unfold getAttribute. rewrite get_alter_element.
  pose proof (descend_alter_attributes g (steps r) (steps r') (root_node d))
    as H.
  fold (get d r') in H.
  destruct (decide (r = r')) as [<-|Hne].
  - rewrite decide_True in H by done.
    destruct (descend _ _) as [x|], (get d r) as [y|]; simpl in *;
      try discriminate; [|done].
    by injection H as ->.
  - rewrite decide_False in H by (intros Heq; by apply steps_inj in Heq).
    destruct (descend _ _) as [x|], (get d r') as [y|]; simpl in *;
      try discriminate; [|done].
    by injection H as ->.
Qed.

Lemma localName_alter (g : gmap str str -> gmap str str) (r r' : ref)
  (d : DOM) :
  localName (alter_element (with_attributes g) r d) r' = localName d r'.
Proof.
  unfold localName. rewrite get_alter_element.
  pose proof (descend_alter_localName g (steps r) (steps r') (root_node d))
    as H.
  fold (get d r') in H.
  destruct (descend _ _) as [x|], (get d r') as [y|]; simpl in *;
    try discriminate; [|done].
  by injection H as ->.
Qed.

Lemma valid_alter (g : gmap str str -> gmap str str) (r r' : ref) (d : DOM) :
  is_Some (get (alter_element (with_attributes g) r d) r')
  <-> is_Some (get d r').
Proof.
  rewrite get_alter_element.
  pose proof (descend_alter_localName g (steps r) (steps r') (root_node d))
    as H.
  fold (get d r') in H.
  destruct (descend _ _) as [x|], (get d r') as [y|]; simpl in *;
    try discriminate; split; intros [? ?]; try done; by eexists.
Qed.

Lemma getAttribute_setAttribute (r r' : ref) (name name' value : str)
  (d : DOM) :
  getAttribute (setAttribute r name value d) r' name'
  = if decide (r = r' /\ name = name')
    then match get d r' with Some _ => Some value | None => None end
    else getAttribute d r' name'.
Proof.
  unfold setAttribute. rewrite getAttribute_alter. unfold getAttribute.
  destruct (decide (r = r')) as [<-|Hr].
  - destruct (decide (name = name')) as [<-|Hn].
    + rewrite decide_True by done.
      destruct (get d r); simpl; [|done]. by rewrite lookup_insert_eq.
    + rewrite decide_False by (by intros [_ ?]).
      destruct (get d r); simpl; [|done]. by rewrite lookup_insert_ne.
  - by rewrite decide_False by (by intros [? _]).
Qed.

Lemma getAttribute_removeAttribute (r r' : ref) (name name' : str)
  (d : DOM) :
  getAttribute (removeAttribute r name d) r' name'
  = if decide (r = r' /\ name = name') then None
    else getAttribute d r' name'.
Proof.
  unfold removeAttribute. rewrite getAttribute_alter. unfold getAttribute.
  destruct (decide (r = r')) as [<-|Hr].
  - destruct (decide (name = name')) as [<-|Hn].
    + rewrite decide_True by done.
      destruct (get d r); simpl; [|done]. by rewrite lookup_delete_eq.
    + rewrite decide_False by (by intros [_ ?]).
      destruct (get d r); simpl; [|done]. by rewrite lookup_delete_ne.
  - by rewrite decide_False by (by intros [? _]).
Qed.

Lemma setAttribute_setAttribute (r : ref) (name v v' : str) (d : DOM) :
  setAttribute r name v' (setAttribute r name v d) = setAttribute r name v' d.
Proof.
  unfold setAttribute. rewrite alter_element_compose.
  apply alter_element_ext. intros [l a c s] _. simpl.
  by rewrite insert_insert_eq.
Qed.

Lemma setAttribute_removeAttribute (r : ref) (name v : str) (d : DOM) :
  setAttribute r name v (removeAttribute r name d) = setAttribute r name v d.
Proof.
  unfold setAttribute, removeAttribute. rewrite alter_element_compose.
  apply alter_element_ext. intros [l a c s] _. simpl.
  by rewrite insert_delete_eq.
Qed.

Lemma setAttribute_same (r : ref) (name v : str) (d : DOM) :
  getAttribute d r name = Some v -> setAttribute r name v d = d.
Proof.
  intros H. apply alter_element_fixed. intros [l a c s] Hx.
  unfold getAttribute in H. rewrite Hx in H. simpl in *.
  by rewrite insert_id.
Qed.

Lemma removeAttribute_absent (r : ref) (name : str) (d : DOM) :
  getAttribute d r name = None -> removeAttribute r name d = d.
Proof.
  intros H. apply alter_element_fixed. intros [l a c s] Hx.
  unfold getAttribute in H. rewrite Hx in H. simpl in *.
  by rewrite delete_id.
Qed.

Lemma alter_element_invalid (f : node -> node) (r : ref) (d : DOM) :
  get d r = None -> alter_element f r d = d.
Proof. intros H. apply alter_element_fixed. intros x Hx. congruence. Qed.

(** *** The tree up to specifiers *)

Lemma root_node_eraseDOM (d : DOM) : root_node (eraseDOM d) = erase (root_node d).
Proof. destruct d; simpl; by rewrite delete_empty. Qed.

Lemma descend_erase (n : node) (q : list step) :
  descend (erase n) q = erase <$> descend n q.
Proof.
  revert n. induction q as [|[i|i] q IH]; intros [l a c s]; simpl; [done| |].
  - rewrite list_lookup_fmap. destruct (c !! i); simpl; [apply IH|done].
  - destruct s as [sh|]; simpl; [|done].
    rewrite list_lookup_fmap. destruct (sh !! i); simpl; [apply IH|done].
Qed.

Lemma get_eraseDOM (d : DOM) (r : ref) : get (eraseDOM d) r = erase <$> get d r.
Proof. unfold get. by rewrite root_node_eraseDOM, descend_erase. Qed.

Lemma map_erase_alter (f : node -> node) (i : nat) (c : list node) :
  (forall x, c !! i = Some x -> erase (f x) = erase x) ->
  map erase (alter f i c) = map erase c.
Proof.
  revert i. induction c as [|y c IH]; intros [|i] H; simpl; [done|done| |].
  - f_equal. by apply H.
  - f_equal. by apply IH.
Qed.

Lemma erase_alter_at (f : node -> node) (q : list step) (n : node) :
  (forall x, erase (f x) = erase x) -> erase (alter_at f q n) = erase n.
Proof.
  intros Hf. revert n.
  induction q as [|[i|i] q IH]; intros [l a c s]; simpl; [apply Hf| |].
  - f_equal. apply map_erase_alter. intros x _. apply IH.
  - f_equal. destruct s as [sh|]; simpl; [|done]. f_equal.
    apply map_erase_alter. intros x _. apply IH.
Qed.

Lemma eraseDOM_alter_element (f : node -> node) (r : ref) (d : DOM) :
  (forall x, erase (f x) = erase x) ->
  eraseDOM (alter_element f r d) = eraseDOM d.
Proof.
  intros Hf.
  pose proof (erase_alter_at f (steps r) (root_node d) Hf) as H.
  rewrite <- root_node_alter_element, <- !root_node_eraseDOM in H.
  destruct d, (alter_element f r _) eqn:E; simpl in *; try congruence;
    unfold alter_element in E; simpl in E; discriminate.
Qed.

Lemma eraseDOM_setAttribute (r : ref) (v : str) (d : DOM) :
  eraseDOM (setAttribute r SHADY_PART v d) = eraseDOM d.
Proof.
  apply eraseDOM_alter_element. intros [l a c s]. simpl.
  by rewrite delete_insert_eq.
Qed.

Lemma eraseDOM_removeAttribute (r : ref) (d : DOM) :
  eraseDOM (removeAttribute r SHADY_PART d) = eraseDOM d.
Proof.
  apply eraseDOM_alter_element. intros [l a c s]. simpl.
  by rewrite delete_delete_eq.
Qed.

(** What the module reads from the tree, other than specifiers, it reads
    from the tree up to specifiers. *)
Lemma getAttribute_eraseDOM (d : DOM) (r : ref) (name : str) :
  name <> SHADY_PART ->
  getAttribute (eraseDOM d) r name = getAttribute d r name.
Proof.
  intros Hn. unfold getAttribute. rewrite get_eraseDOM.
  destruct (get d r) as [[l a c s]|]; simpl; [|done].
  by rewrite lookup_delete_ne.
Qed.

Lemma localName_eraseDOM (d : DOM) (r : ref) :
  localName (eraseDOM d) r = localName d r.
Proof.
  unfold localName. rewrite get_eraseDOM.
  by destruct (get d r) as [[l a c s]|].
Qed.

Lemma getRootNode_eraseDOM (d : DOM) (r : ref) :
  getRootNode (eraseDOM d) r = getRootNode d r.
Proof. by destruct d, r. Qed.

Lemma scopeForRoot_eraseDOM (d : DOM) (root : rootNode) :
  scopeForRoot (eraseDOM d) root = scopeForRoot d root.
Proof. destruct root; simpl; by rewrite ?localName_eraseDOM. Qed.

Lemma getExportPartsMap_eraseDOM (d : DOM) (host : ref) :
  getExportPartsMap (eraseDOM d) host = getExportPartsMap d host.
Proof.
  induction host as [p|h IH p]; simpl.
  - rewrite getAttribute_eraseDOM by done. by destruct d.
  - rewrite getAttribute_eraseDOM by done.
    by rewrite getRootNode_eraseDOM, scopeForRoot_eraseDOM,
      localName_eraseDOM, IH.
Qed.

Lemma shadowRoot_eraseDOM (d : DOM) (r : ref) :
  shadowRoot (eraseDOM d) r = map erase <$> shadowRoot d r.
Proof.
  unfold shadowRoot. rewrite get_eraseDOM.
  by destruct (get d r) as [[l a c [sh|]]|].
Qed.

Lemma hasAttribute_erase (name : str) (n : node) :
  name <> SHADY_PART -> hasAttribute name (erase n) = hasAttribute name n.
Proof.
  intros Hn. destruct n as [l a c s]. unfold hasAttribute. simpl.
  by rewrite lookup_delete_ne.
Qed.

(** Induction on an element and its light-DOM descendants. *)
Lemma node_light_ind (P : node -> Prop) :
  (forall l a c s, Forall P c -> P (Element l a c s)) -> forall n, P n.
Proof.
  intros H. fix IH 1. intros [l a c s]. apply H.
  induction c as [|x c IHc]; constructor; [apply IH|apply IHc].
Qed.

Lemma number_from_erase (i : nat) (c : list node) :
  Forall (fun n => elements_in (erase n)
                   = map (fun pn : list nat * node => (pn.1, erase pn.2))
                       (elements_in n)) c ->
  number_from elements_in i (map erase c)
  = map (fun pn : path * node => (pn.1, erase pn.2))
      (number_from elements_in i c).
Proof.
  intros H. revert i. induction H as [|x c Hx Hc IH]; intros i; simpl; [done|].
  rewrite map_app, IH, Hx, !map_map. done.
Qed.

Lemma elements_in_erase (n : node) :
  elements_in (erase n)
  = map (fun pn : list nat * node => (pn.1, erase pn.2)) (elements_in n).
Proof.
  induction n as [l a c s IH] using node_light_ind. simpl.
  f_equal. rewrite number_from_erase by done. by rewrite !map_map.
Qed.

Lemma elements_below_erase (c : list node) :
  elements_below (map erase c)
  = map (fun pn : path * node => (pn.1, erase pn.2)) (elements_below c).
Proof.
  apply number_from_erase, Forall_forall. intros x _. apply elements_in_erase.
Qed.

Lemma querySelectorAll_attr_erase (host : ref) (sh : list node) (name : str) :
  name <> SHADY_PART ->
  querySelectorAll_attr host (map erase sh) name
  = querySelectorAll_attr host sh name.
Proof.
  intros Hn. unfold querySelectorAll_attr. rewrite elements_below_erase.
  induction (elements_below sh) as [|[p n] l IH]; simpl; [done|].
  rewrite !filter_cons. simpl. rewrite hasAttribute_erase by done.
  destruct (decide (hasAttribute name n)); simpl; by rewrite IH.
Qed.

(** ** Specifiers on elements *)

Lemma addPartSpecifier_invalid (r : ref) (s : str) (d : DOM) :
  get d r = None -> addPartSpecifier r s d = d.
Proof.
  intros H. unfold addPartSpecifier, getAttribute. rewrite H. simpl.
  by apply alter_element_invalid.
Qed.

Lemma addPartSpecifiers_invalid (r : ref) (specs : list str) (d : DOM) :
  get d r = None -> addPartSpecifiers r specs d = d.
Proof.
  intros H. unfold addPartSpecifiers.
  induction specs as [|s specs IH]; simpl; [done|].
  by rewrite addPartSpecifier_invalid.
Qed.

(** Adding specifiers to an element that carries some appends them, each
    after one space. *)
Lemma addPartSpecifiers_set (r : ref) (v : str) (specs : list str) (d : DOM) :
  addPartSpecifiers r specs (setAttribute r SHADY_PART v d)
  = setAttribute r SHADY_PART
      (v ++ concat (map (fun s => lit " " ++ s) specs)) d.
Proof.
  revert v. unfold addPartSpecifiers.
  induction specs as [|s specs IH]; intros v; simpl.
  - by rewrite app_nil_r.
  - unfold addPartSpecifier at 2.
    rewrite getAttribute_setAttribute, decide_True by done.
    destruct (get d r) as [x|] eqn:Hx.
    + rewrite setAttribute_setAttribute, IH. f_equal.
      by rewrite <- !app_assoc.
    + rewrite setAttribute_setAttribute, IH. unfold setAttribute.
      by rewrite !alter_element_invalid.
Qed.

Lemma join_space (s : str) (specs : list str) :
  join (lit " ") (s :: specs)
  = s ++ concat (map (fun x => lit " " ++ x) specs).
Proof.
  revert s. induction specs as [|x specs IH]; intros s; simpl.
  - by rewrite app_nil_r.
  - specialize (IH x). simpl in IH. by rewrite IH.
Qed.

(** Clearing an element and adding specifiers one by one leaves the
    attribute with the specifiers separated by single spaces, and without
    the attribute when there is no specifier. *)
Lemma addPartSpecifiers_cleared (r : ref) (specs : list str) (d : DOM) :
  addPartSpecifiers r specs (removeAllPartSpecifiers r d)
  = write_attribute r SHADY_PART (shady_value specs) d.
Proof.
  destruct specs as [|s specs]; [done|].
  unfold shady_value, write_attribute. rewrite join_space.
  unfold addPartSpecifiers. simpl fold_left.
  unfold addPartSpecifier at 2, removeAllPartSpecifiers.
  rewrite getAttribute_removeAttribute, decide_True by done.
  rewrite setAttribute_removeAttribute.
  apply addPartSpecifiers_set.
Qed.

(** ** Runs of the scoper *)

Lemma then_run_returns (T1 T2 : run) (d d' : DOM) :
  T1 d = (Normal tt, d') -> then_run T1 T2 d = T2 d'.
Proof. intros H. unfold then_run. by rewrite H. Qed.

Lemma then_run_throws (T1 T2 : run) (d d' : DOM) (e : error) :
  T1 d = (Throw e, d') -> then_run T1 T2 d = (Throw e, d').
Proof. intros H. unfold then_run. by rewrite H. Qed.

Lemma for_run_updates {A : Type} (l : list A) (f : A -> DOM -> DOM) (d : DOM) :
  for_run l (fun x d' => (Normal tt, f x d')) d
  = (Normal tt, fold_left (fun d' x => f x d') l d).
Proof.
  revert d. induction l as [|x l IH]; intros d; [done|].
  simpl. by rewrite (then_run_returns _ _ d (f x d)).
Qed.

Section RunFacts.
Variable si : styleInfo.
Variable hostScope' scope' : str.
Variable registry : gmap str (list nat).

Local Abbreviation follows := (follows si hostScope' scope' registry).
Local Abbreviation answers_kept := (answers_kept si hostScope' scope').
Local Abbreviation answers_below := (answers_below si hostScope' scope').

Lemma answers_kept_refl (c : gmap str (list cacheEntry)) : answers_kept c c.
Proof. by intros name id H. Qed.

Lemma answers_kept_trans (c1 c2 c3 : gmap str (list cacheEntry)) :
  answers_kept c1 c2 -> answers_kept c2 c3 -> answers_kept c1 c3.
Proof. intros H1 H2 name id H. by apply H2, H1. Qed.

Lemma answers_below_kept (ids : str -> str)
  (c c' : gmap str (list cacheEntry)) :
  answers_kept c c' -> answers_below ids c' -> answers_below ids c.
Proof. intros Hk Hb name id H. by apply Hb, Hk. Qed.

Lemma follows_ext (m : M unit) (T T' : (str -> str) -> run) :
  follows m T -> (forall ids d, T ids d = T' ids d) -> follows m T'.
Proof.
  intros Hm HT st Hst. destruct (Hm st Hst) as (H2 & H3 & H4).
  repeat split; try done. intros ids Hids. rewrite <- HT. by apply H4.
Qed.

Lemma follows_ret : follows (ret tt) (fun _ d => (Normal tt, d)).
Proof. intros st Hst. repeat split; try done. apply answers_kept_refl. Qed.

Lemma follows_throw :
  follows (throw TypeError) (fun _ d => (Throw TypeError, d)).
Proof. intros st Hst. repeat split; try done. apply answers_kept_refl. Qed.

Lemma follows_update (f : DOM -> DOM) :
  follows (update f) (fun _ d => (Normal tt, f d)).
Proof. intros st Hst. repeat split; try done. apply answers_kept_refl. Qed.

Lemma follows_seq (m k : M unit) (T1 T2 : (str -> str) -> run) :
  follows m T1 -> follows k T2 ->
  follows (m ;; k) (fun ids => then_run (T1 ids) (T2 ids)).
Proof.
  intros Hm Hk st Hst. unfold bind.
  destruct (Hm st Hst) as (H2 & H3 & H4).
  destruct (m st) as [[[]|e] st1]; simpl in *.
  - destruct (Hk st1 H2) as (K2 & K3 & K4).
    split; [done|]. split; [by apply answers_kept_trans with (partCache st1)|].
    intros ids Hids.
    rewrite (then_run_returns _ _ (tree st) (tree st1)); [by apply K4|].
    symmetry. apply H4. by apply answers_below_kept with (partCache (k st1).2).
  - split; [done|]. split; [done|]. intros ids Hids.
    rewrite (then_run_throws _ _ (tree st) (tree st1) e); [done|].
    symmetry. by apply H4.
Qed.

Lemma follows_for_of {A : Type} (l : list A) (body : A -> M unit)
  (T : A -> (str -> str) -> run) :
  (forall x, follows (body x) (T x)) ->
  follows (for_of l body) (fun ids => for_run l (fun x => T x ids)).
Proof.
  intros Hbody. induction l as [|x l IH]; simpl.
  - apply follows_ret.
  - exact (follows_seq _ _ _ _ (Hbody x) IH).
Qed.

Lemma follows_read {A : Type} (f : DOM -> A) (k : A -> M unit)
  (T : A -> (str -> str) -> run) :
  (forall a, follows (k a) (T a)) ->
  follows (let* a := read f in k a) (fun ids d => T (f d) ids d).
Proof. intros Hk st Hst. unfold bind, read. simpl. by apply Hk. Qed.

Lemma getPartId_answer (name : str) (st : state) :
  exists id,
    (getPartId name hostScope' scope' si st).1 = Normal id
    /\ partRuleCustomProperties (getPartId name hostScope' scope' si st).2
       = partRuleCustomProperties st
    /\ tree (getPartId name hostScope' scope' si st).2 = tree st
    /\ answer si hostScope' scope'
         (partCache (getPartId name hostScope' scope' si st).2) name
       = Some id
    /\ answers_kept (partCache st)
         (partCache (getPartId name hostScope' scope' si st).2).
Proof.
  unfold getPartId. fold (part_key hostScope' scope' name).
  destruct (cache_fetch _ _ _ _) as [e|] eqn:Hfetch; simpl.
  - exists (scopeSelector e). split; [done|]. split; [done|]. split; [done|].
    split; [unfold answer; by rewrite Hfetch|]. by intros name' id H.
  - eexists. split; [done|]. split; [done|]. split; [done|]. split.
    + unfold answer, cache_fetch, cache_store. rewrite lookup_insert_eq.
      simpl.
      assert (validate (styleProperties si) (ownStylePropertyNames si)
                (CacheEntry (styleProperties si)
                   (String_of_number (partNumber st))) = true) as ->; [|done].
      unfold validate. apply forallb_forall. intros x _. simpl.
      by apply bool_decide_eq_true.
    + intros name' id H. unfold answer in *.
      destruct (decide (part_key hostScope' scope' name'
                        = part_key hostScope' scope' name)) as [Heq|Hne].
      * rewrite Heq, Hfetch in H. discriminate.
      * unfold cache_fetch, cache_store in *.
        by rewrite lookup_insert_ne.
Qed.

Lemma follows_getPartId (name : str) (k : str -> M unit)
  (T : str -> (str -> str) -> run) :
  (forall id, follows (k id) (T id)) ->
  follows (let* id := getPartId name hostScope' scope' si in k id)
    (fun ids d => T (ids name) ids d).
Proof.
  intros Hk st Hst. unfold bind.
  destruct (getPartId_answer name st) as (id & H1 & H2 & H3 & H4 & H5).
  destruct (getPartId name hostScope' scope' si st) as [c st1]. simpl in *.
  subst c. rewrite <- H2 in Hst.
  destruct (Hk id st1 Hst) as (K2 & K3 & K4).
  repeat split; try done.
  - by apply answers_kept_trans with (partCache st1).
  - intros ids Hids. rewrite (K4 ids Hids), H3.
    by rewrite (Hids name id (K3 _ _ H4)).
Qed.
End RunFacts.

Lemma fold_left_map_arg {A B C : Type} (f : C -> B -> C) (g : A -> B)
  (l : list A) (c : C) :
  fold_left (fun c' x => f c' (g x)) l c = fold_left f (map g l) c.
Proof. revert c. induction l as [|x l IH]; intros c; simpl; [done|apply IH]. Qed.

Lemma addPartSpecifiers_app (r : ref) (l1 l2 : list str) (d : DOM) :
  addPartSpecifiers r (l1 ++ l2) d
  = addPartSpecifiers r l2 (addPartSpecifiers r l1 d).
Proof. unfold addPartSpecifiers. apply fold_left_app. Qed.

(** *** Part names the loop throws at *)

Lemma throws_at_exported (m : gmap str (list partData)) (name : str) :
  throws_at m name = true -> exported_specifiers m name = [].
Proof.
  unfold throws_at, exported_specifiers, object_get.
  by destruct (m !! name).
Qed.

Lemma throws_at_inherited (m : gmap str (list partData)) (name : str) :
  own_names_only m -> throws_at m name = inherited name.
Proof.
  intros Hm. unfold throws_at.
  destruct (inherited name) eqn:Hn.
  - by rewrite object_get_inherited.
  - rewrite object_get_own by done. by destruct (m !! name).
Qed.

Lemma specifiers_until_all (hs sc : str) (registry : gmap str (list nat))
  (m : gmap str (list partData)) (ids : str -> str) (names : list str) :
  existsb (throws_at m) names = false ->
  specifiers_until hs sc registry m ids names
  = flat_map (specifiers_of_name hs sc registry m ids) names.
Proof.
  induction names as [|name names IH]; [done|]. simpl.
  intros [Hn Hrest]%orb_false_iff. rewrite Hn. by rewrite IH.
Qed.

Section ScoperFacts.
Variable StyleInfo_get : ref -> styleInfo.
Variable applyProperties : rule -> properties -> rule.
Variable host : ref.
Variable hostScope' scope' : str.
Variable registry : gmap str (list nat).
Variable exportPartsMap : gmap str (list partData).

Local Abbreviation follows :=
  (follows (StyleInfo_get host) hostScope' scope' registry).

Lemma follows_styleRule (info : styleInfo) (partId : str) (id : nat) :
  follows (styleRule applyProperties info partId id)
    (fun _ d => (Normal tt, d)).
Proof.
  intros st Hst. unfold styleRule.
  destruct (ruleObjects st !! id); simpl; repeat split; try done;
    apply answers_kept_refl.
Qed.

Lemma follows_addExportedSpecifiers (element : ref) (name : str) :
  follows (addExportedSpecifiers element exportPartsMap name)
    (fun _ d =>
       (completion_of (throws_at exportPartsMap name),
        addPartSpecifiers element (exported_specifiers exportPartsMap name)
          d)).
Proof.
  unfold addExportedSpecifiers, exported_specifiers, throws_at, object_get.
  destruct (exportPartsMap !! name) as [exportParts|]; simpl.
  - eapply follows_ext.
    + apply follows_for_of with
        (T := fun (e : partData) (_ : str -> str) d =>
                (Normal tt,
                 addPartSpecifier element
                   (formatPartSpecifier (partName e) (scope e) (hostScope e))
                   d)).
      intros [hs sc pn]. apply follows_update.
    + intros ids d. cbv beta. rewrite for_run_updates. unfold addPartSpecifiers.
      by rewrite <- fold_left_map_arg.
  - destruct (inherited name); [apply follows_throw|apply follows_ret].
Qed.

Lemma follows_scopePartName (partNode : ref) (name : str) :
  follows
    (scopePartName StyleInfo_get applyProperties host partNode hostScope'
       scope' exportPartsMap name)
    (fun ids d =>
       (completion_of (throws_at exportPartsMap name),
        addPartSpecifiers partNode
          (specifiers_of_name hostScope' scope' registry exportPartsMap ids
             name) d)).
Proof.
  intros st Hst. unfold scopePartName, customPropertyRulesForPart.
  rewrite Hst. fold (has_rules hostScope' scope' registry name).
  revert st Hst.
  change (follows
    ((if has_rules hostScope' scope' registry name
      then
        let styleInfo := StyleInfo_get host in
        let* partId := getPartId name hostScope' scope' styleInfo in
        for_of
          (default [] (registry !! join (lit ":") [hostScope'; scope'; name]))
          (styleRule applyProperties styleInfo partId) ;;
        update (addPartSpecifier partNode
                  (formatPartSpecifier (name ++ lit "_" ++ partId) scope'
                     hostScope'))
      else
        update (addPartSpecifier partNode
                  (formatPartSpecifier name scope' hostScope'))) ;;
     addExportedSpecifiers partNode exportPartsMap name)
    (fun ids d =>
       (completion_of (throws_at exportPartsMap name),
        addPartSpecifiers partNode
          (specifiers_of_name hostScope' scope' registry exportPartsMap ids
             name) d))).
  unfold specifiers_of_name, own_specifier.
  destruct (has_rules hostScope' scope' registry name).
  - eapply follows_ext.
    + eapply follows_seq; [|apply follows_addExportedSpecifiers].
      apply follows_getPartId with
        (T := fun id (_ : str -> str) d =>
                (Normal tt,
                 addPartSpecifier partNode
                   (formatPartSpecifier (name ++ lit "_" ++ id) scope'
                      hostScope') d)).
      intros id. eapply follows_ext.
      * eapply follows_seq; [|apply follows_update].
        apply follows_for_of with (T := fun _ _ d => (Normal tt, d)).
        intros x. apply follows_styleRule.
      * intros ids d. cbv beta.
        rewrite (then_run_returns _ _ d d); [done|].
        rewrite (for_run_updates _ (fun _ d' => d')).
        f_equal. induction (default [] _) as [|x l IH]; [done|apply IH].
    + intros ids d. cbv beta. by erewrite then_run_returns.
  - eapply follows_ext.
    + eapply follows_seq; [apply follows_update|].
      apply follows_addExportedSpecifiers.
    + intros ids d. cbv beta. by erewrite then_run_returns.
Qed.

(** The loop over the part names of a part node. *)
Lemma for_run_names (partNode : ref) (ids : str -> str) (names : list str)
  (d : DOM) :
  for_run names
    (fun name d' =>
       (completion_of (throws_at exportPartsMap name),
        addPartSpecifiers partNode
          (specifiers_of_name hostScope' scope' registry exportPartsMap ids
             name) d')) d
  = (completion_of (existsb (throws_at exportPartsMap) names),
     addPartSpecifiers partNode
       (specifiers_until hostScope' scope' registry exportPartsMap ids names)
       d).
Proof.
  revert d. induction names as [|name names IH]; intros d; [done|].
  simpl. destruct (throws_at exportPartsMap name) eqn:Hn.
  - erewrite then_run_throws; [|done]. simpl. f_equal. f_equal.
    unfold specifiers_of_name. by rewrite throws_at_exported.
  - erewrite then_run_returns; [|done]. rewrite IH. simpl. f_equal.
    by rewrite addPartSpecifiers_app.
Qed.

Lemma follows_scopePartNode (partNode : ref) :
  follows
    (scopePartNode StyleInfo_get applyProperties host hostScope' scope'
       exportPartsMap partNode)
    (fun ids d =>
       (completion_of (node_throws exportPartsMap d partNode),
        rescoped hostScope' scope' registry exportPartsMap ids d partNode)).
Proof.
  unfold scopePartNode. eapply follows_ext.
  - eapply follows_seq; [apply follows_update|].
    apply follows_read with
      (T := fun partAttr ids =>
              for_run (parsePartAttribute partAttr)
                (fun name d' =>
                   (completion_of (throws_at exportPartsMap name),
                    addPartSpecifiers partNode
                      (specifiers_of_name hostScope' scope' registry
                         exportPartsMap ids name) d'))).
    intros partAttr.
    apply (follows_for_of (StyleInfo_get host) hostScope' scope' registry
             (parsePartAttribute partAttr)
             (scopePartName StyleInfo_get applyProperties host partNode
                hostScope' scope' exportPartsMap)
             (fun name ids d' =>
                (completion_of (throws_at exportPartsMap name),
                 addPartSpecifiers partNode
                   (specifiers_of_name hostScope' scope' registry
                      exportPartsMap ids name) d'))).
    intros name. apply follows_scopePartName.
  - intros ids d. cbv beta.
    erewrite then_run_returns; [|done].
    rewrite for_run_names. unfold removeAllPartSpecifiers at 1 2.
    rewrite getAttribute_removeAttribute, decide_False by (by intros [_ ?]).
    unfold node_throws, rescoped. fold PART. f_equal.
    apply addPartSpecifiers_cleared.
Qed.
End ScoperFacts.

(** *** Writing one attribute *)

Lemma getAttribute_write_attribute (r r' : ref) (name name' : str)
  (v : option str) (d : DOM) :
  getAttribute (write_attribute r name v d) r' name'
  = if decide (r = r' /\ name = name')
    then match get d r' with Some _ => v | None => None end
    else getAttribute d r' name'.
Proof.
  destruct v as [v|]; simpl.
  - apply getAttribute_setAttribute.
  - rewrite getAttribute_removeAttribute.
    destruct (decide _); [|done]. by destruct (get d r').
Qed.

Lemma eraseDOM_write_attribute (r : ref) (v : option str) (d : DOM) :
  eraseDOM (write_attribute r SHADY_PART v d) = eraseDOM d.
Proof.
  destruct v; [apply eraseDOM_setAttribute|apply eraseDOM_removeAttribute].
Qed.

Lemma write_attribute_same (r : ref) (name : str) (v : option str) (d : DOM) :
  getAttribute d r name = v -> write_attribute r name v d = d.
Proof.
  destruct v; [apply setAttribute_same|apply removeAttribute_absent].
Qed.

Lemma write_attribute_invalid (r : ref) (name : str) (v : option str)
  (d : DOM) :
  get d r = None -> write_attribute r name v d = d.
Proof. intros H. destruct v; by apply alter_element_invalid. Qed.

Lemma valid_write_attribute (r r' : ref) (name : str) (v : option str)
  (d : DOM) :
  is_Some (get (write_attribute r name v d) r') <-> is_Some (get d r').
Proof. destruct v; apply valid_alter. Qed.

(** Trees that are equal up to specifiers have the same attributes other
    than [shady-part]. *)
Lemma eraseDOM_eq_getAttribute (d d' : DOM) (r : ref) (name : str) :
  eraseDOM d = eraseDOM d' -> name <> SHADY_PART ->
  getAttribute d r name = getAttribute d' r name.
Proof.
  intros He Hn.
  by rewrite <- (getAttribute_eraseDOM d), <- (getAttribute_eraseDOM d'), He.
Qed.

Lemma eraseDOM_eq_localName (d d' : DOM) (r : ref) :
  eraseDOM d = eraseDOM d' -> localName d r = localName d' r.
Proof.
  intros He. by rewrite <- (localName_eraseDOM d), <- (localName_eraseDOM d'), He.
Qed.

Section RescopedFacts.
Variable hostScope' scope' : str.
Variable registry : gmap str (list nat).
Variable exportPartsMap : gmap str (list partData).
Variable ids : str -> str.

Local Abbreviation re :=
  (rescoped hostScope' scope' registry exportPartsMap ids).
Local Abbreviation re_all :=
  (rescoped_all hostScope' scope' registry exportPartsMap ids).
Local Abbreviation value_of :=
  (fun (d : DOM) (r : ref) =>
     shady_value
       (specifiers_until hostScope' scope' registry exportPartsMap ids
          (parsePartAttribute (getAttribute d r PART)))).

Lemma rescoped_all_cons (x : ref) (l : list ref) (d : DOM) :
  re_all (x :: l) d = re_all l (re d x).
Proof. reflexivity. Qed.

Lemma eraseDOM_rescoped (d : DOM) (r : ref) : eraseDOM (re d r) = eraseDOM d.
Proof. apply eraseDOM_write_attribute. Qed.

Lemma eraseDOM_rescoped_all (l : list ref) (d : DOM) :
  eraseDOM (re_all l d) = eraseDOM d.
Proof.
  revert d. induction l as [|x l IH]; intros d; [done|].
  by rewrite rescoped_all_cons, IH, eraseDOM_rescoped.
Qed.

Lemma value_of_eraseDOM (d d' : DOM) (r : ref) :
  eraseDOM d = eraseDOM d' -> value_of d r = value_of d' r.
Proof.
  intros He. simpl. by rewrite (eraseDOM_eq_getAttribute d d' r PART He).
Qed.

Lemma node_throws_eraseDOM (d d' : DOM) (r : ref) :
  eraseDOM d = eraseDOM d' ->
  node_throws exportPartsMap d r = node_throws exportPartsMap d' r.
Proof.
  intros He. unfold node_throws.
  by rewrite (eraseDOM_eq_getAttribute d d' r PART He).
Qed.

Lemma reached_eraseDOM (d d' : DOM) (l : list ref) :
  eraseDOM d = eraseDOM d' ->
  reached exportPartsMap d l = reached exportPartsMap d' l.
Proof.
  intros He. induction l as [|x l IH]; [done|]. simpl.
  by rewrite (node_throws_eraseDOM d d' x He), IH.
Qed.

Lemma existsb_node_throws_eraseDOM (d d' : DOM) (l : list ref) :
  eraseDOM d = eraseDOM d' ->
  existsb (node_throws exportPartsMap d) l
  = existsb (node_throws exportPartsMap d') l.
Proof.
  intros He. induction l as [|x l IH]; [done|]. simpl.
  by rewrite (node_throws_eraseDOM d d' x He), IH.
Qed.

Lemma reached_In (d : DOM) (l : list ref) (r : ref) :
  In r (reached exportPartsMap d l) -> In r l.
Proof.
  induction l as [|x l IH]; [done|]. simpl. intros [->|H]; [by left|].
  right. destruct (node_throws exportPartsMap d x); [done|by apply IH].
Qed.

Lemma reached_all (d : DOM) (l : list ref) :
  existsb (node_throws exportPartsMap d) l = false ->
  reached exportPartsMap d l = l.
Proof.
  induction l as [|x l IH]; [done|]. simpl.
  intros [-> H]%orb_false_iff. by rewrite IH.
Qed.

(** The loop over the part nodes. *)
Lemma for_run_nodes (l : list ref) (d : DOM) :
  for_run l
    (fun x d' => (completion_of (node_throws exportPartsMap d' x), re d' x)) d
  = (completion_of (existsb (node_throws exportPartsMap d) l),
     re_all (reached exportPartsMap d l) d).
Proof.
  revert d. induction l as [|x l IH]; intros d; [done|]. simpl.
  destruct (node_throws exportPartsMap d x) eqn:Hx.
  - rewrite (then_run_throws _ _ d (re d x) TypeError); [done|].
    cbv beta. by rewrite Hx.
  - rewrite (then_run_returns _ _ d (re d x)); [|cbv beta; by rewrite Hx].
    rewrite IH. simpl.
    by rewrite (existsb_node_throws_eraseDOM _ d l (eraseDOM_rescoped d x)),
      (reached_eraseDOM _ d l (eraseDOM_rescoped d x)).
Qed.

Lemma valid_rescoped_all (l : list ref) (d : DOM) (r : ref) :
  is_Some (get (re_all l d) r) <-> is_Some (get d r).
Proof.
  revert d. induction l as [|x l IH]; intros d; [done|].
  rewrite rescoped_all_cons, IH. apply valid_write_attribute.
Qed.

Lemma getAttribute_rescoped_all_other (l : list ref) (d : DOM) (r : ref)
  (name : str) :
  ~ In r l -> getAttribute (re_all l d) r name = getAttribute d r name.
Proof.
  revert d. induction l as [|x l IH]; intros d Hin; [done|].
  rewrite rescoped_all_cons, IH by (intros H; apply Hin; by right).
  unfold rescoped. rewrite getAttribute_write_attribute.
  rewrite decide_False; [done|]. intros [-> _]. apply Hin. by left.
Qed.

(** After the part nodes are rescoped, each of them carries the value
    computed for it. *)
Lemma getAttribute_rescoped_all (l : list ref) (d : DOM) (r : ref) :
  In r l -> is_Some (get d r) ->
  getAttribute (re_all l d) r SHADY_PART = value_of d r.
Proof.
  revert d. induction l as [|x l IH]; intros d Hin Hvalid; [done|].
  rewrite rescoped_all_cons.
  destruct (in_dec ref_eq_dec r l) as [Hl|Hl].
  - rewrite IH; [|done|by apply valid_write_attribute].
    apply value_of_eraseDOM, eraseDOM_rescoped.
  - destruct Hin as [->|Hin]; [|done].
    rewrite (getAttribute_rescoped_all_other l _ r SHADY_PART Hl).
    unfold rescoped. rewrite getAttribute_write_attribute.
    rewrite decide_True by done. by destruct Hvalid as [n ->].
Qed.

Lemma rescoped_settled (l : list ref) (d : DOM) (r : ref) :
  In r l -> re (re_all l d) r = re_all l d.
Proof.
  intros Hin. unfold rescoped.
  destruct (get (re_all l d) r) as [n|] eqn:Hget.
  - apply write_attribute_same.
    rewrite (value_of_eraseDOM _ d r (eraseDOM_rescoped_all l d)).
    apply getAttribute_rescoped_all; [done|].
    apply (valid_rescoped_all l d r). by eexists.
  - by apply write_attribute_invalid.
Qed.

(** Rescoping the part nodes a second time changes nothing. *)
Lemma rescoped_all_idempotent (l : list ref) (d : DOM) :
  re_all l (re_all l d) = re_all l d.
Proof.
  assert (forall l', (forall r, In r l' -> In r l) ->
            re_all l' (re_all l d) = re_all l d) as H.
  { induction l' as [|x l' IH]; intros Hsub; [done|].
    rewrite rescoped_all_cons.
    rewrite rescoped_settled by (apply Hsub; by left).
    apply IH. intros r Hr. apply Hsub. by right. }
  by apply H.
Qed.
End RescopedFacts.

(** ** The tree scoper, as a whole *)

Lemma answers_below_default (si : styleInfo) (hostScope' scope' : str)
  (c : gmap str (list cacheEntry)) :
  answers_below si hostScope' scope'
    (fun name => default [] (answer si hostScope' scope' c name)) c.
Proof. intros name id H. by rewrite H. Qed.

Section ScopeAllHostParts.
Variable StyleInfo_get : ref -> styleInfo.
Variable applyProperties : rule -> properties -> rule.

Local Abbreviation scopeAll :=
  (scopeAllHostParts StyleInfo_get applyProperties).

(** With a shadow root that holds a part node, a root whose scope is known
    and an export map that is resolved, the call rescopes the part nodes of
    the host up to the first at which it throws. *)
Lemma scopeAllHostParts_run (host : ref) (st : state) (sh : list node)
  (hs : str) (m : gmap str (list partData)) :
  shadowRoot (tree st) host = Some sh ->
  querySelectorAll_attr host sh PART <> [] ->
  scopeForRoot (tree st) (getRootNode (tree st) host) = Some hs ->
  getExportPartsMap (tree st) host = Normal m ->
  (scopeAll host st).1
  = completion_of
      (existsb (node_throws m (tree st)) (querySelectorAll_attr host sh PART))
  /\ partRuleCustomProperties (scopeAll host st).2
     = partRuleCustomProperties st
  /\ answers_kept (StyleInfo_get host) hs (localName (tree st) host)
       (partCache st) (partCache (scopeAll host st).2)
  /\ forall ids,
       answers_below (StyleInfo_get host) hs (localName (tree st) host)
         ids (partCache (scopeAll host st).2) ->
       tree (scopeAll host st).2
       = rescoped_all hs (localName (tree st) host)
           (partRuleCustomProperties st) m ids
           (reached m (tree st) (querySelectorAll_attr host sh PART))
           (tree st).
Proof.
  intros Hsh Hnodes Hhs Hm. unfold scopeAllHostParts.
  rewrite Hsh, Hhs, Hm. fold PART.
  assert ((length (querySelectorAll_attr host sh PART) =? 0)%nat = false)
    as ->.
  { by destruct (querySelectorAll_attr host sh PART). }
  unfold bind, lift.
  destruct (follows_for_of (StyleInfo_get host) hs (localName (tree st) host)
              (partRuleCustomProperties st)
              (querySelectorAll_attr host sh PART)
              (scopePartNode StyleInfo_get applyProperties host hs
                 (localName (tree st) host) m)
              (fun partNode ids d =>
                 (completion_of (node_throws m d partNode),
                  rescoped hs (localName (tree st) host)
                    (partRuleCustomProperties st) m ids d partNode))
              (fun partNode =>
                 follows_scopePartNode StyleInfo_get applyProperties host hs
                   (localName (tree st) host) (partRuleCustomProperties st)
                   m partNode)
              st eq_refl) as (H2 & H3 & H4).
  split; [|split; [done|split; [done|]]].
  - specialize (H4 _ (answers_below_default _ _ _ _)).
    rewrite for_run_nodes in H4. by injection H4 as -> _.
  - intros ids Hids. specialize (H4 ids Hids).
    rewrite for_run_nodes in H4. by injection H4 as _ ->.
Qed.

(** Either the call leaves the state alone, or it rescopes the part nodes
    of the host. *)
Lemma scopeAllHostParts_cases (host : ref) (st : state) :
  (scopeAll host st).2 = st
  \/ exists sh hs m,
       shadowRoot (tree st) host = Some sh
       /\ scopeForRoot (tree st) (getRootNode (tree st) host) = Some hs
       /\ getExportPartsMap (tree st) host = Normal m
       /\ (scopeAll host st).1
          = completion_of
              (existsb (node_throws m (tree st))
                 (querySelectorAll_attr host sh PART))
       /\ partRuleCustomProperties (scopeAll host st).2
          = partRuleCustomProperties st
       /\ answers_kept (StyleInfo_get host) hs (localName (tree st) host)
            (partCache st) (partCache (scopeAll host st).2)
       /\ forall ids,
            answers_below (StyleInfo_get host) hs (localName (tree st) host)
              ids (partCache (scopeAll host st).2) ->
            tree (scopeAll host st).2
            = rescoped_all hs (localName (tree st) host)
                (partRuleCustomProperties st) m ids
                (reached m (tree st) (querySelectorAll_attr host sh PART))
                (tree st).
Proof.
  destruct (shadowRoot (tree st) host) as [sh|] eqn:Hsh;
    [|left; unfold scopeAllHostParts; by rewrite Hsh].
  destruct (querySelectorAll_attr host sh PART) as [|x l] eqn:Hl;
    [left; unfold scopeAllHostParts; rewrite Hsh; fold PART; by rewrite Hl|].
  destruct (scopeForRoot (tree st) (getRootNode (tree st) host)) as [hs|]
    eqn:Hhs;
    [|left; unfold scopeAllHostParts; rewrite Hsh, Hhs; fold PART;
      by rewrite Hl].
  destruct (getExportPartsMap (tree st) host) as [m|e] eqn:Hm;
    [|left; unfold scopeAllHostParts; rewrite Hsh, Hhs, Hm; fold PART;
      by rewrite Hl].
  right. exists sh, hs, m. split; [done|]. split; [done|]. split; [done|].
  apply scopeAllHostParts_run; try done. by rewrite Hl.
Qed.

(** The scoper leaves the tree as it was up to specifiers. *)
Lemma eraseDOM_scopeAllHostParts (host : ref) (st : state) :
  eraseDOM (tree (scopeAll host st).2) = eraseDOM (tree st).
Proof.
  destruct (scopeAllHostParts_cases host st) as [->|(sh & hs & m & H)];
    [done|]. destruct H as (_ & _ & _ & _ & _ & _ & H).
  rewrite (H _ (answers_below_default _ _ _ _)).
  apply eraseDOM_rescoped_all.
Qed.

Lemma shadowRoot_eraseDOM_eq (d d' : DOM) (host : ref) (sh : list node) :
  eraseDOM d' = eraseDOM d -> shadowRoot d host = Some sh ->
  exists sh', shadowRoot d' host = Some sh' /\ map erase sh' = map erase sh.
Proof.
  intros He Hsh.
  pose proof (shadowRoot_eraseDOM d' host) as H.
  rewrite He, shadowRoot_eraseDOM, Hsh in H. simpl in H.
  destruct (shadowRoot d' host) as [sh'|]; [|done].
  exists sh'. split; [done|]. simpl in H. congruence.
Qed.

(** C7: a second call of [scopeAllHostParts] on the same host, with nothing
    changed in between, leaves the tree, and so the [shady-part] attribute
    of every element, exactly as the first call left it. *)
Theorem scopeAllHostParts_idempotent (host : ref) (st : state) :
  let st1 := (scopeAllHostParts StyleInfo_get applyProperties host st).2 in
  let st2 := (scopeAllHostParts StyleInfo_get applyProperties host st1).2 in
  tree st2 = tree st1
  /\ forall element,
       getAttribute (tree st2) element SHADY_PART
       = getAttribute (tree st1) element SHADY_PART.
Proof.
  intros st1 st2.
  assert (tree st2 = tree st1) as Heq; [|split; [done|by rewrite Heq]].
  subst st1 st2.
  destruct (scopeAllHostParts_cases host st) as [Hret|(sh & hs & m & H)].
  { rewrite Hret. by rewrite Hret. }
  destruct H as (Hsh & Hhs & Hm & _ & Hreg & Hkept & Htree).
  set (st1 := (scopeAll host st).2) in *.
  pose proof (eraseDOM_scopeAllHostParts host st) as He. fold st1 in He.
  destruct (scopeAllHostParts_cases host st1) as [->|(sh1 & hs1 & m1 & H1)];
    [done|].
  destruct H1 as (Hsh1 & Hhs1 & Hm1 & _ & _ & Hkept1 & Htree1).
  destruct (shadowRoot_eraseDOM_eq _ _ host sh He Hsh) as (sh' & Hsh' & Hmap).
  rewrite Hsh' in Hsh1. injection Hsh1 as <-.
  rewrite <- getRootNode_eraseDOM, <- scopeForRoot_eraseDOM, He,
    scopeForRoot_eraseDOM, getRootNode_eraseDOM, Hhs in Hhs1.
  injection Hhs1 as <-.
  rewrite <- getExportPartsMap_eraseDOM, He, getExportPartsMap_eraseDOM, Hm
    in Hm1. injection Hm1 as <-.
  rewrite (eraseDOM_eq_localName _ _ host He) in Hkept1, Htree1.
  rewrite Hreg in Htree1.
  assert (querySelectorAll_attr host sh' PART
          = querySelectorAll_attr host sh PART) as Hnodes.
  { rewrite <- (querySelectorAll_attr_erase host sh') by done.
    rewrite Hmap. by apply querySelectorAll_attr_erase. }
  rewrite Hnodes, (reached_eraseDOM m _ (tree st) _ He) in Htree1.
  set (ids := fun name =>
         default []
           (answer (StyleInfo_get host) hs (localName (tree st) host)
              (partCache (scopeAll host st1).2) name)).
  rewrite (Htree1 ids (answers_below_default _ _ _ _)).
  rewrite (Htree ids).
  - apply rescoped_all_idempotent.
  - eapply answers_below_kept; [apply Hkept1|].
    apply answers_below_default.
Qed.
End ScopeAllHostParts.

(** ** What the scoping operations leave alone *)

Lemma eraseDOM_addPartSpecifier (r : ref) (s : str) (d : DOM) :
  eraseDOM (addPartSpecifier r s d) = eraseDOM d.
Proof.
  unfold addPartSpecifier.
  destruct (getAttribute d r SHADY_PART); apply eraseDOM_setAttribute.
Qed.

Lemma eraseDOM_addPartSpecifiers (r : ref) (specs : list str) (d : DOM) :
  eraseDOM (addPartSpecifiers r specs d) = eraseDOM d.
Proof.
  revert d. unfold addPartSpecifiers.
  induction specs as [|s specs IH]; intros d; simpl; [done|].
  by rewrite IH, eraseDOM_addPartSpecifier.
Qed.

Lemma keeps_tree_bind {A B : Type} (m : M A) (k : A -> M B) :
  keeps_tree m -> (forall a, keeps_tree (k a)) -> keeps_tree (bind m k).
Proof.
  intros Hm Hk st. unfold bind. specialize (Hm st).
  destruct (m st) as [[a|e] st1]; simpl in *; [|done].
  by rewrite Hk.
Qed.

Lemma keeps_tree_for_of {A : Type} (l : list A) (body : A -> M unit) :
  (forall x, keeps_tree (body x)) -> keeps_tree (for_of l body).
Proof.
  intros Hbody. induction l as [|x l IH]; [done|].
  simpl. apply keeps_tree_bind; [apply Hbody|done].
Qed.

Lemma keeps_tree_update (f : DOM -> DOM) :
  (forall d, eraseDOM (f d) = eraseDOM d) -> keeps_tree (update f).
Proof. intros Hf st. apply Hf. Qed.

Lemma keeps_tree_lift {A : Type} (c : completion A) : keeps_tree (lift c).
Proof. done. Qed.

Lemma keeps_tree_addExportedSpecifiers (element : ref)
  (exportPartsMap : gmap str (list partData)) (name : str) :
  keeps_tree (addExportedSpecifiers element exportPartsMap name).
Proof.
  unfold addExportedSpecifiers.
  destruct (object_get exportPartsMap name) as [|exportParts|]; [done| |done].
  apply keeps_tree_for_of. intros [hs sc pn].
  apply keeps_tree_update. intros d. apply eraseDOM_addPartSpecifier.
Qed.

Lemma keeps_tree_addSpecifiersFor (element : ref) (scope' superScope : str)
  (exportPartsMap : gmap str (list partData)) (name : str) :
  keeps_tree (addSpecifiersFor element scope' superScope exportPartsMap name).
Proof.
  apply keeps_tree_bind.
  - apply keeps_tree_update. intros d. apply eraseDOM_addPartSpecifier.
  - intros _. apply keeps_tree_addExportedSpecifiers.
Qed.

Lemma keeps_tree_addPartSpecifiersToElement (element : ref)
  (partNames : list str) :
  keeps_tree (addPartSpecifiersToElement element partNames).
Proof.
  intros st. unfold addPartSpecifiersToElement.
  destruct (getRootNode (tree st) element) as [|top|host]; [done| |].
  - by destruct (bool_decide _).
  - apply keeps_tree_bind; [apply keeps_tree_lift|]. intros superScope.
    apply keeps_tree_bind; [apply keeps_tree_lift|]. intros m.
    apply keeps_tree_for_of. intros name. apply keeps_tree_addSpecifiersFor.
Qed.

Lemma eraseDOM_onPartAttributeChanged (element : ref)
  (oldValue newValue : option str) (st : state) :
  eraseDOM (tree (onPartAttributeChanged element oldValue newValue st).2)
  = eraseDOM (tree st).
Proof.
  unfold onPartAttributeChanged. destruct (falsy newValue).
  - apply eraseDOM_removeAttribute.
  - apply keeps_tree_addPartSpecifiersToElement.
Qed.

(** C10: the scoping operations write the [shady-part] attribute only.
    Every other attribute of every element, [part] and [exportparts] among
    them, and every local name are after [scopeAllHostParts],
    [addPartSpecifier], [removeAllPartSpecifiers] and
    [onPartAttributeChanged] what they were before. *)
Theorem scoping_writes_shady_part_only (StyleInfo_get : ref -> styleInfo)
  (applyProperties : rule -> properties -> rule) (element : ref)
  (name : str) :
  name <> SHADY_PART ->
  (forall host st,
     getAttribute
       (tree (scopeAllHostParts StyleInfo_get applyProperties host st).2)
       element name
     = getAttribute (tree st) element name
     /\ localName
          (tree (scopeAllHostParts StyleInfo_get applyProperties host st).2)
          element
        = localName (tree st) element)
  /\ (forall target specifier d,
        getAttribute (addPartSpecifier target specifier d) element name
        = getAttribute d element name
        /\ localName (addPartSpecifier target specifier d) element
           = localName d element)
  /\ (forall target d,
        getAttribute (removeAllPartSpecifiers target d) element name
        = getAttribute d element name
        /\ localName (removeAllPartSpecifiers target d) element
           = localName d element)
  /\ (forall target oldValue newValue st,
        getAttribute
          (tree (onPartAttributeChanged target oldValue newValue st).2)
          element name
        = getAttribute (tree st) element name
        /\ localName
             (tree (onPartAttributeChanged target oldValue newValue st).2)
             element
           = localName (tree st) element).
Proof.
  intros Hname. repeat split.
  - apply eraseDOM_eq_getAttribute; [apply eraseDOM_scopeAllHostParts|done].
  - apply eraseDOM_eq_localName, eraseDOM_scopeAllHostParts.
  - apply eraseDOM_eq_getAttribute; [apply eraseDOM_addPartSpecifier|done].
  - apply eraseDOM_eq_localName, eraseDOM_addPartSpecifier.
  - apply eraseDOM_eq_getAttribute; [apply eraseDOM_removeAttribute|done].
  - apply eraseDOM_eq_localName, eraseDOM_removeAttribute.
  - apply eraseDOM_eq_getAttribute; [apply eraseDOM_onPartAttributeChanged|done].
  - apply eraseDOM_eq_localName, eraseDOM_onPartAttributeChanged.
Qed.

(** C10 for the [part] attribute of the innermost part of the worked
    example. *)
Lemma scoping_writes_shady_part_only_witness :
  (forall host st,
     getAttribute
       (tree (scopeAllHostParts Example.no_styleInfo Example.keep_rule host
                st).2) Example.c1 PART
     = getAttribute (tree st) Example.c1 PART
     /\ localName
          (tree (scopeAllHostParts Example.no_styleInfo Example.keep_rule
                   host st).2) Example.c1
        = localName (tree st) Example.c1)
  /\ (forall target specifier d,
        getAttribute (addPartSpecifier target specifier d) Example.c1 PART
        = getAttribute d Example.c1 PART
        /\ localName (addPartSpecifier target specifier d) Example.c1
           = localName d Example.c1)
  /\ (forall target d,
        getAttribute (removeAllPartSpecifiers target d) Example.c1 PART
        = getAttribute d Example.c1 PART
        /\ localName (removeAllPartSpecifiers target d) Example.c1
           = localName d Example.c1)
  /\ (forall target oldValue newValue st,
        getAttribute
          (tree (onPartAttributeChanged target oldValue newValue st).2)
          Example.c1 PART
        = getAttribute (tree st) Example.c1 PART
        /\ localName
             (tree (onPartAttributeChanged target oldValue newValue st).2)
             Example.c1
           = localName (tree st) Example.c1).
Proof.
  apply (scoping_writes_shady_part_only Example.no_styleInfo
           Example.keep_rule Example.c1 PART).
  intros H. vm_compute in H. discriminate H.
Defined.

(** ** Part nodes *)

Lemma descend_app (n : node) (q1 q2 : list step) :
  descend n (q1 ++ q2) = descend n q1 ≫= fun m => descend m q2.
Proof.
  revert n. induction q1 as [|[i|i] q1 IH]; intros [l a c s]; simpl; [done| |].
  - destruct (c !! i); [apply IH|done].
  - destruct s as [sh|]; [|done]. destruct (sh !! i); [apply IH|done].
Qed.

Lemma number_from_valid (i0 : nat) (c : list node) (p : path) (m : node) :
  Forall (fun x => forall q m',
            In (q, m') (elements_in x) -> descend x (map Light q) = Some m') c ->
  In (p, m) (number_from elements_in i0 c) ->
  exists j x,
    p.1 = (i0 + j)%nat /\ c !! j = Some x /\ descend x (map Light p.2) = Some m.
Proof.
  intros H. revert i0. induction H as [|x c Hx Hc IH]; intros i0 Hin;
    simpl in Hin; [done|].
  apply in_app_or in Hin as [Hin|Hin].
  - apply in_map_iff in Hin as ([q m'] & Heq & Hin). simpl in Heq.
    injection Heq as <- <-. exists 0%nat, x. simpl.
    split; [lia|]. split; [done|]. by apply Hx.
  - destruct (IH _ Hin) as (j & y & Hj & Hy & Hd).
    exists (S j), y. split; [lia|]. by split.
Qed.

Lemma elements_in_valid (n : node) (q : list nat) (m : node) :
  In (q, m) (elements_in n) -> descend n (map Light q) = Some m.
Proof.
  revert q m. induction n as [l a c s IH] using node_light_ind.
  intros q m [Heq|Hin].
  - by injection Heq as <- <-.
  - apply in_map_iff in Hin as ([[i q'] m'] & Heq & Hin). simpl in Heq.
    injection Heq as <- <-.
    destruct (number_from_valid 0 c (i, q') m' IH Hin)
      as (j & x & Hj & Hx & Hd). simpl in *. subst i. by rewrite Hx.
Qed.

Lemma elements_below_valid (sh : list node) (p : path) (m : node) :
  In (p, m) (elements_below sh) ->
  exists x, sh !! p.1 = Some x /\ descend x (map Light p.2) = Some m.
Proof.
  intros Hin.
  destruct (number_from_valid 0 sh p m) as (j & x & Hj & Hx & Hd); [|done|].
  - apply Forall_forall. intros x _ q m'. apply elements_in_valid.
  - exists x. simpl in Hj. by subst.
Qed.

(** What [querySelectorAll] returns are elements of the shadow tree that
    carry the attribute. *)
Lemma querySelectorAll_attr_valid (d : DOM) (host : ref) (sh : list node)
  (name : str) (r : ref) :
  shadowRoot d host = Some sh ->
  In r (querySelectorAll_attr host sh name) ->
  exists n, get d r = Some n /\ is_Some (node_attributes n !! name).
Proof.
  intros Hsh Hin. unfold querySelectorAll_attr in Hin.
  apply in_map_iff in Hin as ([p m] & <- & Hin). simpl.
  apply list_elem_of_In, list_elem_of_filter in Hin as [Hattr Hin].
  apply list_elem_of_In, elements_below_valid in Hin as (x & Hx & Hd).
  exists m. split.
  - unfold get. simpl. rewrite descend_app.
    unfold shadowRoot, get in Hsh.
    destruct (descend (root_node d) (steps host)) as [[l a c s]|]; [|done].
    simpl in *. subst s. unfold steps_of_path. simpl. by rewrite Hx.
  - simpl in Hattr. unfold hasAttribute in Hattr.
    by apply bool_decide_unpack in Hattr.
Qed.


(** ** What the tree scoper leaves on the elements *)

(** X1: [scopeAllHostParts] throws a [TypeError] exactly when the host has a
    shadow root with a part node, the scope of the root of the host is
    known, and either resolving the export map throws or a part node has a
    part name that every object inherits from [Object.prototype]; in every
    other case it returns. *)
Theorem scopeAllHostParts_throws (StyleInfo_get : ref -> styleInfo)
  (applyProperties : rule -> properties -> rule) (host : ref) (st : state) :
  (scopeAllHostParts StyleInfo_get applyProperties host st).1
  = Throw TypeError
  <-> exists sh hs,
        shadowRoot (tree st) host = Some sh
        /\ querySelectorAll_attr host sh PART <> []
        /\ scopeForRoot (tree st) (getRootNode (tree st) host) = Some hs
        /\ (getExportPartsMap (tree st) host = Throw TypeError
            \/ exists partNode name,
                 In partNode (querySelectorAll_attr host sh PART)
                 /\ In name
                      (parsePartAttribute
                         (getAttribute (tree st) partNode PART))
                 /\ inherited name = true).
Proof.
  destruct (shadowRoot (tree st) host) as [sh|] eqn:Hsh.
  2: { unfold scopeAllHostParts. rewrite Hsh.
       split; [done|]. by intros (sh & hs & H & _). }
  destruct (querySelectorAll_attr host sh PART) as [|x l] eqn:Hl.
  { unfold scopeAllHostParts. rewrite Hsh. fold PART. rewrite Hl.
    split; [done|]. intros (sh' & hs & [= <-] & Hne & _). by rewrite Hl in Hne. }
  destruct (scopeForRoot (tree st) (getRootNode (tree st) host)) as [hs|]
    eqn:Hhs.
  2: { unfold scopeAllHostParts. rewrite Hsh, Hhs. fold PART. rewrite Hl.
       split; [done|]. by intros (sh' & hs & _ & _ & H & _). }
  destruct (getExportPartsMap (tree st) host) as [m|[]] eqn:Hm.
  - destruct (scopeAllHostParts_run StyleInfo_get applyProperties host st sh
                hs m Hsh) as (Hc & _); [by rewrite Hl|done|done|].
    rewrite Hc, Hl. pose proof (getExportPartsMap_own _ _ _ Hm) as Hown.
    split.
    + intros H.
      destruct (existsb (node_throws m (tree st)) (x :: l)) eqn:He; [|done].
      apply existsb_exists in He as (partNode & Hin & Hnode).
      apply existsb_exists in Hnode as (name & Hname & Hat).
      rewrite throws_at_inherited in Hat by done.
      exists sh, hs. split; [done|]. split; [by rewrite Hl|]. split; [done|].
      right. exists partNode, name. by rewrite Hl.
    + intros (sh' & hs' & [= <-] & _ & _ & [H|(partNode & name & Hin & Hname & Hn)]);
        [done|].
      rewrite Hl in Hin.
      assert (existsb (node_throws m (tree st)) (x :: l) = true) as ->; [|done].
      apply existsb_exists. exists partNode. split; [done|].
      apply existsb_exists. exists name. split; [done|].
      by rewrite throws_at_inherited.
  - assert ((scopeAllHostParts StyleInfo_get applyProperties host st).1
            = Throw TypeError) as ->.
    { unfold scopeAllHostParts. rewrite Hsh, Hhs, Hm. fold PART.
      by rewrite Hl. }
    split; [|done]. intros _. exists sh, hs.
    split; [done|]. split; [by rewrite Hl|]. split; [done|]. by left.
Qed.

(** X1 on the host of [Proto.tree]: its second part is named
    [constructor], and the call throws. *)
Lemma scopeAllHostParts_throws_witness :
  (scopeAllHostParts Example.no_styleInfo Example.keep_rule Proto.x_a
     (initial Proto.tree [])).1 = Throw TypeError.
Proof.
  apply scopeAllHostParts_throws.
  eexists _, (lit "document"). split; [reflexivity|].
  split; [discriminate|]. split; [reflexivity|]. right.
  exists Proto.ctor, (lit "constructor").
  split; [vm_compute; tauto|]. split; [vm_compute; tauto|reflexivity].
Defined.

(** X2: when [scopeAllHostParts] returns, a part node of the host carries,
    joined by single spaces, for each name of its [part] attribute in order:
    the specifier of the name in the scope of the host (with the id the
    cache holds for it when custom-property rules are registered for the
    part), then the specifiers the export map forwards the name to.  A part
    node without part names is left without the attribute. *)
Theorem scopeAllHostParts_part_node (StyleInfo_get : ref -> styleInfo)
  (applyProperties : rule -> properties -> rule) (host : ref) (st : state)
  (sh : list node) (hs : str) (partNode : ref) :
  shadowRoot (tree st) host = Some sh ->
  In partNode (querySelectorAll_attr host sh PART) ->
  scopeForRoot (tree st) (getRootNode (tree st) host) = Some hs ->
  (scopeAllHostParts StyleInfo_get applyProperties host st).1 = Normal tt ->
  let st' := (scopeAllHostParts StyleInfo_get applyProperties host st).2 in
  exists m,
    getExportPartsMap (tree st) host = Normal m
    /\ getAttribute (tree st') partNode SHADY_PART
       = shady_value
           (specifiers_of_part hs (localName (tree st) host)
              (partRuleCustomProperties st) m
              (fun name =>
                 default []
                   (answer (StyleInfo_get host) hs (localName (tree st) host)
                      (partCache st') name))
              (getAttribute (tree st) partNode PART)).
Proof.
  intros Hsh Hin Hhs Hret st'.
  assert (querySelectorAll_attr host sh PART <> []) as Hne.
  { by intros Heq; rewrite Heq in Hin. }
  destruct (getExportPartsMap (tree st) host) as [m|e] eqn:Hm.
  2: { exfalso. revert Hret. unfold scopeAllHostParts.
       rewrite Hsh, Hhs, Hm. fold PART.
       by destruct (querySelectorAll_attr host sh PART). }
  exists m. split; [done|].
  destruct (scopeAllHostParts_run StyleInfo_get applyProperties host st sh hs
              m Hsh Hne Hhs Hm) as (Hc & _ & _ & Htree).
  rewrite Hret in Hc.
  assert (existsb (node_throws m (tree st))
            (querySelectorAll_attr host sh PART) = false) as Hall.
  { by destruct (existsb _ _). }
  subst st'. rewrite (Htree _ (answers_below_default _ _ _ _)).
  rewrite reached_all by done.
  rewrite getAttribute_rescoped_all; [|done|].
  - unfold specifiers_of_part. rewrite specifiers_until_all; [done|].
    destruct (existsb (throws_at m) _) eqn:Hnode; [|done].
    assert (existsb (node_throws m (tree st))
              (querySelectorAll_attr host sh PART) = true) as Habs;
      [|congruence].
    apply existsb_exists. by exists partNode.
  - destruct (querySelectorAll_attr_valid _ _ _ _ _ Hsh Hin) as (n & -> & _).
    by eexists.
Qed.

(** X2 at [x-c] of the worked example: its part [c1] gets the three
    specifiers of the forwarding chain. *)
Lemma scopeAllHostParts_part_node_witness :
  let st := initial Example.document [] in
  let st' :=
    (scopeAllHostParts Example.no_styleInfo Example.keep_rule Example.x_c
       st).2 in
  exists m,
    getExportPartsMap (tree st) Example.x_c = Normal m
    /\ getAttribute (tree st') Example.c1 SHADY_PART
       = shady_value
           (specifiers_of_part (lit "x-b") (localName (tree st) Example.x_c)
              (partRuleCustomProperties st) m
              (fun name =>
                 default []
                   (answer (Example.no_styleInfo Example.x_c) (lit "x-b")
                      (localName (tree st) Example.x_c) (partCache st')
                      name))
              (getAttribute (tree st) Example.c1 PART)).
Proof.
  intros st st'.
  apply (scopeAllHostParts_part_node Example.no_styleInfo Example.keep_rule
           Example.x_c st
           [Example.element "div" [("part", "c1")] [] None]%string
           (lit "x-b") Example.c1).
  - reflexivity.
  - vm_compute. by left.
  - reflexivity.
  - vm_compute. reflexivity.
Defined.

(** X3: [scopeAllHostParts] changes no attribute of an element that is not
    a part node of the host: the specifiers of the parts of other hosts stay
    as they are. *)
Theorem scopeAllHostParts_other_elements (StyleInfo_get : ref -> styleInfo)
  (applyProperties : rule -> properties -> rule) (host : ref) (st : state)
  (element : ref) (name : str) :
  (forall sh, shadowRoot (tree st) host = Some sh ->
              ~ In element (querySelectorAll_attr host sh PART)) ->
  getAttribute
    (tree (scopeAllHostParts StyleInfo_get applyProperties host st).2)
    element name
  = getAttribute (tree st) element name.
Proof.
  intros Hout.
  destruct (scopeAllHostParts_cases StyleInfo_get applyProperties host st)
    as [->|(sh & hs & m & Hsh & _ & _ & _ & _ & _ & Htree)]; [done|].
  rewrite (Htree _ (answers_below_default _ _ _ _)).
  apply getAttribute_rescoped_all_other.
  intros Hin%reached_In. by apply (Hout sh).
Qed.

(** X3 in the worked example: scoping [x-a] leaves the specifiers of the
    part [c1] of [x-c] alone. *)
Lemma scopeAllHostParts_other_elements_witness :
  getAttribute
    (tree (scopeAllHostParts Example.no_styleInfo Example.keep_rule
             Example.x_a
             (Example.scoped_bottom_up Example.no_styleInfo
                Example.keep_rule).2).2) Example.c1 SHADY_PART
  = getAttribute
      (tree (Example.scoped_bottom_up Example.no_styleInfo
               Example.keep_rule).2) Example.c1 SHADY_PART.
Proof.
  apply scopeAllHostParts_other_elements.
  intros sh Hsh. vm_compute in Hsh. injection Hsh as <-.
  vm_compute. intros [H|[]]. discriminate H.
Defined.

Lemma specifiers_until_split (hs sc : str) (registry : gmap str (list nat))
  (m : gmap str (list partData)) (ids : str -> str)
  (good : list str) (bad : str) (later : list str) :
  existsb (throws_at m) good = false -> throws_at m bad = true ->
  specifiers_until hs sc registry m ids (good ++ bad :: later)
  = flat_map (specifiers_of_name hs sc registry m ids) good
    ++ [own_specifier hs sc registry ids bad].
Proof.
  intros Hgood Hbad. induction good as [|name good IH]; simpl.
  - by rewrite Hbad.
  - simpl in Hgood. apply orb_false_iff in Hgood as [-> Hgood].
    by rewrite IH, <- app_assoc.
Qed.

Lemma reached_split (m : gmap str (list partData)) (d : DOM)
  (pre : list ref) (x : ref) (post : list ref) :
  existsb (node_throws m d) pre = false -> node_throws m d x = true ->
  reached m d (pre ++ x :: post) = pre ++ [x].
Proof.
  intros Hpre Hx. induction pre as [|y pre IH]; simpl.
  - by rewrite Hx.
  - simpl in Hpre. apply orb_false_iff in Hpre as [-> Hpre]. by rewrite IH.
Qed.

Lemma existsb_false {A : Type} (f : A -> bool) (l : list A) :
  (forall x, In x l -> f x = false) -> existsb f l = false.
Proof.
  intros H. induction l as [|x l IH]; [done|]. simpl.
  rewrite (H x) by (by left). apply IH. intros y Hy. apply H. by right.
Qed.

(** X23: what [scopeAllHostParts] leaves behind when a part name makes it
    throw.  With the part nodes before [x] free of inherited part names and
    the part attribute of [x] reading [good], then the inherited name
    [bad]: the call throws; the part nodes before [x] are scoped in full;
    [x] carries the specifiers of the names of [good] and then the own
    specifier of [bad], and nothing for the names after it; and every other
    element, the part nodes after [x] among them, is as it was. *)
Theorem scopeAllHostParts_interrupted (StyleInfo_get : ref -> styleInfo)
  (applyProperties : rule -> properties -> rule) (host : ref) (st : state)
  (sh : list node) (hs : str) (m : gmap str (list partData))
  (pre : list ref) (x : ref) (post : list ref)
  (good : list str) (bad : str) (later : list str) :
  shadowRoot (tree st) host = Some sh ->
  querySelectorAll_attr host sh PART = pre ++ x :: post ->
  scopeForRoot (tree st) (getRootNode (tree st) host) = Some hs ->
  getExportPartsMap (tree st) host = Normal m ->
  (forall y name,
     In y pre ->
     In name (parsePartAttribute (getAttribute (tree st) y PART)) ->
     inherited name = false) ->
  parsePartAttribute (getAttribute (tree st) x PART) = good ++ bad :: later ->
  (forall name, In name good -> inherited name = false) ->
  inherited bad = true ->
  let st' := (scopeAllHostParts StyleInfo_get applyProperties host st).2 in
  let sc := localName (tree st) host in
  let ids := fun name =>
    default [] (answer (StyleInfo_get host) hs sc (partCache st') name) in
  (scopeAllHostParts StyleInfo_get applyProperties host st).1
  = Throw TypeError
  /\ (forall y,
        In y pre ->
        getAttribute (tree st') y SHADY_PART
        = shady_value
            (specifiers_of_part hs sc (partRuleCustomProperties st) m ids
               (getAttribute (tree st) y PART)))
  /\ getAttribute (tree st') x SHADY_PART
     = shady_value
         (flat_map
            (specifiers_of_name hs sc (partRuleCustomProperties st) m ids)
            good
          ++ [own_specifier hs sc (partRuleCustomProperties st) ids bad])
  /\ (forall y name,
        ~ In y (pre ++ [x]) ->
        getAttribute (tree st') y name = getAttribute (tree st) y name).
Proof.
  intros Hsh Hnodes Hhs Hm Hpre Hx Hgood Hbad st' sc ids.
  pose proof (getExportPartsMap_own _ _ _ Hm) as Hown.
  assert (existsb (node_throws m (tree st)) pre = false) as Hpre'.
  { apply existsb_false. intros y Hy. apply existsb_false. intros name Hname.
    rewrite throws_at_inherited by done. by apply (Hpre y). }
  assert (existsb (throws_at m) good = false) as Hgood'.
  { apply existsb_false. intros name Hname.
    rewrite throws_at_inherited by done. by apply Hgood. }
  assert (throws_at m bad = true) as Hbad'.
  { by rewrite throws_at_inherited. }
  assert (node_throws m (tree st) x = true) as Hx'.
  { unfold node_throws. rewrite Hx. apply existsb_exists. exists bad.
    split; [|done]. apply in_or_app. right. by left. }
  destruct (scopeAllHostParts_run StyleInfo_get applyProperties host st sh hs
              m Hsh) as (Hc & _ & _ & Htree);
    [by rewrite Hnodes; destruct pre|done|done|].
  specialize (Htree ids (answers_below_default _ _ _ _)).
  rewrite Hnodes, reached_split in Htree by done.
  fold st' in Htree. rewrite Htree.
  assert (forall y, In y (pre ++ x :: post) -> is_Some (get (tree st) y))
    as Hvalid.
  { intros y Hy. rewrite <- Hnodes in Hy.
    destruct (querySelectorAll_attr_valid _ _ _ _ _ Hsh Hy) as (n & -> & _).
    by eexists. }
  split; [|split; [|split]].
  - rewrite Hc, Hnodes. rewrite existsb_app. simpl. rewrite Hx'.
    by rewrite orb_true_r.
  - intros y Hy. rewrite getAttribute_rescoped_all.
    + unfold specifiers_of_part. rewrite specifiers_until_all; [done|].
      apply existsb_false. intros name Hname.
      rewrite throws_at_inherited by done. by apply (Hpre y).
    + apply in_or_app. by left.
    + apply Hvalid. apply in_or_app. by left.
  - rewrite getAttribute_rescoped_all.
    + by rewrite Hx, specifiers_until_split.
    + apply in_or_app. right. by left.
    + apply Hvalid. apply in_or_app. right. by left.
  - intros y name Hy. by apply getAttribute_rescoped_all_other.
Qed.

(** X23 on the host of [Proto.tree]: the part [ok] is scoped, the part
    named [constructor] carries its own specifier, and the part [late]
    after it is left without any. *)
Lemma scopeAllHostParts_interrupted_witness :
  let st' :=
    (scopeAllHostParts Example.no_styleInfo Example.keep_rule Proto.x_a
       (initial Proto.tree [])).2 in
  (scopeAllHostParts Example.no_styleInfo Example.keep_rule Proto.x_a
     (initial Proto.tree [])).1 = Throw TypeError
  /\ getAttribute (tree st') Proto.ok SHADY_PART
     = Some (lit "document_x-a_ok")
  /\ getAttribute (tree st') Proto.ctor SHADY_PART
     = Some (lit "document_x-a_constructor")
  /\ getAttribute (tree st') Proto.late SHADY_PART = None.
Proof.
  intros st'.
  destruct (scopeAllHostParts_interrupted Example.no_styleInfo
              Example.keep_rule Proto.x_a (initial Proto.tree [])
              [Example.element "div" [("part", "ok")] [] None;
               Example.element "div" [("part", "constructor")] [] None;
               Example.element "div" [("part", "late")] [] None;
               Example.element "x-b" [("exportparts", "p:toString")] []
                 (Some [Example.element "div" [("part", "p")] [] None])]%string
              (lit "document") ∅ [Proto.ok] Proto.ctor [Proto.late]
              [] (lit "constructor") [])
    as (Hc & Hpre & Hx & Hother); try reflexivity.
  - intros y name [<-|[]] Hname. vm_compute in Hname.
    destruct Hname as [<-|[]]. reflexivity.
  - intros name [].
  - split; [exact Hc|]. split; [|split].
    + fold st' in Hpre. rewrite (Hpre Proto.ok) by (by left). reflexivity.
    + fold st' in Hx. rewrite Hx. reflexivity.
    + fold st' in Hother. rewrite Hother; [reflexivity|].
      vm_compute. intros [H|[H|[]]]; discriminate H.
Defined.

(** ** Specifiers on elements, from outside *)

(** X4: on an element of the tree, [removeAllPartSpecifiers] followed by
    [addPartSpecifier] for each of [specs] in turn leaves the [shady-part]
    attribute holding the specifiers separated by single spaces; with no
    specifier the attribute is absent. *)
Theorem addPartSpecifier_after_clear (element : ref) (specs : list str)
  (d : DOM) :
  is_Some (get d element) ->
  getAttribute
    (fold_left (fun d' s => addPartSpecifier element s d') specs
       (removeAllPartSpecifiers element d)) element SHADY_PART
  = match specs with
    | [] => None
    | _ => Some (join (lit " ") specs)
    end.
Proof.
  intros [n Hn]. fold (addPartSpecifiers element specs
                         (removeAllPartSpecifiers element d)).
  rewrite addPartSpecifiers_cleared, getAttribute_write_attribute.
  rewrite decide_True by done. by rewrite Hn.
Qed.

(** X4 on the part [a1] of the worked example. *)
Lemma addPartSpecifier_after_clear_witness :
  getAttribute
    (fold_left (fun d' s => addPartSpecifier Example.a1 s d')
       [lit "one"; lit "two"]
       (removeAllPartSpecifiers Example.a1 Example.document))
    Example.a1 SHADY_PART
  = Some (join (lit " ") [lit "one"; lit "two"]).
Proof.
  apply (addPartSpecifier_after_clear Example.a1 [lit "one"; lit "two"]).
  vm_compute. by eexists.
Defined.

(** X5: [onPartAttributeChanged] with an absent or empty new value returns
    and leaves the element without any specifier. *)
Theorem onPartAttributeChanged_cleared (element : ref)
  (oldValue newValue : option str) (st : state) :
  falsy newValue = true ->
  (onPartAttributeChanged element oldValue newValue st).1 = Normal tt
  /\ getAttribute
       (tree (onPartAttributeChanged element oldValue newValue st).2)
       element SHADY_PART = None
  /\ specifiers
       (tree (onPartAttributeChanged element oldValue newValue st).2)
       element = [].
Proof.
  intros H. unfold onPartAttributeChanged, specifiers. rewrite H. simpl.
  unfold removeAllPartSpecifiers.
  rewrite getAttribute_removeAttribute, decide_True by done. done.
Qed.

(** X5 on the scoped part [c1] of the worked example, whose [part]
    attribute was removed. *)
Lemma onPartAttributeChanged_cleared_witness :
  let st :=
    (Example.scoped_bottom_up Example.no_styleInfo Example.keep_rule).2 in
  (onPartAttributeChanged Example.c1 (Some (lit "c1")) None st).1 = Normal tt
  /\ getAttribute
       (tree (onPartAttributeChanged Example.c1 (Some (lit "c1")) None st).2)
       Example.c1 SHADY_PART = None
  /\ specifiers
       (tree (onPartAttributeChanged Example.c1 (Some (lit "c1")) None st).2)
       Example.c1 = [].
Proof.
  intros st. apply onPartAttributeChanged_cleared. reflexivity.
Defined.

(** X6: with a new value that is not empty, [onPartAttributeChanged] does
    nothing for an element that is outside every shadow root (its root is
    the document, or the element itself); and for an element in the shadow
    root of a host that is not connected to the document it throws a
    [TypeError] before writing anything. *)
Theorem onPartAttributeChanged_outside (element : ref)
  (oldValue newValue : option str) (st : state) :
  falsy newValue = false ->
  (getRootNode (tree st) element = RootDocument
   \/ getRootNode (tree st) element = RootElement element ->
   onPartAttributeChanged element oldValue newValue st = (Normal tt, st))
  /\ (forall host top,
        getRootNode (tree st) element = RootShadow host ->
        getRootNode (tree st) host = RootElement top ->
        onPartAttributeChanged element oldValue newValue st
        = (Throw TypeError, st)).
Proof.
  intros H. unfold onPartAttributeChanged, addPartSpecifiersToElement.
  rewrite H. split.
  - intros [->| ->]; [done|]. by rewrite bool_decide_eq_true_2.
  - intros host top -> ->. done.
Qed.

(** X6 on the detached tree: the part in the shadow root of the detached
    [x-a] makes the handler throw, and the state is as before. *)
Lemma onPartAttributeChanged_outside_witness :
  (getRootNode (tree (initial Loose.tree [])) Loose.x_a = RootDocument
   \/ getRootNode (tree (initial Loose.tree [])) Loose.x_a
      = RootElement Loose.x_a ->
   onPartAttributeChanged Loose.x_a None (Some (lit "q"))
     (initial Loose.tree [])
   = (Normal tt, initial Loose.tree []))
  /\ onPartAttributeChanged Loose.p None (Some (lit "q"))
       (initial Loose.tree [])
     = (Throw TypeError, initial Loose.tree []).
Proof.
  split.
  - apply (onPartAttributeChanged_outside Loose.x_a None (Some (lit "q"))
             (initial Loose.tree [])). reflexivity.
  - apply (proj2 (onPartAttributeChanged_outside Loose.p None
                    (Some (lit "q")) (initial Loose.tree []) eq_refl)
             Loose.x_a Loose.x_a); reflexivity.
Defined.

(** X7: [getExportPartsMap] throws a [TypeError] exactly when the host has
    an [exportparts] attribute and either the root of its tree is a detached
    element (it then reads [localName] of the [host] of a root that has
    none), or the host is in the shadow root of a super host whose own root
    has a scope and resolving the map of the super host throws or the
    attribute declares, as inner or as outer name, a name that every object
    inherits from [Object.prototype]; in every other case it returns a
    map. *)
Theorem getExportPartsMap_throws (d : DOM) (host : ref) :
  getExportPartsMap d host = Throw TypeError
  <-> exists attr,
        getAttribute d host EXPORTPARTS = Some attr
        /\ ((exists top, getRootNode d host = RootElement top)
            \/ exists superHost hs,
                 getRootNode d host = RootShadow superHost
                 /\ scopeForRoot d (getRootNode d superHost) = Some hs
                 /\ (getExportPartsMap d superHost = Throw TypeError
                     \/ declares_inherited
                          (parseExportPartsAttribute (Some attr)) = true)).
Proof.
  destruct host as [q|h q].
  - simpl. fold EXPORTPARTS.
    destruct (getAttribute d (InRoot q) EXPORTPARTS) as [a|];
      [|split; [done|by intros (attr & H & _)]].
    destruct d as [c|t]; simpl.
    + split; [done|]. by intros (attr & _ & [[top H]|(s & hs & H & _)]).
    + split; [|done]. intros _. exists a. split; [done|]. left. by eexists.
  - assert (getRootNode d (InShadow h q) = RootShadow h) as Hroot by done.
    rewrite Hroot. cbn [getExportPartsMap getRootNode]. fold EXPORTPARTS.
    destruct (getAttribute d (InShadow h q) EXPORTPARTS) as [a|];
      [|split; [done|by intros (attr & H & _)]].
    destruct (scopeForRoot d (getRootNode d h)) as [hs|] eqn:Hhs.
    2: { split; [done|].
         intros (attr & _ & [[top H]|(s & hs & [= <-] & H & _)]);
           congruence. }
    destruct (getExportPartsMap d h) as [superExports|[]] eqn:Hsuper.
    + rewrite exportPartsLoop_cases by (by apply getExportPartsMap_own in Hsuper).
      destruct (declares_inherited (parseExportPartsAttribute (Some a)))
        eqn:Hd.
      * split; [|done]. intros _. exists a. split; [done|]. right.
        exists h, hs. split; [done|]. split; [done|]. by right.
      * split; [done|].
        intros (attr & [= <-] & [[top H]|(s & hs' & [= <-] & _ & [H|H])]);
          congruence.
    + split; [|done]. intros _. exists a. split; [done|]. right.
      exists h, hs. split; [done|]. split; [done|]. by left.
Qed.

(** X7 on [x-b] of [Proto.tree], which exports a part under the name
    [toString]. *)
Lemma getExportPartsMap_throws_witness :
  getExportPartsMap Proto.tree Proto.x_b = Throw TypeError.
Proof.
  apply getExportPartsMap_throws.
  exists (lit "p:toString"). split; [reflexivity|]. right.
  exists Proto.x_a, (lit "document").
  split; [reflexivity|]. split; [reflexivity|]. right. reflexivity.
Defined.

(** ** Part names *)

Lemma match_length_spaces (s : str) :
  Regex.match_length RE_SPACES s =
  match s with
  | c :: s' =>
    if is_space c then Some (length s - length (trimStart s'))%nat else None
  | [] => None
  end.
Proof.
  unfold Regex.match_length, RE_SPACES. simpl. unfold Regex.plus.
  destruct s as [|c s']; [done|]. destruct (is_space c); [|done].
  unfold Regex.star. rewrite star_greedy_first; [done|by eexists].
Qed.

Lemma words_from_trimStart (s : str) :
  words_from [] (trimStart s) = words_from [] s.
Proof.
  unfold trimStart. induction s as [|c s IH]; simpl; [done|].
  destruct (is_space c) eqn:E; [done|]. simpl. by rewrite E.
Qed.

Lemma words_from_spaces (cur ws : str) :
  Forall (fun c => is_space c = true) ws ->
  words_from cur ws = words_from cur [].
Proof.
  intros H. revert cur. induction H as [|c ws Hc Hws IH]; intros cur; [done|].
  simpl. rewrite Hc. destruct cur; by rewrite IH.
Qed.

Lemma words_from_app_spaces (cur s ws : str) :
  Forall (fun c => is_space c = true) ws ->
  words_from cur (s ++ ws) = words_from cur s.
Proof.
  intros H. revert cur. induction s as [|c s IH]; intros cur; simpl.
  - by apply words_from_spaces.
  - destruct (is_space c); [|apply IH]. destruct cur; by rewrite IH.
Qed.

Lemma drop_while_split (cls : N -> bool) (s : str) :
  exists ws, s = ws ++ drop_while cls s /\ Forall (fun c => cls c = true) ws.
Proof.
  induction s as [|c s (ws & Hs & Hws)]; simpl.
  - by exists [].
  - destruct (cls c) eqn:E.
    + exists (c :: ws). split; [simpl; by f_equal|by constructor].
    + by exists [].
Qed.

Lemma drop_while_head (cls : N -> bool) (s : str) (x : N) (r : str) :
  drop_while cls s = x :: r -> cls x = false.
Proof.
  induction s as [|c s IH]; simpl; [done|].
  destruct (cls c) eqn:E; [done|]. by intros [= <- <-].
Qed.

(** [trimEnd s] is [s] without the white space at its end. *)
Lemma trimEnd_split (s : str) :
  exists ws,
    s = trimEnd s ++ ws
    /\ Forall (fun c => is_space c = true) ws
    /\ forall l c, trimEnd s = l ++ [c] -> is_space c = false.
Proof.
  unfold trimEnd, trimStart.
  destruct (drop_while_split is_space (rev s)) as (ws & Hs & Hws).
  exists (rev ws). split; [|split].
  - rewrite <- rev_app_distr, <- Hs. by rewrite rev_involutive.
  - apply List.Forall_forall. intros c Hc. apply in_rev in Hc.
    rewrite List.Forall_forall in Hws. by apply Hws.
  - intros l c Hl. apply (f_equal (@rev N)) in Hl.
    rewrite rev_involutive, rev_app_distr in Hl. simpl in Hl.
    by apply drop_while_head in Hl.
Qed.

Lemma words_trim (s : str) : words (trim s) = words s.
Proof.
  unfold words, trim.
  destruct (trimEnd_split (trimStart s)) as (ws & Hs & Hws & _).
  rewrite <- (words_from_trimStart s). rewrite Hs at 2.
  by rewrite words_from_app_spaces.
Qed.

(** On a string that neither is empty nor ends in white space, and whose
    pending piece or first code unit is not white space, the split on
    [\\s+] yields the words. *)
Lemma split_loop_words (n : nat) (rest piece : str) :
  (length rest <= n)%nat ->
  (forall l c, rest = l ++ [c] -> is_space c = false) ->
  (piece <> [] \/ exists x r, rest = x :: r /\ is_space x = false) ->
  split_loop (Regex.match_length RE_SPACES) 0 piece rest
  = words_from piece rest.
Proof.
  revert rest piece. induction n as [|n IH]; intros rest piece Hn Hlast Hhead.
  - destruct rest; [|simpl in Hn; lia]. simpl.
    destruct Hhead as [Hp|(x & r & Hx & _)]; [|done]. by destruct piece.
  - destruct rest as [|x r].
    { simpl. destruct Hhead as [Hp|(y & r & Hx & _)]; [|done].
      by destruct piece. }
    simpl in Hn. rewrite split_loop_cons, match_length_spaces. simpl words_from.
    destruct (is_space x) eqn:Ex.
    + destruct Hhead as [Hp|(y & r' & Hx & Hy)];
        [|injection Hx as <- <-; congruence].
      pose proof (trimStart_length r) as Hlen.
      replace (length (x :: r) - length (trimStart r))%nat
        with (S (length r - length (trimStart r))) by (simpl; lia).
      rewrite suffix_drop_length by apply drop_while_suffix.
      rewrite <- (words_from_trimStart r).
      destruct (drop_while_split is_space r) as (ws & Hr & Hws).
      fold (trimStart r) in Hr.
      destruct (trimStart r) as [|y r'] eqn:Et.
      * exfalso. rewrite app_nil_r in Hr. subst ws.
        destruct (exists_last (l := x :: r)) as (l & c & Hl); [done|].
        specialize (Hlast l c Hl).
        assert (In c (x :: r)) as Hin
          by (rewrite Hl; apply in_or_app; right; by left).
        destruct Hin as [<-|Hin]; [congruence|].
        rewrite List.Forall_forall in Hws.
        apply Hws in Hin. congruence.
      * rewrite <- IH.
        -- by destruct piece.
        -- rewrite <- Et. pose proof (trimStart_length r). lia.
        -- intros l c Hl. apply (Hlast (x :: ws ++ l) c).
           rewrite Hr, Hl. simpl. by rewrite app_assoc.
        -- right. exists y, r'. split; [done|].
           unfold trimStart in Et. by apply drop_while_head in Et.
    + apply IH; [lia| |by left].
      intros l c Hl. apply (Hlast (x :: l) c). by rewrite Hl.
Qed.

Lemma words_from_tokens (s cur : str) :
  Forall (fun c => is_space c = false) cur ->
  Forall (fun t => t <> [] /\ Forall (fun c => is_space c = false) t)
    (words_from cur s).
Proof.
  revert cur. induction s as [|c s IH]; intros cur Hcur; simpl.
  - destruct cur as [|x cur]; constructor; [|done].
    split; [|by apply Forall_rev].
    intros H. apply (f_equal (@rev N)) in H.
    rewrite rev_involutive in H. done.
  - destruct (is_space c) eqn:Ec.
    + destruct cur as [|x cur]; [by apply IH|].
      constructor; [|by apply IH]. split; [|by apply Forall_rev].
      intros H. apply (f_equal (@rev N)) in H.
      rewrite rev_involutive in H. done.
    + apply IH. by constructor.
Qed.

(** A value with a character that is not white space splits into its
    words. *)
Lemma parsePartAttribute_nonblank (s : str) :
  (exists c, In c s /\ is_space c = false) ->
  parsePartAttribute (Some s) = words s.
Proof.
  intros (c & Hin & Hc).
  destruct s as [|x r]; [done|]. unfold parsePartAttribute.
  rewrite <- words_trim. unfold split_re, split, words.
  destruct (trimEnd_split (trimStart (x :: r))) as (ws & Hs & Hws & Hlast).
  fold (trim (x :: r)) in Hs, Hlast.
  destruct (drop_while_split is_space (x :: r)) as (ws0 & Hs0 & Hws0).
  fold (trimStart (x :: r)) in Hs0.
  destruct (trim (x :: r)) as [|y t] eqn:Ht.
  - exfalso. simpl in Hs. rewrite Hs in Hs0. rewrite Hs0 in Hin.
    rewrite List.Forall_forall in Hws, Hws0.
    apply in_app_or in Hin as [Hin|Hin];
      [apply Hws0 in Hin|apply Hws in Hin]; congruence.
  - apply (split_loop_words (length (y :: t))); [done|done|].
    right. exists y, t. split; [done|].
    destruct (trimStart (x :: r)) as [|z u] eqn:Ez.
    + simpl in Hs.
      unfold trim in Ht. rewrite Ez in Ht. discriminate.
    + unfold trimStart in Ez. apply drop_while_head in Ez.
      injection Hs as <- _. done.
Qed.

(** X8: for a string with at least one code unit that is not white space,
    [parsePartAttribute] returns its words, the maximal runs of code units
    that are not white space, in order: no token is empty and none holds
    white space.  For [null] and for the empty string it returns the empty
    array. *)
Theorem parsePartAttribute_words (s : str) :
  (exists c, In c s /\ is_space c = false) ->
  parsePartAttribute (Some s) = words s
  /\ Forall (fun t => t <> [] /\ Forall (fun c => is_space c = false) t)
       (parsePartAttribute (Some s))
  /\ parsePartAttribute None = []
  /\ parsePartAttribute (Some []) = [].
Proof.
  intros Hs. pose proof (parsePartAttribute_nonblank s Hs) as Heq.
  repeat split; try done. rewrite Heq. by apply words_from_tokens.
Qed.

(** X8 at ["  foo   bar "]. *)
Lemma parsePartAttribute_words_witness :
  parsePartAttribute (Some (lit "  foo   bar ")) = words (lit "  foo   bar ")
  /\ Forall (fun t => t <> [] /\ Forall (fun c => is_space c = false) t)
       (parsePartAttribute (Some (lit "  foo   bar ")))
  /\ parsePartAttribute None = []
  /\ parsePartAttribute (Some []) = [].
Proof.
  apply parsePartAttribute_words.
  exists 102. split; [vm_compute; tauto|reflexivity].
Defined.

(** ** Export pairs *)

Lemma fields_from_chars (c : N) (s cur f : str) (x : N) :
  ~ In c cur -> In f (fields_from c cur s) -> In x f ->
  (In x cur \/ In x s) /\ x <> c.
Proof.
  revert cur. induction s as [|y s IH]; intros cur Hc Hf Hx; simpl in Hf.
  - destruct Hf as [<-|[]]. apply in_rev in Hx.
    split; [by left|]. by intros ->.
  - destruct (N.eqb_spec y c) as [->|Hne].
    + destruct Hf as [<-|Hf].
      * apply in_rev in Hx. split; [by left|]. by intros ->.
      * destruct (IH [] (fun H => H) Hf Hx) as [[[]|Hs] Hxc].
        split; [right; by right|done].
    + destruct (IH (y :: cur)) as [[[<-|Hcur]|Hs] Hxc]; try done.
      * by intros [->|H].
      * split; [right; by left|done].
      * split; [by left|done].
      * split; [right; by right|done].
Qed.

Lemma in_squash (x : N) (s : str) :
  is_space x = false -> In x (squash s) <-> In x s.
Proof.
  intros Hx. induction s as [|y s IH]; simpl; [done|].
  destruct (is_space y) eqn:Ey; simpl; rewrite IH; [|done].
  split; [by right|]. intros [->|H]; [congruence|done].
Qed.

(** A piece of the split on [\s*c\s*] holds no [c], and the code units it
    holds other than white space are code units of the string. *)
Lemma split_re_piece (c : N) (s p : str) (x : N) :
  is_space c = false -> is_space x = false ->
  In p (split_re (RE_SEP c) s) -> In x p -> In x s /\ x <> c.
Proof.
  intros Hc Hx Hp Hin.
  apply (in_map squash) in Hp. rewrite split_re_fields in Hp by done.
  apply (in_squash x p Hx) in Hin.
  destruct (fields_from_chars c (squash s) [] (squash p) x (fun H => H) Hp Hin)
    as [[[]|Hs] Hne].
  split; [|done]. by apply (in_squash x s Hx).
Qed.

(** X9: no [inner] and no [outer] of an entry of
    [parseExportPartsAttribute] holds a comma or a colon. *)
Theorem parseExportPartsAttribute_names (attr : option str)
  (e : exportPart) :
  In e (parseExportPartsAttribute attr) ->
  ~ In 44 (inner e) /\ ~ In 58 (inner e)
  /\ ~ In 44 (outer e) /\ ~ In 58 (outer e).
Proof.
  intros He. destruct attr as [[|x r]|]; try done.
  unfold parseExportPartsAttribute in He.
  apply in_flat_map in He as (tok & Htok & He).
  rewrite RE_COMMA_sep in Htok.
  assert (forall p, In p (split_re RE_COLON tok) ->
            ~ In 44 p /\ ~ In 58 p) as Hpieces.
  { intros p Hp. rewrite RE_COLON_sep in Hp. split; intros Hin.
    - destruct (split_re_piece 58 tok p 44 eq_refl eq_refl Hp Hin)
        as [Htok' _].
      by destruct (split_re_piece 44 (x :: r) tok 44 eq_refl eq_refl Htok
                     Htok') as [_ Hne].
    - by destruct (split_re_piece 58 tok p 58 eq_refl eq_refl Hp Hin)
        as [_ Hne]. }
  unfold exportPartOfToken in He.
  destruct (split_re RE_COLON tok) as [|a [|b [|z l]]]; simpl in He;
    try done; destruct He as [<-|[]]; simpl.
  - destruct (Hpieces a) as [H1 H2]; [by left|]. done.
  - destruct (Hpieces a) as [H1 H2]; [by left|].
    destruct (Hpieces b) as [H3 H4]; [right; by left|]. done.
Qed.

(** X9 at the entry of ["b : c"] in ["a , b : c"]. *)
Lemma parseExportPartsAttribute_names_witness :
  ~ In 44 (inner (ExportPart (lit "b") (lit "c")))
  /\ ~ In 58 (inner (ExportPart (lit "b") (lit "c")))
  /\ ~ In 44 (outer (ExportPart (lit "b") (lit "c")))
  /\ ~ In 58 (outer (ExportPart (lit "b") (lit "c"))).
Proof.
  apply (parseExportPartsAttribute_names (Some (lit "a , b : c"))).
  vm_compute. right. by left.
Defined.

(** ** Specifier names *)

Lemma app_sep_inj (c : N) (a b x y : str) :
  ~ In c a -> ~ In c b -> a ++ c :: x = b ++ c :: y -> a = b /\ x = y.
Proof.
  revert b. induction a as [|u a IH]; intros [|v b] Ha Hb H; simpl in H.
  - by injection H as ->.
  - injection H as <- _. exfalso. apply Hb. by left.
  - injection H as -> _. exfalso. apply Ha. by left.
  - injection H as -> H.
    destruct (IH b) as [-> ->]; try done.
    + intros Hin. apply Ha. by right.
    + intros Hin. apply Hb. by right.
Qed.

(** X10: [formatPartSpecifier] tells the triples apart whose two scope
    names hold no underscore: equal specifiers then come from equal part
    names, scopes and host scopes.  With an underscore in a scope name two
    different triples can give the same specifier. *)
Theorem formatPartSpecifier_injective :
  (forall partName scope hostScope partName' scope' hostScope',
     ~ In 95 scope -> ~ In 95 hostScope ->
     ~ In 95 scope' -> ~ In 95 hostScope' ->
     formatPartSpecifier partName scope hostScope
     = formatPartSpecifier partName' scope' hostScope' ->
     partName = partName' /\ scope = scope' /\ hostScope = hostScope')
  /\ formatPartSpecifier (lit "z") (lit "y") (lit "w_x")
     = formatPartSpecifier (lit "y_z") (lit "x") (lit "w").
Proof.
  split; [|reflexivity].
  intros p s h p' s' h' Hs Hh Hs' Hh' H. unfold formatPartSpecifier in H.
  change (lit "_") with [95] in H. simpl in H.
  apply app_sep_inj in H as [-> H]; [|done|done].
  apply app_sep_inj in H as [-> ->]; done.
Qed.

(** X10 for the specifier of the part [c1] of [x-c] in [x-b]. *)
Lemma formatPartSpecifier_injective_witness :
  lit "c1" = lit "c1" /\ lit "x-c" = lit "x-c" /\ lit "x-b" = lit "x-b".
Proof.
  apply (proj1 formatPartSpecifier_injective (lit "c1") (lit "x-c")
           (lit "x-b") (lit "c1") (lit "x-c") (lit "x-b"));
    try reflexivity; vm_compute; intuition discriminate.
Defined.

(** ** Part rule registry *)

Lemma for_of_app {A : Type} (l1 l2 : list A) (body : A -> M unit)
  (st : state) :
  for_of (l1 ++ l2) body st
  = match for_of l1 body st with
    | (Normal _, st1) => for_of l2 body st1
    | (Throw e, st1) => (Throw e, st1)
    end.
Proof.
  revert st. induction l1 as [|x l1 IH]; intros st; [done|].
  simpl. unfold bind. destruct (body x st) as [[[]|e] st1]; [|done].
  apply IH.
Qed.

Lemma prepareTemplate_ruleObjects
  (collectPropertiesInCssText : str -> list str) (elementName : str)
  (styleAst : list nat) (st : state) :
  ruleObjects
    (prepareTemplate collectPropertiesInCssText elementName styleAst st).2
  = ruleObjects st.
Proof.
  unfold prepareTemplate. revert st.
  induction styleAst as [|id l IH]; intros st; [done|].
  simpl. unfold bind.
  assert (ruleObjects
            (prepareRule collectPropertiesInCssText elementName id st).2
          = ruleObjects st) as Hone.
  { unfold prepareRule. destruct (ruleObjects st !! id); [|done].
    destruct (includes _ _); [|done]. destruct (_ <? _)%nat; [|done].
    by destruct (parsePartSelector _). }
  destruct (prepareRule collectPropertiesInCssText elementName id st)
    as [[[]|e] st1]; simpl in *; [|done].
  by rewrite IH.
Qed.

(** X11: [prepareTemplate] throws a [TypeError] at the first rule whose
    selector holds [::part], whose declarations consume a custom property,
    and whose selector [parsePartSelector] does not match: the rule is not
    skipped, the rules before it are registered as they are without it, and
    the rules after it are not looked at. *)
Theorem prepareTemplate_unparseable
  (collectPropertiesInCssText : str -> list str) (elementName : str)
  (before : list nat) (id : nat) (rest : list nat) (st : state) (r : rule) :
  (prepareTemplate collectPropertiesInCssText elementName before st).1
  = Normal tt ->
  ruleObjects st !! id = Some r ->
  includes (lit "::part") (selector r) = true ->
  collectPropertiesInCssText (cssText r) <> [] ->
  parsePartSelector (selector r) = None ->
  prepareTemplate collectPropertiesInCssText elementName
    (before ++ id :: rest) st
  = (Throw TypeError,
     (prepareTemplate collectPropertiesInCssText elementName before st).2).
Proof.
  intros Hbefore Hr Hpart Hprops Hparse.
  pose proof (prepareTemplate_ruleObjects collectPropertiesInCssText
                elementName before st) as Hrules.
  unfold prepareTemplate in *. rewrite for_of_app.
  destruct (for_of before _ st) as [[[]|e] st1]; simpl in *; [|done].
  unfold bind, prepareRule. rewrite Hrules, Hr, Hpart, Hparse.
  by destruct (collectPropertiesInCssText (cssText r)).
Qed.

(** X11 for the rule [::part(foo) { color: var(--c) }] after the rule for
    the part [a1] of [x-a], which is registered. *)
Lemma prepareTemplate_unparseable_witness :
  prepareTemplate Rules.consumes_c (lit "x-host") ([1] ++ 0 :: [1])%nat
    (initial Example.document [Rules.bare; Rules.a1])
  = (Throw TypeError,
     (prepareTemplate Rules.consumes_c (lit "x-host") [1%nat]
        (initial Example.document [Rules.bare; Rules.a1])).2)
  /\ customPropertyRulesForPart
       (prepareTemplate Rules.consumes_c (lit "x-host") [1%nat]
          (initial Example.document [Rules.bare; Rules.a1])).2
       (lit "x-host") (lit "x-a") (lit "a1") = [1%nat].
Proof.
  split; [|reflexivity].
  apply (prepareTemplate_unparseable Rules.consumes_c (lit "x-host") [1%nat]
           0 [1%nat] (initial Example.document [Rules.bare; Rules.a1])
           Rules.bare);
    try reflexivity.
  discriminate.
Defined.

(** X12: a rule whose selector holds [::part] and is matched, and whose
    declarations consume a custom property, is appended by [prepareTemplate]
    to the rules that [customPropertyRulesForPart] returns for the element
    name, the custom-element name of the selector and the text of its part
    list; the rules returned for every other key, and the tree, are as
    before. *)
Theorem prepareRule_registers
  (collectPropertiesInCssText : str -> list str) (elementName : str)
  (id : nat) (st : state) (r : rule) (parsed : partSelector) :
  ruleObjects st !! id = Some r ->
  includes (lit "::part") (selector r) = true ->
  collectPropertiesInCssText (cssText r) <> [] ->
  parsePartSelector (selector r) = Some parsed ->
  let st' := (prepareRule collectPropertiesInCssText elementName id st).2 in
  (prepareRule collectPropertiesInCssText elementName id st).1 = Normal tt
  /\ customPropertyRulesForPart st' elementName (ce parsed)
       (default [] (partList parsed))
     = customPropertyRulesForPart st elementName (ce parsed)
         (default [] (partList parsed)) ++ [id]
  /\ (forall a b c,
        join (lit ":") [a; b; c]
        <> join (lit ":")
             [elementName; ce parsed; default [] (partList parsed)] ->
        customPropertyRulesForPart st' a b c
        = customPropertyRulesForPart st a b c)
  /\ tree st' = tree st.
Proof.
  intros Hr Hpart Hprops Hparse. unfold prepareRule.
  rewrite Hr, Hpart, Hparse.
  destruct (collectPropertiesInCssText (cssText r)) as [|x l]; [done|].
  simpl Nat.ltb. cbv iota. cbv zeta. simpl fst. simpl snd.
  unfold customPropertyRulesForPart. simpl partRuleCustomProperties.
  split; [done|]. split; [|split; [|done]].
  - by rewrite lookup_insert_eq.
  - intros a b c Hne. by rewrite lookup_insert_ne.
Qed.

(** X12 for the rule [x-a::part(a1) { color: var(--c) }] of the template of
    [x-host]. *)
Lemma prepareRule_registers_witness :
  let st := initial Example.document [Rules.bare; Rules.a1] in
  let st' := (prepareRule Rules.consumes_c (lit "x-host") 1 st).2 in
  (prepareRule Rules.consumes_c (lit "x-host") 1 st).1 = Normal tt
  /\ customPropertyRulesForPart st' (lit "x-host") (lit "x-a")
       (default [] (Some (lit "a1")))
     = customPropertyRulesForPart st (lit "x-host") (lit "x-a")
         (default [] (Some (lit "a1"))) ++ [1%nat]
  /\ (forall a b c,
        join (lit ":") [a; b; c]
        <> join (lit ":")
             [lit "x-host"; lit "x-a"; default [] (Some (lit "a1"))] ->
        customPropertyRulesForPart st' a b c
        = customPropertyRulesForPart st a b c)
  /\ tree st' = tree st.
Proof.
  intros st.
  apply (prepareRule_registers Rules.consumes_c (lit "x-host") 1 st Rules.a1
           (PartSelector [] (lit "x-a") [] (Some (lit "a1"))));
    try reflexivity.
  discriminate.
Defined.

(** X13: a rule whose selector does not hold [::part], or whose
    declarations consume no custom property, is passed over by
    [prepareTemplate]: nothing is registered and nothing thrown, whether or
    not the selector could be matched. *)
Theorem prepareRule_passes_over
  (collectPropertiesInCssText : str -> list str) (elementName : str)
  (id : nat) (st : state) (r : rule) :
  ruleObjects st !! id = Some r ->
  includes (lit "::part") (selector r) = false
  \/ collectPropertiesInCssText (cssText r) = [] ->
  prepareRule collectPropertiesInCssText elementName id st = (Normal tt, st).
Proof.
  intros Hr H. unfold prepareRule. rewrite Hr.
  destruct (includes _ _); [|done].
  destruct H as [H|H]; [done|]. by rewrite H.
Qed.

(** X13 for the rule [::part(foo)] when its declarations consume no custom
    property. *)
Lemma prepareRule_passes_over_witness :
  prepareRule Example.no_properties (lit "x-host") 0
    (initial Example.document [Rules.bare; Rules.a1])
  = (Normal tt, initial Example.document [Rules.bare; Rules.a1]).
Proof.
  apply (prepareRule_passes_over Example.no_properties (lit "x-host") 0
           (initial Example.document [Rules.bare; Rules.a1]) Rules.bare).
  - reflexivity.
  - by right.
Defined.

(** ** Selectors, in general *)

Section MatcherFacts.
Context {A : Type}.

Lemma lit_match_Some (p s : str) (k : str -> option A) (x : A) :
  Regex.lit_match p s k = Some x -> exists s', s = p ++ s' /\ k s' = Some x.
Proof.
  revert s. induction p as [|c p IH]; intros s H; simpl in H.
  - by exists s.
  - destruct s as [|d s]; [done|].
    destruct (N.eqb_spec c d) as [->|]; [|done].
    destruct (IH _ H) as (s' & -> & Hk). by exists s'.
Qed.

Lemma star_greedy_Some (cls : N -> bool) (k : str -> option A) (s : str)
  (x : A) :
  Regex.star_greedy cls k s = Some x ->
  exists a s',
    s = a ++ s' /\ Forall (fun c => cls c = true) a /\ k s' = Some x.
Proof.
  induction s as [|c s IH]; simpl; intros H.
  - by exists [], [].
  - destruct (cls c) eqn:E; [|by exists [], (c :: s)].
    destruct (Regex.star_greedy cls k s) as [y|] eqn:Hs.
    + injection H as ->. destruct (IH eq_refl) as (a & s' & -> & Ha & Hk).
      exists (c :: a), s'. split; [done|]. split; [by constructor|done].
    + by exists [], (c :: s).
Qed.

Lemma star_lazy_Some (cls : N -> bool) (k : str -> option A) (s : str)
  (x : A) :
  Regex.star_lazy cls k s = Some x ->
  exists a s',
    s = a ++ s' /\ Forall (fun c => cls c = true) a /\ k s' = Some x.
Proof.
  induction s as [|c s IH]; simpl; intros H.
  - destruct (k []) eqn:Hk; [|done]. injection H as ->. by exists [], [].
  - destruct (k (c :: s)) as [y|] eqn:Hk.
    + injection H as ->. by exists [], (c :: s).
    + destruct (cls c) eqn:E; [|done].
      destruct (IH H) as (a & s' & -> & Ha & Hk').
      exists (c :: a), s'. split; [done|]. split; [by constructor|done].
Qed.

Lemma star_Some (g : bool) (cls : N -> bool) (k : str -> option A) (s : str)
  (x : A) :
  Regex.star g cls k s = Some x ->
  exists a s',
    s = a ++ s' /\ Forall (fun c => cls c = true) a /\ k s' = Some x.
Proof. destruct g; [apply star_greedy_Some|apply star_lazy_Some]. Qed.

Lemma plus_Some (g : bool) (cls : N -> bool) (k : str -> option A) (s : str)
  (x : A) :
  Regex.plus g cls k s = Some x ->
  exists a s',
    s = a ++ s' /\ a <> [] /\ Forall (fun c => cls c = true) a
    /\ k s' = Some x.
Proof.
  unfold Regex.plus. destruct s as [|c s]; [done|].
  destruct (cls c) eqn:E; [|done]. intros H.
  destruct (star_Some _ _ _ _ _ H) as (a & s' & -> & Ha & Hk).
  exists (c :: a), s'. split; [done|]. split; [done|].
  split; [by constructor|done].
Qed.
End MatcherFacts.

Lemma exec_from_Some (r : Regex.regex) (n : nat) (s : str)
  (caps : list (option str)) :
  Regex.exec_from r n s = Some caps ->
  exists skipped t,
    s = skipped ++ t
    /\ Regex.run r t (replicate n None) (fun _ c => Some c) = Some caps.
Proof.
  induction s as [|c s IH]; simpl; intros H.
  - destruct (Regex.run r [] _ _) eqn:Hr; [|done]. injection H as ->.
    by exists [], [].
  - destruct (Regex.run r (c :: s) _ _) eqn:Hr.
    + injection H as ->. by exists [], (c :: s).
    + destruct (IH H) as (skipped & t & -> & Ht). by exists (c :: skipped), t.
Qed.

Lemma take_matched (a s : str) : take (length (a ++ s) - length s) (a ++ s) = a.
Proof.
  rewrite length_app.
  replace (length a + length s - length s)%nat with (length a) by lia.
  by rewrite take_app_length.
Qed.

Lemma take_matched_eq (a s s' : str) :
  s = a ++ s' -> take (length s - length s') s = a.
Proof. intros ->. apply take_matched. Qed.

(** What a match of [PART_REGEX] captures. *)
Lemma PART_REGEX_exec (selector : str) (caps : list (option str)) :
  Regex.exec_from PART_REGEX 4 selector = Some caps ->
  exists skipped rest p a b po pl,
    caps = [Some p; Some (a ++ lit "-" ++ b); Some po; pl]
    /\ selector
       = skipped ++ p ++ (a ++ lit "-" ++ b) ++ po ++ lit "::part("
         ++ default [] pl ++ lit ")" ++ rest
    /\ a <> [] /\ Forall (fun c => is_lower c = true) a
    /\ b <> [] /\ Forall (fun c => is_word c = true) b
    /\ Forall (fun c => is_dot c = true) p
    /\ Forall (fun c => is_nonspace c = true) po
    /\ match pl with
       | Some l => l <> [] /\ Forall (fun c => is_dot c = true) l
       | None => True
       end.
Proof.
  intros Hexec.
  apply exec_from_Some in Hexec as (skipped & t & -> & Hrun).
  unfold PART_REGEX in Hrun. cbn [Regex.run replicate] in Hrun.
  apply star_Some in Hrun as (p & s1 & -> & Hp & Hrun).
  apply plus_Some in Hrun as (a & s2 & -> & Ha0 & Ha & Hrun).
  apply lit_match_Some in Hrun as (s3 & -> & Hrun).
  apply plus_Some in Hrun as (b & s4 & -> & Hb0 & Hb & Hrun).
  apply star_Some in Hrun as (po & s5 & -> & Hpo & Hrun).
  apply lit_match_Some in Hrun as (s6 & -> & Hrun).
  rewrite !take_matched in Hrun.
  assert (forall s, take (length (a ++ lit "-" ++ b ++ s) - length s)
                      (a ++ lit "-" ++ b ++ s) = a ++ lit "-" ++ b) as Hce.
  { intros s. apply take_matched_eq. by rewrite <- !app_assoc. }
  rewrite !Hce in Hrun.
  destruct (Regex.star true is_dot _ s6) as [x|] eqn:Hopt.
  - injection Hrun as <-.
    apply star_Some in Hopt as (pl & s7 & -> & Hpl & Hk).
    destruct (length s7 =? length (pl ++ s7))%nat eqn:Hlen; [done|].
    apply lit_match_Some in Hk as (rest & -> & Hk).
    rewrite take_matched in Hk.
    injection Hk as <-. cbn [list_insert insert].
    exists skipped, rest, p, a, b, po, (Some pl).
    split; [done|]. split; [by rewrite <- !app_assoc|].
    repeat split; try done.
    intros ->. by rewrite Nat.eqb_refl in Hlen.
  - apply lit_match_Some in Hrun as (rest & -> & Hk).
    injection Hk as <-. cbn [list_insert insert].
    exists skipped, rest, p, a, b, po, None.
    split; [done|]. split; [by rewrite <- !app_assoc|].
    repeat split; try done.
Qed.

(** X14: a match of [parsePartSelector] cuts the selector, from some start
    on, into [pre], [ce], [post], the text [::part(], the part list, a
    closing parenthesis and a rest.  [ce] is a non-empty run of lower-case
    letters, a hyphen and a non-empty run of word characters; [post] holds
    no white space; [pre] and the part list hold no line terminator; and an
    empty part list is reported as [undefined], not as the empty string. *)
Theorem parsePartSelector_match (selector : str) (r : partSelector) :
  parsePartSelector selector = Some r ->
  exists skipped rest a b,
    selector
    = skipped ++ pre r ++ ce r ++ post r ++ lit "::part("
      ++ default [] (partList r) ++ lit ")" ++ rest
    /\ ce r = a ++ lit "-" ++ b
    /\ a <> [] /\ Forall (fun c => is_lower c = true) a
    /\ b <> [] /\ Forall (fun c => is_word c = true) b
    /\ Forall (fun c => is_dot c = true) (pre r)
    /\ Forall (fun c => is_nonspace c = true) (post r)
    /\ match partList r with
       | Some l => l <> [] /\ Forall (fun c => is_dot c = true) l
       | None => True
       end.
Proof.
  unfold parsePartSelector. intros H.
  destruct (Regex.exec_from PART_REGEX 4 selector) as [caps|] eqn:Hexec;
    [|done].
  destruct (PART_REGEX_exec selector caps Hexec)
    as (skipped & rest & p & a & b & po & pl & -> & Hsel & Hrest).
  injection H as <-. cbn [pre ce post partList].
  by exists skipped, rest, a, b.
Qed.

(** X14 at [.cls x-a.on::part(foo bar)]. *)
Lemma parsePartSelector_match_witness :
  exists skipped rest a b,
    lit ".cls x-a.on::part(foo bar)"
    = skipped ++ lit ".cls " ++ lit "x-a" ++ lit ".on" ++ lit "::part("
      ++ default [] (Some (lit "foo bar")) ++ lit ")" ++ rest
    /\ lit "x-a" = a ++ lit "-" ++ b
    /\ a <> [] /\ Forall (fun c => is_lower c = true) a
    /\ b <> [] /\ Forall (fun c => is_word c = true) b
    /\ Forall (fun c => is_dot c = true) (lit ".cls ")
    /\ Forall (fun c => is_nonspace c = true) (lit ".on")
    /\ (lit "foo bar" <> []
        /\ Forall (fun c => is_dot c = true) (lit "foo bar")).
Proof.
  apply (parsePartSelector_match (lit ".cls x-a.on::part(foo bar)")
           (PartSelector (lit ".cls ") (lit "x-a") (lit ".on")
              (Some (lit "foo bar")))).
  reflexivity.
Defined.

Lemma starts_with_app (p y : str) : starts_with p (p ++ y) = true.
Proof. induction p as [|d p IH]; simpl; [done|]. by rewrite N.eqb_refl. Qed.

Lemma includes_starts_with (p s : str) :
  starts_with p s = true -> includes p s = true.
Proof. intros H. destruct s; simpl; by rewrite H. Qed.

Lemma includes_app (p x y : str) : includes p (x ++ p ++ y) = true.
Proof.
  induction x as [|c x IH].
  - rewrite app_nil_l. apply includes_starts_with, starts_with_app.
  - change (includes p ((c :: x) ++ p ++ y))
      with (starts_with p (c :: x ++ p ++ y) || includes p (x ++ p ++ y)).
    rewrite IH. apply orb_true_r.
Qed.

(** X15: [parsePartSelector] returns none for every selector without a
    hyphen, for every selector that does not hold the text [::part(], and
    for every selector without a closing parenthesis. *)
Theorem parsePartSelector_none (selector : str) :
  ~ In 45 selector
  \/ includes (lit "::part(") selector = false
  \/ ~ In 41 selector ->
  parsePartSelector selector = None.
Proof.
  intros H. unfold parsePartSelector.
  destruct (Regex.exec_from PART_REGEX 4 selector) as [caps|] eqn:Hexec;
    [|done].
  exfalso.
  destruct (PART_REGEX_exec selector caps Hexec)
    as (skipped & rest & p & a & b & po & pl & _ & Hsel & _).
  destruct H as [H|[H|H]].
  - apply H. rewrite Hsel.
    apply in_or_app; right. apply in_or_app; right. apply in_or_app; left.
    apply in_or_app; right. by left.
  - assert (selector
            = (skipped ++ p ++ (a ++ lit "-" ++ b) ++ po) ++ lit "::part("
              ++ (default [] pl ++ lit ")" ++ rest)) as Heq
      by (rewrite Hsel; by rewrite <- !app_assoc).
    rewrite Heq, includes_app in H. discriminate H.
  - apply H. rewrite Hsel.
    do 6 (apply in_or_app; right). apply in_or_app; left. by left.
Qed.

(** X15 at [div::part(foo)], which names an element but no custom
    element. *)
Lemma parsePartSelector_none_witness :
  parsePartSelector (lit "div::part(foo)") = None.
Proof.
  apply parsePartSelector_none. left. vm_compute. intuition discriminate.
Defined.

(** ** Rescoping a subtree *)

Lemma node_full_ind (P : node -> Prop) :
  (forall l a c s,
     Forall P c -> (forall sh, s = Some sh -> Forall P sh) ->
     P (Element l a c s)) ->
  forall n, P n.
Proof.
  intros H. fix IH 1. intros [l a c s]. apply H.
  - induction c as [|x c IHc]; constructor; [apply IH|apply IHc].
  - destruct s as [sh0|]; [|done]. intros sh [= <-].
    induction sh0 as [|x sh0 IHsh]; constructor; [apply IH|apply IHsh].
Qed.

Lemma list_max_map_erase (c : list node) :
  Forall (fun n => height (erase n) = height n) c ->
  list_max (map height (map erase c)) = list_max (map height c).
Proof.
  induction 1 as [|x c Hx Hc IH]; simpl; [done|]. by rewrite Hx, IH.
Qed.

Lemma height_erase (n : node) : height (erase n) = height n.
Proof.
  induction n as [l a c s IHc IHs] using node_full_ind. simpl.
  rewrite (list_max_map_erase c IHc).
  destruct s as [sh|]; simpl; [|done].
  by rewrite (list_max_map_erase sh (IHs sh eq_refl)).
Qed.

Lemma height_lookup (c : list node) (i : nat) (x : node) :
  c !! i = Some x -> (height x <= list_max (map height c))%nat.
Proof.
  intros H.
  assert (Forall (fun k => (k <= list_max (map height c))%nat) (map height c))
    as Hall by (by apply list_max_le).
  rewrite List.Forall_forall in Hall. apply Hall, in_map.
  apply list_elem_of_In. by apply list_elem_of_lookup_2 with i.
Qed.

Lemma height_descend (q : list step) (n m : node) :
  descend n q = Some m -> (height m + length q <= height n)%nat.
Proof.
  revert n. induction q as [|[i|i] q IH]; intros [l a c s] H; simpl in H.
  - injection H as <-. simpl. lia.
  - destruct (c !! i) as [x|] eqn:Hx; [|done].
    pose proof (height_lookup c i x Hx). specialize (IH x H). simpl. lia.
  - destruct s as [sh|]; [|done].
    destruct (sh !! i) as [x|] eqn:Hx; [|done].
    pose proof (height_lookup sh i x Hx). specialize (IH x H). simpl. lia.
Qed.

Lemma get_InShadow (d : DOM) (host : ref) (p : path) :
  get d (InShadow host p)
  = get d host ≫= fun n => descend n (steps_of_path Shadow p).
Proof. unfold get. simpl. apply descend_app. Qed.

(** Trees equal up to specifiers hold, at every address, elements of the
    same height. *)
Lemma height_eraseDOM_eq (d d' : DOM) (r : ref) (n : node) :
  eraseDOM d' = eraseDOM d -> get d' r = Some n ->
  exists n', get d r = Some n' /\ height n' = height n.
Proof.
  intros He Hn. pose proof (get_eraseDOM d' r) as H.
  rewrite He, get_eraseDOM, Hn in H. simpl in H.
  destruct (get d r) as [n'|]; [|done]. exists n'. split; [done|].
  simpl in H. injection H as H.
  by rewrite <- (height_erase n'), H, height_erase.
Qed.

Section RescopeFacts.
Variable StyleInfo_get : ref -> styleInfo.
Variable applyProperties : rule -> properties -> rule.

Local Abbreviation rescope :=
  (rescopeRecursive StyleInfo_get applyProperties).

Lemma for_of_bounded_finishes (f : nat) (l : list ref) (st : state) :
  (forall element st0,
     (exists n, get (tree st0) element = Some n /\ (height n < f)%nat) ->
     exists c st',
       rescope f element st0 = Some (c, st')
       /\ eraseDOM (tree st') = eraseDOM (tree st0)) ->
  (forall r, In r l ->
     exists n, get (tree st) r = Some n /\ (height n < f)%nat) ->
  exists c st',
    for_of_bounded (rescope f) l st = Some (c, st')
    /\ eraseDOM (tree st') = eraseDOM (tree st).
Proof.
  intros IH. revert st. induction l as [|x l IHl]; intros st Hl; simpl.
  - by exists (Normal tt), st.
  - destruct (IH x st) as ([[]|e] & st1 & -> & He1); [apply Hl; by left| |].
    + destruct (IHl st1) as (c & st2 & -> & He2).
      * intros r Hr. destruct (Hl r) as (n & Hn & Hh); [by right|].
        destruct (height_eraseDOM_eq (tree st1) (tree st) r n)
          as (n' & Hn' & Hh'); [done|done|].
        exists n'. split; [done|lia].
      * exists c, st2. split; [done|]. by rewrite He2.
    + by exists (Throw e), st1.
Qed.

(** With more fuel than the element is high, the rescoping finishes and
    leaves the tree as it was up to specifiers. *)
Lemma rescopeRecursive_finishes (f : nat) (element : ref) (st : state) :
  (0 < f)%nat ->
  (forall n, get (tree st) element = Some n -> (height n < f)%nat) ->
  exists c st',
    rescope f element st = Some (c, st')
    /\ eraseDOM (tree st') = eraseDOM (tree st).
Proof.
  revert element st. induction f as [|f IH]; intros element st Hf Hh; [lia|].
  simpl. destruct (shadowRoot (tree st) element) as [sh0|] eqn:Hsh0;
    [|by exists (Normal tt), st].
  pose proof (eraseDOM_scopeAllHostParts StyleInfo_get applyProperties element
                st) as He.
  destruct (scopeAllHostParts StyleInfo_get applyProperties element st)
    as [[[]|e] st1]; simpl in He; [|by exists (Throw e), st1].
  destruct (shadowRoot_eraseDOM_eq _ _ element sh0 He Hsh0)
    as (sh1 & Hsh1 & _).
  rewrite Hsh1.
  destruct (for_of_bounded_finishes f
              (querySelectorAll_attr element sh1 (lit "exportparts")) st1)
    as (c & st2 & Hloop & He2).
  - intros child st0 (n & Hn & Hlt). apply IH; [lia|].
    intros n' Hn'. congruence.
  - intros r Hr.
    destruct (querySelectorAll_attr_valid _ _ _ _ _ Hsh1 Hr) as (m & Hm & _).
    exists m. split; [done|].
    unfold querySelectorAll_attr in Hr.
    apply in_map_iff in Hr as ([p x] & <- & _). simpl in Hm.
    rewrite get_InShadow in Hm.
    destruct (get (tree st1) element) as [n1|] eqn:Hn1; [|done].
    cbn [mbind option_bind] in Hm. apply height_descend in Hm.
    destruct (height_eraseDOM_eq (tree st) (tree st1) element n1)
      as (n0 & Hn0 & Hh0); [done|done|].
    specialize (Hh n0 Hn0). unfold steps_of_path in Hm. simpl in Hm. lia.
  - exists c, st2. split; [done|]. by rewrite He2.
Qed.

(** More fuel does not change a run that finished. *)
Lemma for_of_bounded_more (f f' : nat) (l : list ref) (st : state)
  (r : completion unit * state) :
  (forall element st0 r0,
     rescope f element st0 = Some r0 -> rescope f' element st0 = Some r0) ->
  for_of_bounded (rescope f) l st = Some r ->
  for_of_bounded (rescope f') l st = Some r.
Proof.
  intros IH. revert st. induction l as [|x l IHl]; intros st; simpl; [done|].
  destruct (rescope f x st) as [[[u|e] st1]|] eqn:Hx; [| |done].
  - rewrite (IH _ _ _ Hx). apply IHl.
  - by rewrite (IH _ _ _ Hx).
Qed.

Lemma rescopeRecursive_more (f f' : nat) (element : ref) (st : state)
  (r : completion unit * state) :
  (f <= f')%nat ->
  rescope f element st = Some r -> rescope f' element st = Some r.
Proof.
  revert f' element st r. induction f as [|f IH];
    intros f' element st r Hle H; [done|].
  destruct f' as [|f']; [lia|]. simpl in *.
  destruct (shadowRoot (tree st) element); [|done].
  destruct (scopeAllHostParts StyleInfo_get applyProperties element st)
    as [[u|e] st1]; [|done].
  apply (for_of_bounded_more f f'); [|done].
  intros child st0 r0. apply IH. lia.
Qed.

Lemma tree_height_get (d : DOM) (r : ref) (n : node) :
  get d r = Some n -> (height n < tree_height d)%nat.
Proof.
  unfold get, tree_height. intros H. apply height_descend in H.
  destruct (steps_nonempty r) as (s & q & Hs). rewrite Hs in H. simpl in H.
  lia.
Qed.

Lemma tree_height_pos (d : DOM) : (0 < tree_height d)%nat.
Proof. unfold tree_height. destruct (root_node d). simpl. lia. Qed.
End RescopeFacts.

Lemma inside_depth (host r : ref) :
  inside host r = true -> (depth host < depth r)%nat.
Proof.
  induction r as [p|h IH p]; simpl; [done|].
  intros [H|H]%orb_true_iff.
  - apply bool_decide_eq_true in H as ->. lia.
  - specialize (IH H). lia.
Qed.

Lemma inside_trans (e c r : ref) :
  inside e c = true -> inside c r = true -> inside e r = true.
Proof.
  intros Hec. induction r as [p|h IH p]; simpl; [done|].
  intros [H|H]%orb_true_iff; apply orb_true_iff; right.
  - by apply bool_decide_eq_true in H as ->.
  - by apply IH.
Qed.

Lemma querySelectorAll_attr_inside (host : ref) (sh : list node) (name : str)
  (r : ref) :
  In r (querySelectorAll_attr host sh name) -> exists p, r = InShadow host p.
Proof.
  unfold querySelectorAll_attr. intros ([p x] & <- & _)%in_map_iff.
  by exists p.
Qed.

Lemma inside_child (host : ref) (p : path) (r : ref) :
  inside (InShadow host p) r = true -> inside host r = true.
Proof.
  apply inside_trans. simpl. apply orb_true_iff. left.
  by apply bool_decide_eq_true.
Qed.

Lemma inside_sibling (host : ref) (p q : path) :
  inside (InShadow host p) (InShadow host q) = false.
Proof.
  destruct (inside (InShadow host p) (InShadow host q)) eqn:H; [|done].
  apply inside_depth in H. simpl in H. lia.
Qed.

Section RescopeLocal.
Variable StyleInfo_get : ref -> styleInfo.
Variable applyProperties : rule -> properties -> rule.

Local Abbreviation rescope :=
  (rescopeRecursive StyleInfo_get applyProperties).

(** One host's scoping leaves every element outside its shadow tree as it
    was, specifiers included. *)
Lemma scopeAllHostParts_outside (host : ref) (st : state) (r : ref)
  (name : str) :
  inside host r = false ->
  getAttribute
    (tree (scopeAllHostParts StyleInfo_get applyProperties host st).2) r name
  = getAttribute (tree st) r name.
Proof.
  intros Hout.
  destruct (scopeAllHostParts_cases StyleInfo_get applyProperties host st)
    as [->|(sh & hs & m & Hsh & _ & _ & _ & _ & _ & Htree)]; [done|].
  rewrite (Htree _ (answers_below_default _ _ _ _)).
  apply getAttribute_rescoped_all_other.
  intros [p ->]%reached_In%querySelectorAll_attr_inside. simpl in Hout.
  apply orb_false_iff in Hout as [Hout _].
  by apply bool_decide_eq_false in Hout.
Qed.

Lemma for_of_bounded_outside (f : nat) (l : list ref) (st : state)
  (c : completion unit) (st' : state) (r : ref) (name : str) :
  (forall element st0 c0 st0',
     In element l ->
     rescope f element st0 = Some (c0, st0') ->
     getAttribute (tree st0') r name = getAttribute (tree st0) r name) ->
  for_of_bounded (rescope f) l st = Some (c, st') ->
  getAttribute (tree st') r name = getAttribute (tree st) r name.
Proof.
  revert st. induction l as [|x l IHl]; intros st Hbody H; simpl in H.
  - by injection H as _ <-.
  - destruct (rescope f x st) as [[[u|e] st1]|] eqn:Hx; [| |done].
    + rewrite (IHl st1); [|intros; eapply Hbody; [by right|done]|done].
      eapply Hbody; [by left|done].
    + injection H as _ <-. eapply Hbody; [by left|done].
Qed.

Lemma rescopeRecursive_outside (f : nat) (element : ref) (st : state)
  (c : completion unit) (st' : state) (r : ref) (name : str) :
  inside element r = false ->
  rescope f element st = Some (c, st') ->
  getAttribute (tree st') r name = getAttribute (tree st) r name.
Proof.
  revert element st c st'. induction f as [|f IH];
    intros element st c st' Hout H; [done|].
  simpl in H. destruct (shadowRoot (tree st) element) as [sh0|];
    [|by injection H as _ <-].
  pose proof (scopeAllHostParts_outside element st r name Hout) as Hone.
  destruct (scopeAllHostParts StyleInfo_get applyProperties element st)
    as [[u|e] st1]; simpl in Hone; [|by injection H as _ <-].
  rewrite <- Hone.
  eapply (for_of_bounded_outside f _ st1 c st' r name); [|exact H].
  intros child st0 c0 st0' Hchild. apply IH.
  destruct (shadowRoot (tree st1) element) as [sh1|]; [|done].
  apply querySelectorAll_attr_inside in Hchild as [p ->].
  destruct (inside (InShadow element p) r) eqn:Hin; [|done].
  apply inside_child in Hin. congruence.
Qed.
End RescopeLocal.

Section RescopeResults.
Variable StyleInfo_get : ref -> styleInfo.
Variable applyProperties : rule -> properties -> rule.

Local Abbreviation rescope :=
  (rescopeRecursive StyleInfo_get applyProperties).

(** Fuel for the height of the tree is enough, and more changes nothing. *)
Lemma rescopeRecursive_enough (element : ref) (st : state) :
  exists c st',
    (forall fuel,
       (tree_height (tree st) <= fuel)%nat ->
       rescope fuel element st = Some (c, st'))
    /\ eraseDOM (tree st') = eraseDOM (tree st).
Proof.
  destruct (rescopeRecursive_finishes StyleInfo_get applyProperties
              (tree_height (tree st)) element st) as (c & st' & Hrun & He).
  - apply tree_height_pos.
  - intros n Hn. by apply tree_height_get with element.
  - exists c, st'. split; [|done]. intros fuel Hle.
    by apply rescopeRecursive_more with (tree_height (tree st)).
Qed.
End RescopeResults.

(** X16. [rescopeRecursive] terminates on every tree: with fuel for the
    height of the tree (or any more) the model finishes, by returning or by
    throwing, always the same way and in the same state; no attribute other
    than [shady-part] and no local name differs afterwards. *)
Theorem rescopeRecursive_terminates (StyleInfo_get : ref -> styleInfo)
  (applyProperties : rule -> properties -> rule) (element : ref)
  (st : state) :
  exists c st',
    (forall fuel,
       (tree_height (tree st) <= fuel)%nat ->
       rescopeRecursive StyleInfo_get applyProperties fuel element st
       = Some (c, st'))
    /\ (forall r name,
          name <> SHADY_PART ->
          getAttribute (tree st') r name = getAttribute (tree st) r name)
    /\ (forall r, localName (tree st') r = localName (tree st) r).
Proof.
  destruct (rescopeRecursive_enough StyleInfo_get applyProperties element st)
    as (c & st' & Hrun & He).
  exists c, st'. split; [done|]. split.
  - intros r name Hname. by apply eraseDOM_eq_getAttribute.
  - intros r. by apply eraseDOM_eq_localName.
Qed.

(** X16 on the worked example: rescoping from [x-a] with fuel 6 finishes,
    and the innermost part keeps its [part] attribute. *)
Lemma rescopeRecursive_terminates_witness :
  exists c st',
    rescopeRecursive Example.no_styleInfo Example.keep_rule 6 Example.x_a
      (initial Example.document []) = Some (c, st')
    /\ getAttribute (tree st') Example.c1 PART = Some (lit "c1").
Proof.
  destruct (rescopeRecursive_terminates Example.no_styleInfo
              Example.keep_rule Example.x_a (initial Example.document []))
    as (c & st' & Hrun & Hattr & _).
  exists c, st'. split.
  - apply Hrun. vm_compute. lia.
  - rewrite Hattr; [reflexivity|].
    intros H. vm_compute in H. discriminate H.
Defined.

(** X17. [rescopeRecursive] is local: whatever the run returns, an element
    that lies neither in the shadow tree of [element] nor in a shadow tree
    nested in it has all its attributes, specifiers included, as before. *)
Theorem rescopeRecursive_local (StyleInfo_get : ref -> styleInfo)
  (applyProperties : rule -> properties -> rule) (fuel : nat)
  (element : ref) (st : state) (c : completion unit) (st' : state)
  (r : ref) (name : str) :
  inside element r = false ->
  rescopeRecursive StyleInfo_get applyProperties fuel element st
  = Some (c, st') ->
  getAttribute (tree st') r name = getAttribute (tree st) r name.
Proof. apply rescopeRecursive_outside. Qed.

(** X17 on the worked example: once [x-a] is scoped, rescoping [x-b] leaves
    the specifier of the part [a1], which is outside [x-b]. *)
Lemma rescopeRecursive_local_witness :
  inside Example.x_b Example.a1 = false
  /\ exists c st',
       rescopeRecursive Example.no_styleInfo Example.keep_rule 6 Example.x_b
         (scopeAllHostParts Example.no_styleInfo Example.keep_rule
            Example.x_a (initial Example.document [])).2
       = Some (c, st')
       /\ getAttribute (tree st') Example.a1 SHADY_PART
          = getAttribute
              (tree (scopeAllHostParts Example.no_styleInfo Example.keep_rule
                       Example.x_a (initial Example.document [])).2)
              Example.a1 SHADY_PART.
Proof.
  split; [reflexivity|].
  destruct (rescopeRecursive Example.no_styleInfo Example.keep_rule 6
              Example.x_b
              (scopeAllHostParts Example.no_styleInfo Example.keep_rule
                 Example.x_a (initial Example.document [])).2)
    as [[c st']|] eqn:H.
  - exists c, st'. split; [reflexivity|].
    apply (rescopeRecursive_local Example.no_styleInfo Example.keep_rule 6
             Example.x_b _ c st' Example.a1 SHADY_PART); [reflexivity|exact H].
  - vm_compute in H. discriminate H.
Defined.

(** X18. The recursion of [rescopeRecursive] does not disturb what its first
    step did: an element directly in the shadow tree of [element] ends with
    the attributes that [scopeAllHostParts element] alone gives it. *)
Theorem rescopeRecursive_own_parts (StyleInfo_get : ref -> styleInfo)
  (applyProperties : rule -> properties -> rule) (fuel : nat)
  (element : ref) (st : state) (c : completion unit) (st' : state)
  (p : path) (name : str) :
  rescopeRecursive StyleInfo_get applyProperties fuel element st
  = Some (c, st') ->
  getAttribute (tree st') (InShadow element p) name
  = getAttribute
      (tree (scopeAllHostParts StyleInfo_get applyProperties element st).2)
      (InShadow element p) name.
Proof.
  destruct fuel as [|f]; [done|]. simpl. intros H.
  destruct (shadowRoot (tree st) element) as [sh0|] eqn:Hsh0.
  - destruct (scopeAllHostParts StyleInfo_get applyProperties element st)
      as [[u|e] st1]; simpl; [|by injection H as _ <-].
    eapply (for_of_bounded_outside StyleInfo_get applyProperties f _ st1 c st');
      [|exact H].
    intros child st0 c0 st0' Hchild.
    apply rescopeRecursive_outside.
    destruct (shadowRoot (tree st1) element) as [sh1|]; [|done].
    apply querySelectorAll_attr_inside in Hchild as [q ->].
    apply inside_sibling.
  - injection H as _ <-. unfold scopeAllHostParts. by rewrite Hsh0.
Qed.

(** X18 on the worked example: rescoping from [x-a] leaves on the part [a1]
    the specifier that scoping [x-a] alone writes. *)
Lemma rescopeRecursive_own_parts_witness :
  exists c st',
    rescopeRecursive Example.no_styleInfo Example.keep_rule 6 Example.x_a
      (initial Example.document []) = Some (c, st')
    /\ getAttribute (tree st') Example.a1 SHADY_PART
       = getAttribute
           (tree (scopeAllHostParts Example.no_styleInfo Example.keep_rule
                    Example.x_a (initial Example.document [])).2)
           Example.a1 SHADY_PART.
Proof.
  destruct (rescopeRecursive Example.no_styleInfo Example.keep_rule 6
              Example.x_a (initial Example.document []))
    as [[c st']|] eqn:H.
  - exists c, st'. split; [reflexivity|].
    exact (rescopeRecursive_own_parts Example.no_styleInfo Example.keep_rule
             6 Example.x_a _ c st' (0%nat, []) SHADY_PART H).
  - vm_compute in H. discriminate H.
Defined.

(** X19. [onInsertBefore] terminates: with fuel for the height of the tree
    it finishes, by returning or by throwing; it writes no attribute other
    than [shady-part]; and it leaves every attribute of an element that is
    not inside the shadow host of the new node.  When the new node is in no
    shadow tree it returns and the state is as before. *)
Theorem onInsertBefore_finishes (StyleInfo_get : ref -> styleInfo)
  (applyProperties : rule -> properties -> rule)
  (parentNode newNode : ref) (referenceNode : option ref) (st : state) :
  exists c st',
    (forall fuel,
       (tree_height (tree st) <= fuel)%nat ->
       onInsertBefore StyleInfo_get applyProperties fuel parentNode newNode
         referenceNode st = Some (c, st'))
    /\ (forall r name,
          name <> SHADY_PART ->
          getAttribute (tree st') r name = getAttribute (tree st) r name)
    /\ (forall r name,
          (forall host,
             root_host (getRootNode (tree st) newNode) = Some host ->
             inside host r = false) ->
          getAttribute (tree st') r name = getAttribute (tree st) r name)
    /\ (root_host (getRootNode (tree st) newNode) = None ->
        c = Normal tt /\ st' = st).
Proof.
  unfold onInsertBefore.
  destruct (root_host (getRootNode (tree st) newNode)) as [host|].
  - destruct (rescopeRecursive_enough StyleInfo_get applyProperties host st)
      as (c & st' & Hrun & He).
    exists c, st'. split; [done|]. split; [|split; [|done]].
    + intros r name Hname. by apply eraseDOM_eq_getAttribute.
    + intros r name Hout.
      apply (rescopeRecursive_outside StyleInfo_get applyProperties
               (tree_height (tree st)) host st c st');
        [by apply Hout|by apply Hrun].
  - by exists (Normal tt), st.
Qed.

(** X19 on the worked example: inserting next to the part [b1], in the
    shadow tree of [x-b], finishes and leaves the [exportparts] attribute of
    [x-b] and the part [a1] of the enclosing tree. *)
Lemma onInsertBefore_finishes_witness :
  exists c st',
    onInsertBefore Example.no_styleInfo Example.keep_rule 6 Example.x_b
      Example.b1 None (initial Example.document []) = Some (c, st')
    /\ getAttribute (tree st') Example.x_b EXPORTPARTS
       = Some (lit "b1:a2,b2:a3")
    /\ getAttribute (tree st') Example.a1 SHADY_PART = None.
Proof.
  destruct (onInsertBefore_finishes Example.no_styleInfo Example.keep_rule
              Example.x_b Example.b1 None (initial Example.document []))
    as (c & st' & Hrun & Hattr & Hout & _).
  exists c, st'. split; [|split].
  - apply Hrun. vm_compute. lia.
  - rewrite Hattr; [reflexivity|].
    intros H. vm_compute in H. discriminate H.
  - rewrite Hout; [reflexivity|].
    intros host H. vm_compute in H. by injection H as <-.
Defined.

(** X20. [onExportPartsAttributeChanged] terminates: with fuel for the
    height of the tree it finishes, by returning or by throwing, the same
    way whatever the old and the new value; it writes no attribute other
    than [shady-part], and touches nothing outside the shadow trees below
    the element. *)
Theorem onExportPartsAttributeChanged_finishes
  (StyleInfo_get : ref -> styleInfo)
  (applyProperties : rule -> properties -> rule) (element : ref)
  (st : state) :
  exists c st',
    (forall fuel oldValue newValue,
       (tree_height (tree st) <= fuel)%nat ->
       onExportPartsAttributeChanged StyleInfo_get applyProperties fuel
         element oldValue newValue st = Some (c, st'))
    /\ (forall r name,
          name <> SHADY_PART ->
          getAttribute (tree st') r name = getAttribute (tree st) r name)
    /\ (forall r name,
          inside element r = false ->
          getAttribute (tree st') r name = getAttribute (tree st) r name).
Proof.
  unfold onExportPartsAttributeChanged.
  destruct (rescopeRecursive_enough StyleInfo_get applyProperties element st)
    as (c & st' & Hrun & He).
  exists c, st'. split; [by intros fuel _ _; apply Hrun|]. split.
  - intros r name Hname. by apply eraseDOM_eq_getAttribute.
  - intros r name Hout.
    apply (rescopeRecursive_outside StyleInfo_get applyProperties
             (tree_height (tree st)) element st c st');
      [done|by apply Hrun].
Qed.

(** X20 on the worked example: a change of the [exportparts] attribute of
    [x-b] is handled, keeps that attribute and leaves the part [a1] of the
    enclosing tree without a specifier. *)
Lemma onExportPartsAttributeChanged_finishes_witness :
  exists c st',
    onExportPartsAttributeChanged Example.no_styleInfo Example.keep_rule 6
      Example.x_b None (Some (lit "b1:a2,b2:a3"))
      (initial Example.document []) = Some (c, st')
    /\ getAttribute (tree st') Example.x_b EXPORTPARTS
       = Some (lit "b1:a2,b2:a3")
    /\ getAttribute (tree st') Example.a1 SHADY_PART = None.
Proof.
  destruct (onExportPartsAttributeChanged_finishes Example.no_styleInfo
              Example.keep_rule Example.x_b (initial Example.document []))
    as (c & st' & Hrun & Hattr & Hout).
  exists c, st'. split; [|split].
  - apply Hrun. vm_compute. lia.
  - rewrite Hattr; [reflexivity|].
    intros H. vm_compute in H. discriminate H.
  - rewrite Hout; reflexivity.
Defined.

(** ** Part selectors *)

Lemma join_nil (l : list str) : join [] l = concat l.
Proof.
  induction l as [|x l IH]; [done|].
  destruct l as [|y l]; [symmetry; apply app_nil_r|].
  change (join [] (x :: y :: l)) with (x ++ [] ++ join [] (y :: l)).
  by rewrite IH.
Qed.

Lemma drop_while_all (cls : N -> bool) (s : str) :
  Forall (fun c => cls c = true) s -> drop_while cls s = [].
Proof. induction 1 as [|c s Hc _ IH]; simpl; [done|]. by rewrite Hc. Qed.

(** A value of white space only splits into one empty token. *)
Lemma parsePartAttribute_spaces (s : str) :
  s <> [] -> Forall (fun c => is_space c = true) s ->
  parsePartAttribute (Some s) = [[]].
Proof.
  intros Hne Hall. destruct s as [|x r]; [done|].
  unfold parsePartAttribute, trim, trimStart.
  by rewrite (drop_while_all is_space (x :: r) Hall).
Qed.

(** X21. For a part list with at least one code unit that is not white
    space, [formatPartSelector] writes one attribute selector for each word
    of the list, in order and with nothing between them; for the empty part
    list it writes the empty selector. *)
Theorem formatPartSelector_selectors (parts scope hostScope : str) :
  (exists c, In c parts /\ is_space c = false) ->
  formatPartSelector parts scope hostScope
  = concat
      (map (fun part =>
              lit "[shady-part~=" ++ hostScope ++ lit "_" ++ scope
              ++ lit "_" ++ part ++ lit "]")
         (words parts))
  /\ formatPartSelector [] scope hostScope = [].
Proof.
  intros Hs. split; [|done].
  unfold formatPartSelector. rewrite join_nil.
  rewrite (parsePartAttribute_nonblank parts Hs).
  f_equal. apply map_ext. intros part. unfold formatPartSpecifier.
  by rewrite <- !app_assoc.
Qed.

(** X21 at the part list [" foo  bar"] of [x-b] inside [x-a]. *)
Lemma formatPartSelector_selectors_witness :
  formatPartSelector (lit " foo  bar") (lit "x-b") (lit "x-a")
  = concat
      (map (fun part =>
              lit "[shady-part~=" ++ lit "x-a" ++ lit "_" ++ lit "x-b"
              ++ lit "_" ++ part ++ lit "]")
         (words (lit " foo  bar")))
  /\ formatPartSelector [] (lit "x-b") (lit "x-a") = [].
Proof.
  apply formatPartSelector_selectors.
  exists 102. split; [vm_compute; tauto|reflexivity].
Defined.

(** X22. A part attribute that is not empty and holds white space only
    parses to one empty part name, and [formatPartSelector] then writes a
    selector for the specifier with an empty part name. *)
Theorem formatPartSelector_spaces (parts scope hostScope : str) :
  parts <> [] ->
  Forall (fun c => is_space c = true) parts ->
  parsePartAttribute (Some parts) = [[]]
  /\ formatPartSelector parts scope hostScope
     = lit "[shady-part~=" ++ hostScope ++ lit "_" ++ scope ++ lit "_]".
Proof.
  intros Hne Hall. split; [by apply parsePartAttribute_spaces|].
  unfold formatPartSelector.
  rewrite (parsePartAttribute_spaces parts Hne Hall).
  cbn [map join]. unfold formatPartSpecifier.
  by rewrite app_nil_r, <- !app_assoc.
Qed.

(** X22 at a tab followed by a space. *)
Lemma formatPartSelector_spaces_witness :
  parsePartAttribute (Some [9; 32]) = [[]]
  /\ formatPartSelector [9; 32] (lit "x-b") (lit "x-a")
     = lit "[shady-part~=" ++ lit "x-a" ++ lit "_" ++ lit "x-b" ++ lit "_]".
Proof.
  apply formatPartSelector_spaces; [discriminate|].
  repeat constructor.
Defined.
